(** * Constrained-sampling engine of jaxns: slice sampler and
      multi-ellipsoidal rejection sampler

    Shallow embedding of
      - [src/jaxns/samplers/uni_slice_sampler.py]
      - [src/jaxns/likelihood_samplers/multi_ellipsoidal_samplers.py]
      - [src/jaxns/framework/prior.py]

    Conventions of the embedding.

    - A JAX float is a value of [float_type]: a rational, one of the two
      infinities, or NaN.  The special values follow IEEE 754 (comparisons with
      NaN are false, [inf - inf] and [0 * inf] are NaN, ...).  The arithmetic
      of the slice sampler is exact; the arithmetic of the rejection sampler's
      back-off (the bound [1 / efficiency_threshold] and the subtraction of
      [0.1]) is rounded to binary64, to nearest with ties to even.  Signed
      zeros are not modelled.
    - A JAX integer counter ([int_type]) is a [Z]; counters stay far below the
      machine range, so no wrap-around is modelled.
    - [lax.while_loop] is a fuel-bounded loop; running out of fuel is the
      outcome [OutOfFuel].
    - Every call of [model.forward] (and of its gradient) ticks a call counter
      carried by the monad [M], so that the number of model evaluations a run
      performs can be compared with the counts the samplers report. *)

From Stdlib Require Import ZArith QArith Qminmax Qreduction Bool List String Lia Lqa.
From Stdlib Require Import Qround Qabs Qpower.
Import ListNotations.

Local Open Scope Q_scope.

(** ** Floating-point values *)

Inductive float_type : Type :=
| NaN
| NegInf
| Fin (q : Q)
| PosInf.

Definition Fzero : float_type := Fin 0.
Definition Fone : float_type := Fin 1.

Definition isfinite (a : float_type) : bool :=
  match a with Fin _ => true | _ => false end.

Definition Fopp (a : float_type) : float_type :=
  match a with
  | NaN => NaN
  | NegInf => PosInf
  | Fin q => Fin (Qred (- q))
  | PosInf => NegInf
  end.

Definition Fadd (a b : float_type) : float_type :=
  match a, b with
  | NaN, _ | _, NaN => NaN
  | PosInf, NegInf | NegInf, PosInf => NaN
  | PosInf, _ | _, PosInf => PosInf
  | NegInf, _ | _, NegInf => NegInf
  | Fin p, Fin q => Fin (Qred (p + q))
  end.

Definition Fsub (a b : float_type) : float_type := Fadd a (Fopp b).

(** Sign of an infinite product or quotient: [s] is the comparison of the
    finite operand with zero, [pos] tells whether the infinite operand is
    [+inf]. *)
Definition signed_inf (s : comparison) (pos : bool) : float_type :=
  match s with
  | Eq => NaN
  | Gt => if pos then PosInf else NegInf
  | Lt => if pos then NegInf else PosInf
  end.

Definition Fmul (a b : float_type) : float_type :=
  match a, b with
  | NaN, _ | _, NaN => NaN
  | Fin p, Fin q => Fin (Qred (p * q))
  | Fin p, PosInf | PosInf, Fin p => signed_inf (p ?= 0) true
  | Fin p, NegInf | NegInf, Fin p => signed_inf (p ?= 0) false
  | PosInf, PosInf | NegInf, NegInf => PosInf
  | PosInf, NegInf | NegInf, PosInf => NegInf
  end.

Definition Fdiv (a b : float_type) : float_type :=
  match a, b with
  | NaN, _ | _, NaN => NaN
  | Fin p, Fin q =>
      match q ?= 0 with
      | Eq => signed_inf (p ?= 0) true
      | _ => Fin (Qred (p / q))
      end
  | Fin _, _ => Fin 0
  | PosInf, Fin q => match q ?= 0 with Lt => NegInf | _ => PosInf end
  | NegInf, Fin q => match q ?= 0 with Lt => PosInf | _ => NegInf end
  | _, _ => NaN
  end.

(** Comparison; [None] when an operand is NaN. *)
Definition Fcompare (a b : float_type) : option comparison :=
  match a, b with
  | NaN, _ | _, NaN => None
  | NegInf, NegInf => Some Eq
  | NegInf, _ => Some Lt
  | _, NegInf => Some Gt
  | PosInf, PosInf => Some Eq
  | PosInf, _ => Some Gt
  | _, PosInf => Some Lt
  | Fin p, Fin q => Some (p ?= q)
  end.

Definition Flt (a b : float_type) : bool :=
  match Fcompare a b with Some Lt => true | _ => false end.
Definition Fle (a b : float_type) : bool :=
  match Fcompare a b with Some Lt | Some Eq => true | _ => false end.
Definition Fgt (a b : float_type) : bool := Flt b a.
Definition Fge (a b : float_type) : bool := Fle b a.
Definition Feqb (a b : float_type) : bool :=
  match Fcompare a b with Some Eq => true | _ => false end.

(** [jnp.minimum] / [jnp.maximum] (and [lax.max]): NaN propagates. *)
Definition Fmin (a b : float_type) : float_type :=
  match a, b with
  | NaN, _ | _, NaN => NaN
  | _, _ => if Fle a b then a else b
  end.
Definition Fmax (a b : float_type) : float_type :=
  match a, b with
  | NaN, _ | _, NaN => NaN
  | _, _ => if Fle a b then b else a
  end.

(** [jnp.min] / [jnp.max] of a one-dimensional array; a zero-size array has no
    minimum and the reduction raises, which is [None] here. *)
Definition jnp_min (xs : list float_type) : option float_type :=
  match xs with
  | [] => None
  | x :: r => Some (fold_left Fmin r x)
  end.
Definition jnp_max (xs : list float_type) : option float_type :=
  match xs with
  | [] => None
  | x :: r => Some (fold_left Fmax r x)
  end.

(** Element-wise binary operation on two arrays of the same shape. *)
Fixpoint map2 {A B C : Type} (f : A -> B -> C) (xs : list A) (ys : list B) : list C :=
  match xs, ys with
  | x :: xs', y :: ys' => f x y :: map2 f xs' ys'
  | _, _ => []
  end.

(** ** Rounding to binary64

    The arithmetic of the rejection sampler's back-off is rounded: a basic
    operation of IEEE 754 returns the exact result rounded to the nearest
    binary64 value, ties to even, and overflows to an infinity. *)

(** [2 ^ e] for an integer exponent. *)
Definition pow2 (e : Z) : Q :=
  match e with
  | Z0 => 1
  | Zpos p => inject_Z (Z.pow_pos 2 p)
  | Zneg p => 1 # (Pos.pow 2 p)
  end.

(** [floor (log2 a)] of a positive rational. *)
Definition Qlog2 (a : Q) : Z :=
  let e := (Z.log2 (Qnum a) - Z.log2 (Zpos (Qden a)))%Z in
  if Qle_bool (pow2 e) a then e else (e - 1)%Z.

(** The integer nearest to a rational, ties to the even one. *)
Definition round_half_even (x : Q) : Z :=
  let f := Qfloor x in
  match Qcompare (x - inject_Z f) (1 # 2) with
  | Lt => f
  | Gt => (f + 1)%Z
  | Eq => if Z.even f then f else (f + 1)%Z
  end.

(** The binary64 value nearest to a rational: 53 significant bits, exponents
    from [-1022] (with subnormal numbers below) to [1023]. *)
Definition round64 (q : Q) : float_type :=
  match Qcompare q 0 with
  | Eq => Fin 0
  | sign =>
      let inf := match sign with Lt => NegInf | _ => PosInf end in
      let a := Qabs q in
      let l := Qlog2 a in
      if (1024 <=? l)%Z then inf
      else
        let e := Z.max l (-1022) in
        let ulp := pow2 (e - 52) in
        let n := round_half_even (a / ulp) in
        if ((e =? 1023)%Z && (2 ^ 53 <=? n)%Z)%bool then inf
        else
          let v := inject_Z n * ulp in
          Fin (Qred (match sign with Lt => - v | _ => v end))
  end.

(** The result of a floating-point operation, from its exact result. *)
Definition F64 (x : float_type) : float_type :=
  match x with
  | Fin q => round64 q
  | _ => x
  end.

(** The Python float [0.1]. *)
Definition tenth : float_type := round64 (1 # 10).

(** ** Outcomes and the evaluation-counting monad *)

Inductive exn : Type :=
| ValueError (msg : string)
| NotImplementedError (msg : string).

Inductive outcome (A : Type) : Type :=
| Returns (a : A) (evals : nat)
| Raises (e : exn)
| OutOfFuel.
Arguments Returns {A} a evals.
Arguments Raises {A} e.
Arguments OutOfFuel {A}.

(** A computation takes the number of model evaluations performed so far and
    yields a value together with the updated number. *)
Definition M (A : Type) : Type := nat -> outcome A.

Definition ret {A : Type} (a : A) : M A := fun n => Returns a n.

Definition bind {A B : Type} (m : M A) (f : A -> M B) : M B :=
  fun n =>
    match m n with
    | Returns a n' => f a n'
    | Raises e => Raises e
    | OutOfFuel => OutOfFuel
    end.

Definition raise {A : Type} (e : exn) : M A := fun _ => Raises e.

Definition lift_option {A : Type} (e : exn) (o : option A) : M A :=
  match o with
  | Some a => ret a
  | None => raise e
  end.

Declare Scope eval_scope.
Delimit Scope eval_scope with eval.
Notation "x <- m ;; k" := (bind m (fun x => k))
  (at level 61, m at next level, right associativity) : eval_scope.
Notation "' p <- m ;; k" := (bind m (fun x => match x with p => k end))
  (at level 61, p pattern, m at next level, right associativity) : eval_scope.
Local Open Scope eval_scope.

(** [lax.while_loop(cond_fun, body_fun, init_val)]. *)
Fixpoint while_loop {S : Type} (fuel : nat) (cond_fun : S -> bool)
  (body_fun : S -> M S) (s : S) : M S :=
  if cond_fun s then
    match fuel with
    | O => fun _ => OutOfFuel
    | Datatypes.S fuel' => s' <- body_fun s ;; while_loop fuel' cond_fun body_fun s'
    end
  else ret s.

(** ** External collaborators *)

(** [jax.random] with an explicit key.  [split_at key num i] is
    [random.split(key, num)[i]]; [uniform01 key] is [random.uniform(key)],
    which lies in [[0, 1)]; [normal_at key ndim i] is
    [random.normal(key, shape=(ndim,))[i]]. *)
Class JaxRandom : Type := {
  PRNGKey : Type;
  split_at : PRNGKey -> nat -> nat -> PRNGKey;
  uniform01 : PRNGKey -> Q;
  uniform01_range : forall k, 0 <= uniform01 k /\ uniform01 k < 1;
  normal_at : PRNGKey -> nat -> nat -> float_type
}.

(** A point of the sampler's coordinate space. *)
Definition UType : Type := list float_type.

(** [BaseAbstractModel]: the likelihood [model.forward] and its gradient
    [jax.grad(model.forward)]. *)
Class BaseAbstractModel : Type := {
  forward : UType -> float_type;
  grad_forward : UType -> UType
}.

(** Floating-point primitives left abstract: [jnp.linalg.norm] and the machine
    epsilon [jnp.finfo(dtype).eps] of [float_type]. *)
Class Numerics : Type := {
  linalg_norm : list float_type -> float_type;
  finfo_eps : Q
}.

Section Collaborators.
Context {RNG : JaxRandom} {model : BaseAbstractModel}.

(** [random.split(key, num)]. *)
Definition random_split (key : PRNGKey) (num : nat) : list PRNGKey :=
  map (split_at key num) (seq 0 num).

(** [random.normal(key, shape=(ndim,))]. *)
Definition random_normal (key : PRNGKey) (ndim : nat) : list float_type :=
  map (normal_at key ndim) (seq 0 ndim).

(** [random.uniform(key, minval=.., maxval=..)]: the unit draw is scaled and
    shifted, then clamped from below by [minval]. *)
Definition random_uniform (key : PRNGKey) (minval maxval : float_type) : float_type :=
  Fmax minval (Fadd (Fmul (Fin (uniform01 key)) (Fsub maxval minval)) minval).

(** One evaluation of [model.forward]. *)
Definition model_forward (U : UType) : M float_type :=
  fun n => Returns (forward U) (S n).

(** One evaluation of [jax.grad(model.forward)]. *)
Definition model_grad (U : UType) : M UType :=
  fun n => Returns (grad_forward U) (S n).
End Collaborators.

(** ** The Markov slice sampler ([uni_slice_sampler.py]) *)

Module UniSlice.

Record SeedPoint : Type := {
  U0 : UType;
  log_L0 : float_type
}.

Record Sample : Type := {
  U_sample : UType;
  log_L_constraint : float_type;
  log_L : float_type;
  num_likelihood_evaluations : Z
}.

(** Loop state of [_new_proposal]. *)
Record Carry {RNG : JaxRandom} : Type := {
  c_key : PRNGKey;
  c_direction : list float_type;
  c_left : float_type;
  c_right : float_type;
  c_t : float_type;
  c_point_U : UType;
  c_log_L : float_type;
  c_num_likelihood_evaluations : Z
}.

Definition zero_size : exn :=
  ValueError "zero-size array to reduction operation".

(** [_slice_bounds]: the [t] at which [point_U0 + direction * t] meets the
    boundary of the unit cube. *)
Definition _slice_bounds (point_U0 direction : list float_type)
  : option (float_type * float_type) :=
  let t1 := map2 (fun u d => Fdiv (Fsub Fone u) d) point_U0 direction in
  match jnp_min (map (fun x => if Fge x Fzero then x else PosInf) t1) with
  | None => None
  | Some t1_right =>
  match jnp_max (map (fun x => if Fle x Fzero then x else NegInf) t1) with
  | None => None
  | Some t1_left =>
  let t0 := map2 (fun u d => Fdiv (Fopp u) d) point_U0 direction in
  match jnp_min (map (fun x => if Fge x Fzero then x else PosInf) t0) with
  | None => None
  | Some t0_right =>
  match jnp_max (map (fun x => if Fle x Fzero then x else NegInf) t0) with
  | None => None
  | Some t0_left =>
      let right_bound := Fmin t0_right t1_right in
      let left_bound := Fmax t0_left t1_left in
      Some (left_bound, right_bound)
  end end end end.

Section Proposal.
Context {RNG : JaxRandom} {model : BaseAbstractModel} {num : Numerics}.

(** [_sample_direction]: a random direction on the sphere; in one dimension
    the scalar one, which broadcasts against the one-element point. *)
Definition _sample_direction (n_key : PRNGKey) (ndim : nat) : list float_type :=
  if Nat.eqb ndim 1 then [Fone]
  else
    let direction := random_normal n_key ndim in
    let norm := linalg_norm direction in
    map (fun d => Fdiv d norm) direction.

(** [_pick_point_in_interval]: a point of the slice between [left] and
    [right]. *)
Definition _pick_point_in_interval (key : PRNGKey) (point_U0 direction : list float_type)
  (left right : float_type) : UType * float_type :=
  let t := random_uniform key left right in
  let point_U := map2 (fun u d => Fadd u (Fmul t d)) point_U0 direction in
  (point_U, t).

(** [_shrink_interval]: shrink to the rejected point, and with
    [midpoint_shrink] further towards the origin. *)
Definition _shrink_interval (key : PRNGKey) (t left right : float_type)
  (log_L_proposal log_L_constraint log_L0 : float_type) (midpoint_shrink : bool)
  : float_type * float_type :=
  let left := if Flt t Fzero then t else left in
  let right := if Fgt t Fzero then t else right in
  if midpoint_shrink then
    let alpha := Fin (uniform01 key) in
    let left := if Flt t Fzero then Fmul alpha left else left in
    let right := if Fgt t Fzero then Fmul alpha right else right in
    (left, right)
  else (left, right).

Section NewProposal.
Variable seed_point : SeedPoint.
Variable midpoint_shrink : bool.
Variable log_L_constraint : float_type.

Definition close_to_zero_interval (carry : Carry) : bool :=
  Fle (Fsub (c_right carry) (c_left carry)) (Fin (2 * finfo_eps)).

Definition cond (carry : Carry) : bool :=
  let satisfaction := Fgt (c_log_L carry) log_L_constraint in
  let lesser_satisfaction :=
    Feqb (log_L0 seed_point) log_L_constraint
    && Feqb (c_log_L carry) log_L_constraint in
  let done := (close_to_zero_interval carry || satisfaction) || lesser_satisfaction in
  negb done.

Definition body (carry : Carry) : M Carry :=
  let key := split_at (c_key carry) 3 0 in
  let t_key := split_at (c_key carry) 3 1 in
  let shrink_key := split_at (c_key carry) 3 2 in
  let '(left_, right_) :=
    _shrink_interval shrink_key (c_t carry) (c_left carry) (c_right carry)
      (c_log_L carry) log_L_constraint (log_L0 seed_point) midpoint_shrink in
  let '(point_U, t) :=
    _pick_point_in_interval t_key (U0 seed_point) (c_direction carry) left_ right_ in
  log_L <- model_forward point_U ;;
  let num_likelihood_evaluations := (c_num_likelihood_evaluations carry + 1)%Z in
  ret {| c_key := key;
         c_t := t;
         c_left := left_;
         c_right := right_;
         c_point_U := point_U;
         c_log_L := log_L;
         c_num_likelihood_evaluations := num_likelihood_evaluations;
         c_direction := c_direction carry |}.

(** The part of [_new_proposal] before the loop: direction, bracket and
    first proposal. *)
Definition init_carry (key0 : PRNGKey) (perfect gradient_slice : bool) : M Carry :=
  let key := split_at key0 3 0 in
  let n_key := split_at key0 3 1 in
  let t_key := split_at key0 3 2 in
  '(direction, num_likelihood_evaluations, left_, right_) <-
    (if gradient_slice then
       direction <- model_grad (U0 seed_point) ;;
       let norm := linalg_norm direction in
       let direction := map (fun d => Fdiv d norm) direction in
       let direction :=
         if Feqb norm Fzero || negb (isfinite norm)
         then _sample_direction n_key (List.length (U0 seed_point))
         else direction in
       '(left_, right_) <- lift_option zero_size (_slice_bounds (U0 seed_point) direction) ;;
       ret (direction, 1%Z, Fzero, right_)
     else
       let direction := _sample_direction n_key (List.length (U0 seed_point)) in
       if perfect then
         '(left_, right_) <- lift_option zero_size (_slice_bounds (U0 seed_point) direction) ;;
         ret (direction, 0%Z, left_, right_)
       else raise (NotImplementedError "TODO: implement doubling step out")) ;;
  let '(point_U, t) :=
    _pick_point_in_interval t_key (U0 seed_point) direction left_ right_ in
  log_L <- model_forward point_U ;;
  ret {| c_key := key;
         c_direction := direction;
         c_left := left_;
         c_right := right_;
         c_t := t;
         c_point_U := point_U;
         c_log_L := log_L;
         c_num_likelihood_evaluations := num_likelihood_evaluations |}.

(** The final loop state of [_new_proposal]. *)
Definition final_carry (fuel : nat) (key : PRNGKey) (perfect gradient_slice : bool)
  : M Carry :=
  init <- init_carry key perfect gradient_slice ;;
  while_loop fuel cond body init.

Definition _new_proposal (fuel : nat) (key : PRNGKey) (perfect gradient_slice : bool)
  : M (UType * float_type * Z) :=
  carry <- final_carry fuel key perfect gradient_slice ;;
  ret (c_point_U carry, c_log_L carry, c_num_likelihood_evaluations carry).
End NewProposal.
End Proposal.
End UniSlice.

(** Python's [xs[start:stop]], negative indices counting from the end. *)
Definition py_clip (n i : Z) : Z :=
  if (i <? 0)%Z then Z.max (n + i) 0 else Z.min i n.

Definition py_slice {A : Type} (xs : list A) (start stop : Z) : list A :=
  let n := Z.of_nat (List.length xs) in
  let lo := py_clip n start in
  let hi := py_clip n stop in
  firstn (Z.to_nat (hi - lo)) (skipn (Z.to_nat lo) xs).

(** Modelled from the spec: [cumulative_op_static] of
    [jaxns.internals.cumulative_ops], which is not among the sources.  It is
    the cumulative scan of the spec: the output of each application of [op] is
    the accumulator of the next, and the scan returns the final accumulator
    together with the accumulator after every application. *)
Fixpoint cumulative_op_static {V X : Type} (op : V -> X -> M V) (init : V) (xs : list X)
  : M (V * list V) :=
  match xs with
  | [] => ret (init, [])
  | x :: xs' =>
      v <- op init x ;;
      '(final, out) <- cumulative_op_static op v xs' ;;
      ret (final, v :: out)
  end.

Module UniDimSliceSampler.
Import UniSlice.

(** The attributes of a constructed [UniDimSliceSampler]. *)
Record t : Type := {
  num_slices : Z;
  num_phantom_save : Z;
  midpoint_shrink : bool;
  perfect : bool;
  gradient_slice : bool
}.

(** [UniDimSliceSampler.__init__]: the checks, in the order of the source. *)
Definition __init__ (num_slices num_phantom_save : Z)
  (midpoint_shrink perfect gradient_slice : bool) : exn + t :=
  if (num_slices <? 1)%Z then
    inl (ValueError "num_slices should be >= 1")
  else if (num_phantom_save <? 0)%Z then
    inl (ValueError "num_phantom_save should be >= 0")
  else if (num_phantom_save >=? num_slices)%Z then
    inl (ValueError "num_phantom_save should be < num_slices")
  else if negb perfect then
    inl (ValueError "Only perfect slice sampler is implemented.")
  else
    inr {| num_slices := num_slices;
           num_phantom_save := num_phantom_save;
           midpoint_shrink := midpoint_shrink;
           perfect := perfect;
           gradient_slice := gradient_slice |}.

Definition num_phantom (self : t) : Z := num_phantom_save self.

(** A sampler state is the one-element tuple [(sample_collection,)]. *)
Inductive SamplerState (StaticStandardSampleCollection : Type) : Type :=
| tuple1 (sample_collection : StaticStandardSampleCollection).
Arguments tuple1 {StaticStandardSampleCollection} sample_collection.

Definition post_process {StaticStandardSampleCollection : Type} (self : t)
  (sample_collection : StaticStandardSampleCollection)
  (sampler_state : SamplerState StaticStandardSampleCollection)
  : SamplerState StaticStandardSampleCollection :=
  if perfect self then tuple1 sample_collection
  else tuple1 sample_collection.

Section GetSample.
Context {RNG : JaxRandom} {model : BaseAbstractModel} {num : Numerics}.
Context {StaticStandardSampleCollection : Type}.

Definition propose_op (self : t) (fuel : nat) (log_L_constraint : float_type)
  (sample : Sample) (key : PRNGKey) : M Sample :=
  '(U, lL, evaluations) <-
    _new_proposal
      {| U0 := U_sample sample; log_L0 := log_L sample |}
      (midpoint_shrink self) log_L_constraint
      fuel key (perfect self) (gradient_slice self) ;;
  ret {| U_sample := U;
         log_L_constraint := log_L_constraint;
         log_L := lL;
         num_likelihood_evaluations :=
           (evaluations + num_likelihood_evaluations sample)%Z |}.

Definition init_sample (seed_point : SeedPoint) (log_L_constraint : float_type) : Sample :=
  {| U_sample := U0 seed_point;
     log_L_constraint := log_L_constraint;
     log_L := log_L0 seed_point;
     num_likelihood_evaluations := 0 |}.

(** The cumulative scan of [get_sample_from_seed]. *)
Definition chain (self : t) (fuel : nat) (key : PRNGKey) (seed_point : SeedPoint)
  (log_L_constraint : float_type) : M (Sample * list Sample) :=
  cumulative_op_static (propose_op self fuel log_L_constraint)
    (init_sample seed_point log_L_constraint)
    (random_split key (Z.to_nat (num_slices self))).

Definition replace_num_likelihood_evaluations (s : Sample) (n : Z) : Sample :=
  {| U_sample := U_sample s;
     log_L_constraint := log_L_constraint s;
     log_L := log_L s;
     num_likelihood_evaluations := n |}.

(** The division of the total count: the float quotient converted back to an
    integer, that is, truncated. *)
Definition per_phantom_sample (self : t) (total : Z) : Z :=
  Z.quot total (num_phantom_save self + 1).

Definition per_accepted_sample (self : t) (total : Z) : Z :=
  (total - per_phantom_sample self total * num_phantom_save self)%Z.

Definition get_sample_from_seed (self : t) (fuel : nat) (key : PRNGKey)
  (seed_point : SeedPoint) (log_L_constraint : float_type)
  (sampler_state : SamplerState StaticStandardSampleCollection)
  : M (Sample * list Sample) :=
  '(final_sample, cumulative_samples) <- chain self fuel key seed_point log_L_constraint ;;
  let phantom_samples :=
    py_slice cumulative_samples (- (num_phantom_save self + 1)) (-1) in
  let total := num_likelihood_evaluations final_sample in
  let final_sample :=
    replace_num_likelihood_evaluations final_sample (per_accepted_sample self total) in
  let phantom_samples :=
    map (fun s => replace_num_likelihood_evaluations s (per_phantom_sample self total))
      phantom_samples in
  ret (final_sample, phantom_samples).
End GetSample.
End UniDimSliceSampler.

(** ** The multi-ellipsoidal rejection sampler
       ([multi_ellipsoidal_samplers.py]) *)

Module MultiellipsoidalSampler.

Record Sample : Type := {
  point_U : UType;
  log_L_constraint : float_type;
  log_L : float_type;
  num_likelihood_evaluations : Z;
  num_slices : Z;
  iid : bool
}.

Record CarryState {RNG : JaxRandom} : Type := {
  done : bool;
  key : PRNGKey;
  U : UType;
  cs_log_L : float_type;
  cs_log_L_constraint : float_type;
  num_likelihood_evals : Z
}.

(** The attributes of the sampler used by [get_sample]; [efficiency_threshold]
    is set by the base class [AbstractRejectionSampler]. *)
Record t : Type := {
  depth : Z;
  efficiency_threshold : float_type
}.

(** The fitted ellipsoids and the primitive that samples their union within
    the unit cube, [sample_multi_ellipsoid(key, mu, radii, rotation,
    unit_cube_constraint=True)]; both are external. *)
Class EllipsoidUnion {RNG : JaxRandom} : Type := {
  MultEllipsoidState : Type;
  sample_multi_ellipsoid : PRNGKey -> MultEllipsoidState -> UType
}.

(** [1. / self.efficiency_threshold], a division of floating-point arrays: a
    zero threshold gives an infinite bound. *)
Definition one_over (x : float_type) : float_type := F64 (Fdiv Fone x).

Section GetSample.
Context {RNG : JaxRandom} {model : BaseAbstractModel} {ell : EllipsoidUnion}.
Context {LivePoints : Type}.
Variable self : t.
Variable preprocess_data : MultEllipsoidState.

Definition _sample_multi_ellipsoid (k : PRNGKey) : UType :=
  sample_multi_ellipsoid k preprocess_data.

(** The loop body of [get_sample].  The attempt counter is compared with the
    bound as a float, a conversion that is exact below [2 ^ 53]; the bound
    and the relaxed constraint are results of binary64 operations. *)
Definition body (carry_state : CarryState) : M CarryState :=
  let key' := split_at (key carry_state) 2 0 in
  let sample_key := split_at (key carry_state) 2 1 in
  lL <- model_forward (U carry_state) ;;
  let evals := (num_likelihood_evals carry_state + 1)%Z in
  let bound := one_over (efficiency_threshold self) in
  let constraint :=
    if Fgt (Fin (inject_Z evals)) bound
    then F64 (Fsub (cs_log_L_constraint carry_state) tenth)
    else cs_log_L_constraint carry_state in
  let done' := Fgt lL constraint in
  let U' := if done' then U carry_state else _sample_multi_ellipsoid sample_key in
  ret {| done := done';
         key := key';
         U := U';
         cs_log_L := lL;
         num_likelihood_evals := evals;
         cs_log_L_constraint := constraint |}.

Definition init_carry_state (key0 : PRNGKey) (log_L_constraint : float_type) : CarryState :=
  let key' := split_at key0 2 0 in
  let sample_key := split_at key0 2 1 in
  {| done := false;
     key := key';
     U := _sample_multi_ellipsoid sample_key;
     cs_log_L := log_L_constraint;
     cs_log_L_constraint := log_L_constraint;
     num_likelihood_evals := 0 |}.

(** The final loop state of [get_sample]. *)
Definition final_carry_state (fuel : nat) (key0 : PRNGKey) (log_L_constraint : float_type)
  : M CarryState :=
  while_loop fuel (fun s => negb (done s)) body (init_carry_state key0 log_L_constraint).

Definition get_sample (fuel : nat) (key0 : PRNGKey) (log_L_constraint : float_type)
  (live_points : LivePoints) : M Sample :=
  carry_state <- final_carry_state fuel key0 log_L_constraint ;;
  ret {| point_U := U carry_state;
         log_L_constraint := cs_log_L_constraint carry_state;
         log_L := cs_log_L carry_state;
         num_likelihood_evaluations := num_likelihood_evals carry_state;
         num_slices := 0;
         iid := true |}.
End GetSample.
End MultiellipsoidalSampler.

(** ** Concrete collaborators, for running the samplers *)

Module Example.

(** Keys are binary numbers; a uniform draw is a quarter of the key's residue
    modulo four. *)
Definition quarter (k : N) : Q := Z.of_N (k mod 4) # 4.

#[local, refine] Instance rng : JaxRandom := {|
  PRNGKey := N;
  split_at := fun k n i => (k * N.of_nat n + N.of_nat i + 1)%N;
  uniform01 := quarter;
  normal_at := fun _ _ _ => Fone
|}.
Proof.
  intros k. unfold quarter, Qle, Qlt. cbn [Qnum Qden].
  pose proof (N.mod_upper_bound k 4 ltac:(discriminate)) as H.
  revert H. generalize (k mod 4)%N. intros m H. lia.
Defined.

(** A one-dimensional likelihood with a single spike at [1/4]. *)
Definition spike (U : UType) : float_type :=
  match U with
  | [Fin q] => if Qeq_bool q (1 # 4) then Fin 1 else Fin 0
  | _ => NegInf
  end.

Definition spike_model : BaseAbstractModel := {|
  forward := spike;
  grad_forward := map (fun _ => Fzero)
|}.

(** The sum of the coordinates, a likelihood without plateau. *)
Definition total (U : UType) : float_type := fold_right Fadd Fzero U.

Definition total_model : BaseAbstractModel := {|
  forward := total;
  grad_forward := map (fun _ => Fone)
|}.

(** Double precision; the norm of a one-element array is the absolute value
    of its element, and the examples are one-dimensional. *)
Definition float64 : Numerics := {|
  linalg_norm := fun xs =>
    match xs with
    | [x] => if Flt x Fzero then Fopp x else x
    | _ => NaN
    end;
  finfo_eps := 1 # (2 ^ 52)
|}.

(** The ellipsoid union is the unit interval, sampled at its midpoint. *)
Definition interval : MultiellipsoidalSampler.EllipsoidUnion (RNG := rng) := {|
  MultiellipsoidalSampler.MultEllipsoidState := unit;
  MultiellipsoidalSampler.sample_multi_ellipsoid := fun _ _ => [Fin (1 # 2)]
|}.

Definition slice_sampler (n p : Z) (midpoint : bool) : UniDimSliceSampler.t :=
  {| UniDimSliceSampler.num_slices := n;
     UniDimSliceSampler.num_phantom_save := p;
     UniDimSliceSampler.midpoint_shrink := midpoint;
     UniDimSliceSampler.perfect := true;
     UniDimSliceSampler.gradient_slice := false |}.

(** A run of three slices keeping two phantom samples, on the sum likelihood. *)
Definition seed : UniSlice.SeedPoint :=
  {| UniSlice.U0 := [Fin (3 # 4)]; UniSlice.log_L0 := Fin (3 # 4) |}.

Definition sample_at (q : Q) (evaluations : Z) : UniSlice.Sample :=
  {| UniSlice.U_sample := [Fin q];
     UniSlice.log_L_constraint := Fin (1 # 2);
     UniSlice.log_L := Fin q;
     UniSlice.num_likelihood_evaluations := evaluations |}.

(** A seed on the spike. *)
Definition spike_seed : UniSlice.SeedPoint :=
  {| UniSlice.U0 := [Fin (1 # 4)]; UniSlice.log_L0 := Fin 1 |}.

(** The binary64 number just below [1/4], [1/4 - 2^-53], and the likelihood
    with a single spike there. *)
Definition below_quarter : Q := 2251799813685247 # 9007199254740992.

Definition edge_spike (U : UType) : float_type :=
  match U with
  | [Fin q] => if Qeq_bool q below_quarter then Fin 1 else Fin 0
  | _ => NegInf
  end.

Definition edge_spike_model : BaseAbstractModel := {|
  forward := edge_spike;
  grad_forward := map (fun _ => Fzero)
|}.

(** A run of one slice on that likelihood, from the spike itself.  Every
    bracket end, every [t] and every point of this run is a binary64 number,
    and so is the exact result of each operation that computes them: the run
    is the same with rounded arithmetic. *)
Definition edge_seed : UniSlice.SeedPoint :=
  {| UniSlice.U0 := [Fin below_quarter]; UniSlice.log_L0 := Fin 1 |}.

Definition collapsed_run : outcome (UniSlice.Sample * list UniSlice.Sample) :=
  Eval vm_compute in
    UniDimSliceSampler.get_sample_from_seed
      (RNG := rng) (model := edge_spike_model) (num := float64)
      (slice_sampler 1 0 false) 100 1%N edge_seed (Fin (1 # 2))
      (UniDimSliceSampler.tuple1 tt) 0%nat.

Definition collapsed_sample : UniSlice.Sample :=
  Eval vm_compute in
    match collapsed_run with
    | Returns (final, _) _ => final
    | _ => sample_at 0 0
    end.

End Example.

(** ** Seed-point selection ([UniDimSliceSampler.get_seed_point]) *)

(** [random.gumbel(key, shape=(n,))[i]]. *)
Class JaxGumbel {RNG : JaxRandom} : Type := {
  gumbel_at : PRNGKey -> nat -> nat -> float_type
}.

(** [jnp.argmax] of a one-dimensional array: the first position of the
    maximum, a NaN counting as the maximum; a zero-size array raises, which is
    [None] here. *)
Definition improves (x best : float_type) : bool :=
  match best, x with
  | NaN, _ => false
  | _, NaN => true
  | _, _ => Flt best x
  end.

Fixpoint argmax_from (best_i : nat) (best : float_type) (i : nat) (xs : list float_type)
  : nat :=
  match xs with
  | [] => best_i
  | x :: r =>
      if improves x best then argmax_from i x (S i) r
      else argmax_from best_i best (S i) r
  end.

Definition jnp_argmax (xs : list float_type) : option nat :=
  match xs with
  | [] => None
  | x :: r => Some (argmax_from 0 x 1 r)
  end.

(** [xs[i]] for an index computed on the device: an index past the end is
    clamped to the last element; a zero-size array cannot be indexed, which is
    [None] here. *)
Definition jnp_take {A : Type} (xs : list A) (i : nat) : option A :=
  nth_error xs (Nat.min i (List.length xs - 1)).

Module SeedSelection.
Import UniSlice.

(** The two fields of [StaticStandardSampleCollection] that the selection
    reads. *)
Record StaticStandardSampleCollection : Type := {
  U_samples : list UType;
  sc_log_L : list float_type
}.

(** The two ways the selection fails: [jnp.argmax] of an empty array
    (a [ValueError]) and indexing an empty array (an [IndexError]). *)
Inductive error : Type :=
| argmax_of_empty_sequence
| index_out_of_bounds.

Section GetSeedPoint.
Context {RNG : JaxRandom} {gumbel : JaxGumbel}.

(** [random.gumbel(key, shape=shape)]. *)
Definition random_gumbel (key : PRNGKey) (n : nat) : list float_type :=
  map (gumbel_at key n) (seq 0 n).

Definition unnorm_select_log_prob (log_L : list float_type) (log_L_constraint : float_type)
  : list float_type :=
  let select_mask := map (fun l => Fgt l log_L_constraint) log_L in
  let any_satisfied := existsb (fun b : bool => b) select_mask in
  let yes_ := Fzero in
  let no_ := NegInf in
  map (fun m : bool => if any_satisfied then (if m then yes_ else no_) else yes_)
    select_mask.

Definition get_seed_point (key : PRNGKey)
  (sampler_state : UniDimSliceSampler.SamplerState StaticStandardSampleCollection)
  (log_L_constraint : float_type) : error + SeedPoint :=
  let '(UniDimSliceSampler.tuple1 sample_collection) := sampler_state in
  let unnorm := unnorm_select_log_prob (sc_log_L sample_collection) log_L_constraint in
  let g := random_gumbel key (List.length unnorm) in
  match jnp_argmax (map2 Fadd g unnorm) with
  | None => inl argmax_of_empty_sequence
  | Some sample_idx =>
      match jnp_take (U_samples sample_collection) sample_idx,
            jnp_take (sc_log_L sample_collection) sample_idx with
      | Some U, Some l => inr {| U0 := U; log_L0 := l |}
      | _, _ => inl index_out_of_bounds
      end
  end.
End GetSeedPoint.
End SeedSelection.

(** ** More concrete collaborators *)

Module MoreExamples.

(** A constant likelihood. *)
Definition flat_model : BaseAbstractModel := {|
  forward := fun _ => Fin 0;
  grad_forward := map (fun _ => Fzero)
|}.

(** Gumbel draws that decrease along the array. *)
Definition gumbel : JaxGumbel (RNG := Example.rng) := {|
  gumbel_at := fun _ _ i => Fin (- inject_Z (Z.of_nat i))
|}.

(** Three accepted samples, the last two above the constraint [1/2]. *)
Definition collection : SeedSelection.StaticStandardSampleCollection :=
  {| SeedSelection.U_samples := [[Fin (1 # 4)]; [Fin (3 # 4)]; [Fin (7 # 8)]];
     SeedSelection.sc_log_L := [Fin (1 # 4); Fin (3 # 4); Fin (7 # 8)] |}.

End MoreExamples.

(** ** Priors ([jaxns/framework/prior.py]) *)

Module Priors.

(** The errors of the prior layer.  [CollaboratorError] stands for whatever a
    distribution, the base class or haiku raises. *)
Inductive error : Type :=
| ValueError (msg : string)
| NotImplementedError
| AttributeError (attribute : string)
| CollaboratorError (msg : string).

Definition result (A : Type) : Type := (error + A)%type.

Definition and_then {A B : Type} (r : result A) (k : A -> result B) : result B :=
  match r with
  | inl e => inl e
  | inr a => k a
  end.

(** Element types of arrays. *)
Inductive dtype_t : Type := float_dtype | int_dtype | bool_dtype.

(** A [jnp.ndarray]: shape, element type and elements in row-major order. *)
Module Array.
Record t : Type := {
  shape : list nat;
  dtype : dtype_t;
  data : list float_type
}.

(** Number of elements of an array of a given shape. *)
Definition size (shape : list nat) : nat := fold_right Nat.mul 1%nat shape.

(** [jnp.asarray([], float_type)]. *)
Definition empty : t := {| shape := [0%nat]; dtype := float_dtype; data := [] |}.

(** [jnp.asarray(0., float_type)]. *)
Definition zero : t := {| shape := []; dtype := float_dtype; data := [Fzero] |}.

(** [jnp.zeros(shape, dtype=float_type)]. *)
Definition zeros (shape : list nat) : t :=
  {| shape := shape; dtype := float_dtype; data := repeat Fzero (size shape) |}.
End Array.

(** An object of a class derived from [BaseAbstractDistribution]: its
    attributes and methods, each of which may raise. *)
Module BaseAbstractDistribution.
Record t : Type := {
  base_shape : result (list nat);
  shape : result (list nat);
  dtype : result dtype_t;
  forward : Array.t -> result Array.t;
  inverse : Array.t -> result Array.t;
  log_prob : Array.t -> result Array.t
}.
End BaseAbstractDistribution.

(** [tfpd.Distribution] objects and their wrapper
    [jaxns.framework.distribution.Distribution]. *)
Class Tfp : Type := {
  tfp_distribution : Type;
  Distribution : tfp_distribution -> BaseAbstractDistribution.t
}.

Module SingularPrior.
Record t : Type := {
  value : Array.t;
  dist : BaseAbstractDistribution.t;
  name : option string
}.

Definition __init__ (value : Array.t) (dist : BaseAbstractDistribution.t)
  (name : option string) : t :=
  {| value := value; dist := dist; name := name |}.

Definition _dtype (self : t) : result dtype_t :=
  BaseAbstractDistribution.dtype (dist self).

Definition _base_shape (self : t) : result (list nat) := inr [0%nat].

Definition _shape (self : t) : result (list nat) :=
  BaseAbstractDistribution.shape (dist self).

Definition _forward (self : t) (U : Array.t) : result Array.t := inr (value self).

Definition _inverse (self : t) (X : Array.t) : result Array.t := inr Array.empty.

Definition _log_prob (self : t) (X : Array.t) : result Array.t :=
  BaseAbstractDistribution.log_prob (dist self) X.
End SingularPrior.

Module Prior.
(** The attributes of a [Prior] object; [_dist] and [_value] are set by
    [__init__] according to [_type], and reading an attribute that is not set
    raises [AttributeError].  The constructor of the base class is taken to
    do no more than record the name. *)
Record t : Type := {
  _type : string;
  _dist : option BaseAbstractDistribution.t;
  _value : option Array.t;
  name : option string
}.

Definition get_attribute {A : Type} (attribute : string) (a : option A) : result A :=
  match a with
  | Some x => inr x
  | None => inl (AttributeError attribute)
  end.

(** What [__init__] is given: the three cases of its [isinstance] tests, the
    last one already converted by [jnp.asarray]. *)
Inductive dist_or_value_t {TFP : Tfp} : Type :=
| a_tfp_distribution (d : tfp_distribution)
| a_distribution (d : BaseAbstractDistribution.t)
| a_value (v : Array.t).

Definition __init__ {TFP : Tfp} (dist_or_value : dist_or_value_t) (name : option string)
  : t :=
  match dist_or_value with
  | a_tfp_distribution d =>
      {| _type := "dist"; _dist := Some (Distribution d); _value := None; name := name |}
  | a_distribution d =>
      {| _type := "dist"; _dist := Some d; _value := None; name := name |}
  | a_value v =>
      {| _type := "value"; _dist := None; _value := Some v; name := name |}
  end.

Definition dist (self : t) : result BaseAbstractDistribution.t :=
  if negb (String.eqb (_type self) "dist")
  then inl (ValueError (String.append "Wrong type, got " (_type self)))
  else get_attribute "_dist" (_dist self).

Definition value (self : t) : result Array.t :=
  if negb (String.eqb (_type self) "value")
  then inl (ValueError (String.append "Wrong type, got " (_type self)))
  else get_attribute "_value" (_value self).

Definition _base_shape (self : t) : result (list nat) :=
  if String.eqb (_type self) "value" then inr [0%nat]
  else if String.eqb (_type self) "dist"
       then and_then (dist self) BaseAbstractDistribution.base_shape
       else inl NotImplementedError.

Definition _shape (self : t) : result (list nat) :=
  if String.eqb (_type self) "value"
  then and_then (value self) (fun v => inr (Array.shape v))
  else if String.eqb (_type self) "dist"
       then and_then (dist self) BaseAbstractDistribution.shape
       else inl NotImplementedError.

Definition _dtype (self : t) : result dtype_t :=
  if String.eqb (_type self) "value"
  then and_then (value self) (fun v => inr (Array.dtype v))
  else if String.eqb (_type self) "dist"
       then and_then (dist self) BaseAbstractDistribution.dtype
       else inl NotImplementedError.

Definition _forward (self : t) (U : Array.t) : result Array.t :=
  if String.eqb (_type self) "value" then value self
  else if String.eqb (_type self) "dist"
       then and_then (dist self) (fun d => BaseAbstractDistribution.forward d U)
       else inl NotImplementedError.

Definition _inverse (self : t) (X : Array.t) : result Array.t :=
  if String.eqb (_type self) "value" then inr Array.empty
  else if String.eqb (_type self) "dist"
       then and_then (dist self) (fun d => BaseAbstractDistribution.inverse d X)
       else inl NotImplementedError.

Definition _log_prob (self : t) (X : Array.t) : result Array.t :=
  if String.eqb (_type self) "value" then inr Array.zero
  else if String.eqb (_type self) "dist"
       then and_then (dist self) (fun d => BaseAbstractDistribution.log_prob d X)
       else inl NotImplementedError.
End Prior.

(** What [prior_to_parametrised_singular] uses and this file does not define:
    the public [base_shape] and [forward] of the base class [BaseAbstractPrior],
    [hk.get_parameter] with a constant initialiser, and [jax.nn.sigmoid]. *)
Class Framework : Type := {
  base_shape : Prior.t -> result (list nat);
  forward : Prior.t -> Array.t -> result Array.t;
  get_parameter : string -> list nat -> dtype_t -> Array.t -> result Array.t;
  sigmoid : Array.t -> Array.t
}.

(** [f"{name}_param"]. *)
Definition param_name (name : option string) : string :=
  String.append (match name with Some n => n | None => "None" end) "_param".

Definition prior_to_parametrised_singular {FW : Framework} (prior : Prior.t)
  : result SingularPrior.t :=
  let name := param_name (Prior.name prior) in
  and_then (base_shape prior) (fun shape0 =>
  let init_value := Array.zeros shape0 in
  and_then (base_shape prior) (fun shape1 =>
  and_then (get_parameter name shape1 float_dtype init_value) (fun norm_U_base_param =>
  let U_base_param := sigmoid norm_U_base_param in
  and_then (forward prior U_base_param) (fun param =>
  and_then (Prior.dist prior) (fun d =>
  inr (SingularPrior.__init__ param d (Prior.name prior))))))).

Definition parametrised {FW : Framework} (self : Prior.t) : result SingularPrior.t :=
  if String.eqb (Prior._type self) "value"
  then inl (ValueError "Cannot parametrise a prior without distribution.")
  else prior_to_parametrised_singular self.

End Priors.

(** A standard normal distribution cut down to what a run needs, and a
    framework whose parameters are their initial values. *)
Module PriorExamples.
Import Priors.

Definition unit_interval : BaseAbstractDistribution.t := {|
  BaseAbstractDistribution.base_shape := inr [1%nat];
  BaseAbstractDistribution.shape := inr [1%nat];
  BaseAbstractDistribution.dtype := inr float_dtype;
  BaseAbstractDistribution.forward := fun U => inr U;
  BaseAbstractDistribution.inverse := fun X => inr X;
  BaseAbstractDistribution.log_prob := fun _ => inr Array.zero
|}.

Definition tfp : Tfp := {|
  tfp_distribution := unit;
  Distribution := fun _ => unit_interval
|}.

Definition framework : Framework := {|
  base_shape := Prior._base_shape;
  forward := Prior._forward;
  get_parameter := fun _ _ _ init => inr init;
  sigmoid := fun a =>
    {| Array.shape := Array.shape a; Array.dtype := Array.dtype a;
       Array.data := map (fun _ => Fin (1 # 2)) (Array.data a) |}
|}.

Definition prior : Prior.t :=
  Prior.__init__ (TFP := tfp) (Prior.a_distribution unit_interval) (Some "x"%string).

End PriorExamples.

(** ** Vocabulary of the properties *)

(** The states a [lax.while_loop] goes through when started in a state: the
    start, and every state reached by running the body while the condition
    holds. *)
Inductive visited {S : Type} (cond_fun : S -> bool) (body_fun : S -> M S) : S -> S -> Prop :=
| visited_start s : visited cond_fun body_fun s s
| visited_step s e s1 e1 s' :
    cond_fun s = true ->
    body_fun s e = Returns s1 e1 ->
    visited cond_fun body_fun s1 s' ->
    visited cond_fun body_fun s s'.

(** Sum of the evaluation counts of a list of samples. *)
Definition sum_evaluations (samples : list UniSlice.Sample) : Z :=
  fold_right (fun s acc => (UniSlice.num_likelihood_evaluations s + acc)%Z) 0%Z samples.

(** Number of attempts among the first [attempts] whose number exceeds
    [bound]. *)
Definition relaxations (bound : float_type) (attempts : nat) : nat :=
  List.length
    (filter (fun m => Fgt (Fin (inject_Z (Z.of_nat m))) bound) (seq 1 attempts)).

(** A bracket with finite ends around the origin, and a finite proposal. *)
Definition finite_bracket {RNG : JaxRandom} (carry : UniSlice.Carry) : Prop :=
  exists l r tau,
    UniSlice.c_left carry = Fin l /\ UniSlice.c_right carry = Fin r /\
    UniSlice.c_t carry = Fin tau /\ l <= 0 /\ 0 <= r.

(** Two samples at the same point, under the same constraint: equal up to the
    evaluation count. *)
Definition same_point (a b : UniSlice.Sample) : Prop :=
  UniSlice.U_sample a = UniSlice.U_sample b
  /\ UniSlice.log_L a = UniSlice.log_L b
  /\ UniSlice.log_L_constraint a = UniSlice.log_L_constraint b.

(** [s] is the outcome of a slice proposal of the sampler [self] seeded at
    [prev], and the proposal ended for one of the three reasons of the loop
    condition: above the constraint, on the plateau of the seed, or with a
    collapsed bracket. *)
Definition slice_step_outcome
  {RNG : JaxRandom} {model : BaseAbstractModel} {num : Numerics}
  (self : UniDimSliceSampler.t) (fuel : nat) (c : float_type)
  (prev s : UniSlice.Sample) : Prop :=
  exists key e carry e',
    UniSlice.final_carry
      {| UniSlice.U0 := UniSlice.U_sample prev; UniSlice.log_L0 := UniSlice.log_L prev |}
      (UniDimSliceSampler.midpoint_shrink self) c fuel key
      (UniDimSliceSampler.perfect self) (UniDimSliceSampler.gradient_slice self) e
    = Returns carry e'
    /\ UniSlice.U_sample s = UniSlice.c_point_U carry
    /\ UniSlice.log_L s = UniSlice.c_log_L carry
    /\ (Fgt (UniSlice.log_L s) c = true
        \/ (Feqb (UniSlice.log_L prev) c = true /\ Feqb (UniSlice.log_L s) c = true)
        \/ UniSlice.close_to_zero_interval carry = true).

(** The constraint after [k] relaxations of the rejection sampler, each a
    binary64 subtraction of [0.1]. *)
Definition relaxed (c : float_type) (k : nat) : float_type :=
  Nat.iter k (fun x => F64 (Fsub x tenth)) c.

(** The key carried by the rejection loop after [m] attempts is
    [attempt_key key0 (S m)]; the point its [m]-th attempt evaluates
    ([m >= 1]) is drawn with the second half of the split before. *)
Definition attempt_key {RNG : JaxRandom} (key0 : PRNGKey) (m : nat) : PRNGKey :=
  Nat.iter m (fun k => split_at k 2 0) key0.

Definition attempt_point
  {RNG : JaxRandom} {ell : MultiellipsoidalSampler.EllipsoidUnion}
  (preprocess_data : MultiellipsoidalSampler.MultEllipsoidState)
  (key0 : PRNGKey) (m : nat) : UType :=
  MultiellipsoidalSampler.sample_multi_ellipsoid
    (split_at (attempt_key key0 (m - 1)) 2 1) preprocess_data.

(** The [m]-th attempt is accepted: the likelihood of its point is above the
    constraint [c] relaxed once per attempt, up to this one, whose number
    exceeded [1 / efficiency_threshold]. *)
Definition accepts
  {RNG : JaxRandom} {model : BaseAbstractModel}
  {ell : MultiellipsoidalSampler.EllipsoidUnion}
  (self : MultiellipsoidalSampler.t)
  (preprocess_data : MultiellipsoidalSampler.MultEllipsoidState)
  (key0 : PRNGKey) (c : float_type) (m : nat) : bool :=
  Fgt (forward (attempt_point preprocess_data key0 m))
    (relaxed c
       (relaxations
          (MultiellipsoidalSampler.one_over
             (MultiellipsoidalSampler.efficiency_threshold self)) m)).

(** What holds of every state of the rejection loop started with the key
    [key0] and the constraint [c] after [e0] evaluations: the counter is the
    number of attempts made and of evaluations performed, the constraint
    carried is [c] relaxed once per attempt whose number exceeded the bound,
    no attempt before the last was accepted, and the state is marked done
    exactly when the last attempt was accepted, in which case it holds the
    point and the likelihood of that attempt. *)
Definition rejection_inv
  {RNG : JaxRandom} {model : BaseAbstractModel}
  {ell : MultiellipsoidalSampler.EllipsoidUnion}
  (self : MultiellipsoidalSampler.t)
  (preprocess_data : MultiellipsoidalSampler.MultEllipsoidState)
  (key0 : PRNGKey) (c : float_type) (e0 : nat)
  (s : MultiellipsoidalSampler.CarryState) (e : nat) : Prop :=
  exists attempts : nat,
    MultiellipsoidalSampler.num_likelihood_evals s = Z.of_nat attempts
    /\ e = (e0 + attempts)%nat
    /\ MultiellipsoidalSampler.key s = attempt_key key0 (S attempts)
    /\ MultiellipsoidalSampler.cs_log_L_constraint s
       = relaxed c
           (relaxations
              (MultiellipsoidalSampler.one_over
                 (MultiellipsoidalSampler.efficiency_threshold self)) attempts)
    /\ (forall m, (1 <= m < attempts)%nat ->
          accepts self preprocess_data key0 c m = false)
    /\ (MultiellipsoidalSampler.done s = false ->
        MultiellipsoidalSampler.U s = attempt_point preprocess_data key0 (S attempts)
        /\ ((1 <= attempts)%nat ->
            accepts self preprocess_data key0 c attempts = false))
    /\ (MultiellipsoidalSampler.done s = true ->
        (1 <= attempts)%nat
        /\ MultiellipsoidalSampler.U s = attempt_point preprocess_data key0 attempts
        /\ MultiellipsoidalSampler.cs_log_L s
           = forward (attempt_point preprocess_data key0 attempts)
        /\ accepts self preprocess_data key0 c attempts = true).

(** The bracket and proposal of a loop state of [_new_proposal] against the
    bracket of the initial state [c0]: finite, nested in it, around the
    origin, with the proposal inside. *)
Definition within_bracket {RNG : JaxRandom} (c0 carry : UniSlice.Carry) : Prop :=
  exists l0 r0 l r tau,
    UniSlice.c_left c0 = Fin l0 /\ UniSlice.c_right c0 = Fin r0
    /\ UniSlice.c_left carry = Fin l /\ UniSlice.c_right carry = Fin r
    /\ UniSlice.c_t carry = Fin tau
    /\ l0 <= l <= 0 /\ 0 <= r <= r0 /\ l <= tau <= r.

(** A loop state of [_new_proposal] is on the slice of the initial state [c0]:
    same direction, its point is the seed moved by [t] along the direction,
    and its likelihood is the model's at that point. *)
Definition on_slice {RNG : JaxRandom} {model : BaseAbstractModel}
  (seed : UniSlice.SeedPoint) (c0 carry : UniSlice.Carry) : Prop :=
  UniSlice.c_direction carry = UniSlice.c_direction c0
  /\ UniSlice.c_point_U carry
     = map2 (fun u d => Fadd u (Fmul (UniSlice.c_t carry) d))
         (UniSlice.U0 seed) (UniSlice.c_direction carry)
  /\ UniSlice.c_log_L carry = forward (UniSlice.c_point_U carry).

(** * Properties *)

(** ** Order on floating-point values *)
Lemma Fle_Fin p q : Fle (Fin p) (Fin q) = true <-> p <= q.
Proof.
  unfold Fle; cbn [Fcompare]. rewrite Qle_alt.
  destruct (p ?= q); split; intros; try congruence; try discriminate; exfalso; auto.
Qed.

Lemma Flt_Fin p q : Flt (Fin p) (Fin q) = true <-> p < q.
Proof.
  unfold Flt; cbn [Fcompare]. rewrite Qlt_alt.
  destruct (p ?= q); split; intros; try congruence; try discriminate.
Qed.

Lemma Fmin_nonneg a b :
  Fle Fzero a = true -> Fle Fzero b = true -> Fle Fzero (Fmin a b) = true.
Proof.
  intros Ha Hb.
  destruct a as [| |p|]; try discriminate Ha;
  destruct b as [| |q|]; try discriminate Hb;
  cbn [Fmin]; match goal with |- context [if ?c then _ else _] => destruct c end; assumption.
Qed.

Lemma Fmax_nonpos a b :
  Fle a Fzero = true -> Fle b Fzero = true -> Fle (Fmax a b) Fzero = true.
Proof.
  intros Ha Hb.
  destruct a as [| |p|]; try discriminate Ha;
  destruct b as [| |q|]; try discriminate Hb;
  cbn [Fmax]; match goal with |- context [if ?c then _ else _] => destruct c end; assumption.
Qed.

Lemma fold_left_Fmin_nonneg r : forall x,
  Fle Fzero x = true -> Forall (fun y => Fle Fzero y = true) r ->
  Fle Fzero (fold_left Fmin r x) = true.
Proof.
  induction r as [|y r IH]; intros x Hx Hr; cbn [fold_left]; [exact Hx|].
  inversion Hr; subst. apply IH; [apply Fmin_nonneg|]; assumption.
Qed.

Lemma fold_left_Fmax_nonpos r : forall x,
  Fle x Fzero = true -> Forall (fun y => Fle y Fzero = true) r ->
  Fle (fold_left Fmax r x) Fzero = true.
Proof.
  induction r as [|y r IH]; intros x Hx Hr; cbn [fold_left]; [exact Hx|].
  inversion Hr; subst. apply IH; [apply Fmax_nonpos|]; assumption.
Qed.

Lemma jnp_min_masked_nonneg ts m :
  jnp_min (map (fun x => if Fge x Fzero then x else PosInf) ts) = Some m ->
  Fle Fzero m = true.
Proof.
  assert (Hmask : forall x, Fle Fzero (if Fge x Fzero then x else PosInf) = true).
  { intros x. unfold Fge. destruct (Fle Fzero x) eqn:E; [exact E | reflexivity]. }
  destruct ts as [|x r]; cbn [map jnp_min]; [discriminate|].
  intros H; injection H as <-.
  apply fold_left_Fmin_nonneg; [apply Hmask|].
  apply Forall_forall. intros y Hy. apply in_map_iff in Hy as (z & <- & _). apply Hmask.
Qed.

Lemma jnp_max_masked_nonpos ts m :
  jnp_max (map (fun x => if Fle x Fzero then x else NegInf) ts) = Some m ->
  Fle m Fzero = true.
Proof.
  assert (Hmask : forall x, Fle (if Fle x Fzero then x else NegInf) Fzero = true).
  { intros x. destruct (Fle x Fzero) eqn:E; [exact E | reflexivity]. }
  destruct ts as [|x r]; cbn [map jnp_max]; [discriminate|].
  intros H; injection H as <-.
  apply fold_left_Fmax_nonpos; [apply Hmask|].
  apply Forall_forall. intros y Hy. apply in_map_iff in Hy as (z & <- & _). apply Hmask.
Qed.

Import UniSlice.

Lemma _slice_bounds_bracket point_U0 direction l r :
  _slice_bounds point_U0 direction = Some (l, r) ->
  Fle l Fzero = true /\ Fle Fzero r = true.
Proof.
  unfold _slice_bounds.
  repeat match goal with
         | |- match ?x with Some _ => _ | None => _ end = _ -> _ =>
             let E := fresh "E" in destruct x eqn:E; [|discriminate]
         end.
  intros H; injection H as <- <-.
  repeat match goal with
         | E : jnp_min _ = Some _ |- _ => apply jnp_min_masked_nonneg in E
         | E : jnp_max _ = Some _ |- _ => apply jnp_max_masked_nonpos in E
         end.
  split; [apply Fmax_nonpos | apply Fmin_nonneg]; assumption.
Qed.

(** The bracket of a point of the unit cube along a direction with a non-zero
    component has finite ends. *)

Lemma Flt_Fle a b : Flt a b = true -> Fle a b = true.
Proof. unfold Flt, Fle. destruct (Fcompare a b) as [[]|]; congruence. Qed.

Lemma Fmin_finite a b :
  Fle Fzero a = true -> Fle Fzero b = true ->
  isfinite a = true \/ isfinite b = true ->
  isfinite (Fmin a b) = true.
Proof.
  intros Ha Hb Hfin.
  destruct a as [| |p|]; try discriminate Ha;
  destruct b as [| |q|]; try discriminate Hb;
  cbn [Fmin]; try (destruct Hfin; discriminate);
  match goal with |- context [if ?c then _ else _] => destruct c eqn:E end;
  try reflexivity; discriminate E.
Qed.

Lemma Fmax_finite a b :
  Fle a Fzero = true -> Fle b Fzero = true ->
  isfinite a = true \/ isfinite b = true ->
  isfinite (Fmax a b) = true.
Proof.
  intros Ha Hb Hfin.
  destruct a as [| |p|]; try discriminate Ha;
  destruct b as [| |q|]; try discriminate Hb;
  cbn [Fmax]; try (destruct Hfin; discriminate);
  match goal with |- context [if ?c then _ else _] => destruct c eqn:E end;
  try reflexivity; discriminate E.
Qed.

Lemma fold_left_Fmin_finite r : forall x,
  Fle Fzero x = true -> Forall (fun y => Fle Fzero y = true) r ->
  isfinite x = true \/ Exists (fun y => isfinite y = true) r ->
  isfinite (fold_left Fmin r x) = true.
Proof.
  induction r as [|y r IH]; intros x Hx Hr Hfin; cbn [fold_left].
  - destruct Hfin as [H | H]; [exact H | inversion H].
  - inversion Hr; subst. apply IH; [apply Fmin_nonneg; assumption | assumption |].
    destruct Hfin as [H | H].
    + left. apply Fmin_finite; auto.
    + inversion H; subst; [left; apply Fmin_finite; auto | right; assumption].
Qed.

Lemma fold_left_Fmax_finite r : forall x,
  Fle x Fzero = true -> Forall (fun y => Fle y Fzero = true) r ->
  isfinite x = true \/ Exists (fun y => isfinite y = true) r ->
  isfinite (fold_left Fmax r x) = true.
Proof.
  induction r as [|y r IH]; intros x Hx Hr Hfin; cbn [fold_left].
  - destruct Hfin as [H | H]; [exact H | inversion H].
  - inversion Hr; subst. apply IH; [apply Fmax_nonpos; assumption | assumption |].
    destruct Hfin as [H | H].
    + left. apply Fmax_finite; auto.
    + inversion H; subst; [left; apply Fmax_finite; auto | right; assumption].
Qed.

Lemma jnp_min_masked_finite ts q :
  In (Fin q) ts -> 0 <= q ->
  exists m, jnp_min (map (fun x => if Fge x Fzero then x else PosInf) ts) = Some m
            /\ isfinite m = true.
Proof.
  set (mask := fun x => if Fge x Fzero then x else PosInf).
  intros Hin Hq.
  assert (Hmask : forall x, Fle Fzero (mask x) = true).
  { intros x. unfold mask, Fge. destruct (Fle Fzero x) eqn:E; [exact E | reflexivity]. }
  assert (Hq' : mask (Fin q) = Fin q).
  { unfold mask, Fge, Fzero. rewrite (proj2 (Fle_Fin 0 q) Hq). reflexivity. }
  destruct ts as [|x r]; [destruct Hin|]. cbn [map jnp_min].
  eexists. split; [reflexivity|].
  apply fold_left_Fmin_finite; [apply Hmask | |].
  - apply Forall_forall. intros y Hy. apply in_map_iff in Hy as (z & <- & _). apply Hmask.
  - destruct Hin as [-> | Hin].
    + left. rewrite Hq'. reflexivity.
    + right. apply Exists_exists. exists (Fin q). split; [|reflexivity].
      rewrite <- Hq'. apply in_map. exact Hin.
Qed.

Lemma jnp_max_masked_finite ts q :
  In (Fin q) ts -> q <= 0 ->
  exists m, jnp_max (map (fun x => if Fle x Fzero then x else NegInf) ts) = Some m
            /\ isfinite m = true.
Proof.
  set (mask := fun x => if Fle x Fzero then x else NegInf).
  intros Hin Hq.
  assert (Hmask : forall x, Fle (mask x) Fzero = true).
  { intros x. unfold mask. destruct (Fle x Fzero) eqn:E; [exact E | reflexivity]. }
  assert (Hq' : mask (Fin q) = Fin q).
  { unfold mask, Fzero. rewrite (proj2 (Fle_Fin q 0) Hq). reflexivity. }
  destruct ts as [|x r]; [destruct Hin|]. cbn [map jnp_max].
  eexists. split; [reflexivity|].
  apply fold_left_Fmax_finite; [apply Hmask | |].
  - apply Forall_forall. intros y Hy. apply in_map_iff in Hy as (z & <- & _). apply Hmask.
  - destruct Hin as [-> | Hin].
    + left. rewrite Hq'. reflexivity.
    + right. apply Exists_exists. exists (Fin q). split; [|reflexivity].
      rewrite <- Hq'. apply in_map. exact Hin.
Qed.

Lemma nth_error_map2 {A B C : Type} (f : A -> B -> C) :
  forall xs ys i x y,
    nth_error xs i = Some x -> nth_error ys i = Some y ->
    nth_error (map2 f xs ys) i = Some (f x y).
Proof.
  induction xs as [|a xs IH]; intros [|b ys] [|i] x y Hx Hy;
    cbn in *; try discriminate.
  - congruence.
  - apply IH; assumption.
Qed.

Lemma Fdiv_finite p d :
  ~ d == 0 -> exists x, Fdiv (Fin p) (Fin d) = Fin x /\ x * d == p.
Proof.
  intros Hd. cbn [Fdiv].
  destruct (d ?= 0) eqn:E; [apply Qeq_alt in E; contradiction | |];
    (eexists; split; [reflexivity|]; rewrite Qred_correct, Qmult_comm; apply Qmult_div_r, Hd).
Qed.

Lemma quotient_sign x d p :
  x * d == p -> 0 < d -> (0 <= p -> 0 <= x) /\ (p <= 0 -> x <= 0).
Proof.
  intros Hx Hd. split; intros Hp.
  - destruct (Qlt_le_dec x 0) as [Hneg | Hpos]; [|exact Hpos].
    pose proof (Qmult_lt_compat_r x 0 d Hd Hneg) as H. lra.
  - destruct (Qlt_le_dec 0 x) as [Hpos | Hneg]; [|exact Hneg].
    pose proof (Qmult_lt_compat_r 0 x d Hd Hpos) as H. lra.
Qed.

Lemma _slice_bounds_finite point_U0 direction i u d :
  nth_error point_U0 i = Some (Fin u) -> 0 <= u <= 1 ->
  nth_error direction i = Some (Fin d) -> ~ d == 0 ->
  exists l r, _slice_bounds point_U0 direction = Some (Fin l, Fin r).
Proof.
  intros Hu Hrange Hd Hd0.
  destruct (Fdiv_finite (Qred (1 + Qred (- u))) d Hd0) as (x1 & Hx1 & Hx1d).
  destruct (Fdiv_finite (Qred (- u)) d Hd0) as (x0 & Hx0 & Hx0d).
  rewrite !Qred_correct in Hx1d. rewrite !Qred_correct in Hx0d.
  assert (Hin1 : In (Fin x1) (map2 (fun u d => Fdiv (Fsub Fone u) d) point_U0 direction)).
  { eapply nth_error_In. rewrite (nth_error_map2 _ _ _ _ _ _ Hu Hd). f_equal. exact Hx1. }
  assert (Hin0 : In (Fin x0) (map2 (fun u d => Fdiv (Fopp u) d) point_U0 direction)).
  { eapply nth_error_In. rewrite (nth_error_map2 _ _ _ _ _ _ Hu Hd). f_equal. exact Hx0. }
  assert (Hsign : (0 <= x1 /\ x0 <= 0) \/ (x1 <= 0 /\ 0 <= x0)).
  { destruct (Qlt_le_dec 0 d) as [Hpos | Hneg].
    - left. split.
      + apply (quotient_sign x1 d (1 + - u)); [lra | assumption | lra].
      + apply (quotient_sign x0 d (- u)); [lra | assumption | lra].
    - right. assert (Hd' : 0 < - d) by (destruct (Qeq_dec d 0); [contradiction | lra]).
      split.
      + apply (quotient_sign x1 (- d) (- (1 + - u))); [lra | assumption | lra].
      + apply (quotient_sign x0 (- d) (- - u)); [lra | assumption | lra]. }
  assert (Hne1 : map2 (fun u d => Fdiv (Fsub Fone u) d) point_U0 direction <> [])
    by (intros E; rewrite E in Hin1; destruct Hin1).
  assert (Hne0 : map2 (fun u d => Fdiv (Fopp u) d) point_U0 direction <> [])
    by (intros E; rewrite E in Hin0; destruct Hin0).
  unfold _slice_bounds.
  destruct (jnp_min (map _ (map2 (fun u d => Fdiv (Fsub Fone u) d) point_U0 direction)))
    as [t1_right|] eqn:E1;
    [|destruct (map2 (fun u d => Fdiv (Fsub Fone u) d) point_U0 direction);
      [congruence | discriminate]].
  destruct (jnp_max (map _ (map2 (fun u d => Fdiv (Fsub Fone u) d) point_U0 direction)))
    as [t1_left|] eqn:E2;
    [|destruct (map2 (fun u d => Fdiv (Fsub Fone u) d) point_U0 direction);
      [congruence | discriminate]].
  destruct (jnp_min (map _ (map2 (fun u d => Fdiv (Fopp u) d) point_U0 direction)))
    as [t0_right|] eqn:E3;
    [|destruct (map2 (fun u d => Fdiv (Fopp u) d) point_U0 direction);
      [congruence | discriminate]].
  destruct (jnp_max (map _ (map2 (fun u d => Fdiv (Fopp u) d) point_U0 direction)))
    as [t0_left|] eqn:E4;
    [|destruct (map2 (fun u d => Fdiv (Fopp u) d) point_U0 direction);
      [congruence | discriminate]].
  pose proof (jnp_min_masked_nonneg _ _ E1) as N1.
  pose proof (jnp_max_masked_nonpos _ _ E2) as N2.
  pose proof (jnp_min_masked_nonneg _ _ E3) as N3.
  pose proof (jnp_max_masked_nonpos _ _ E4) as N4.
  assert (Hr : isfinite (Fmin t0_right t1_right) = true).
  { apply Fmin_finite; try assumption. destruct Hsign as [[H1 H0] | [H1 H0]].
    - right. destruct (jnp_min_masked_finite _ _ Hin1 H1) as (m & Hm & Hf). congruence.
    - left. destruct (jnp_min_masked_finite _ _ Hin0 H0) as (m & Hm & Hf). congruence. }
  assert (Hl : isfinite (Fmax t0_left t1_left) = true).
  { apply Fmax_finite; try assumption. destruct Hsign as [[H1 H0] | [H1 H0]].
    - left. destruct (jnp_max_masked_finite _ _ Hin0 H0) as (m & Hm & Hf). congruence.
    - right. destruct (jnp_max_masked_finite _ _ Hin1 H1) as (m & Hm & Hf). congruence. }
  destruct (Fmin t0_right t1_right); try discriminate.
  destruct (Fmax t0_left t1_left); try discriminate.
  eauto.
Qed.

(** ** The monad and the loop *)

Lemma bind_Returns {A B : Type} (m : M A) (f : A -> M B) e b e' :
  bind m f e = Returns b e' ->
  exists a e1, m e = Returns a e1 /\ f a e1 = Returns b e'.
Proof.
  unfold bind. destruct (m e) as [a e1| |]; try discriminate.
  intros H. exists a, e1. split; [reflexivity | exact H].
Qed.

Lemma ret_Returns {A : Type} (a b : A) e e' :
  ret a e = Returns b e' -> a = b /\ e = e'.
Proof. unfold ret. intros H; injection H as <- <-. split; reflexivity. Qed.

Lemma lift_option_Returns {A : Type} x (o : option A) a e e' :
  lift_option x o e = Returns a e' -> o = Some a /\ e = e'.
Proof.
  destruct o as [b|]; cbn [lift_option]; [|discriminate].
  intros H. apply ret_Returns in H as [-> ->]. split; reflexivity.
Qed.

(** Inversion of a run that returned: splits every bind of the hypothesis. *)
Ltac run_inv H :=
  repeat match type of H with
    | bind _ _ _ = Returns _ _ =>
        let a := fresh "a" in let e := fresh "e" in
        let H1 := fresh "Hrun" in
        apply bind_Returns in H as (a & e & H1 & H)
    | ret _ _ = Returns _ _ => apply ret_Returns in H
    end.

Section Loop.
Context {S : Type}.
Variable cond_fun : S -> bool.
Variable body_fun : S -> M S.

Lemma while_loop_inv (I : S -> nat -> Prop) :
  (forall s e s1 e1,
      I s e -> cond_fun s = true -> body_fun s e = Returns s1 e1 -> I s1 e1) ->
  forall fuel s e s' e',
    I s e ->
    while_loop fuel cond_fun body_fun s e = Returns s' e' ->
    I s' e' /\ cond_fun s' = false.
Proof.
  intros Hstep. induction fuel as [|fuel IH]; intros s e s' e' Hs Hrun;
    cbn [while_loop] in Hrun; destruct (cond_fun s) eqn:Hc.
  - discriminate.
  - apply ret_Returns in Hrun as [<- <-]. auto.
  - apply bind_Returns in Hrun as (s1 & e1 & Hb & Hrun).
    eapply IH; [|exact Hrun]. eapply Hstep; eassumption.
  - apply ret_Returns in Hrun as [<- <-]. auto.
Qed.

(** The state a loop returns is one of the states it went through. *)
Lemma while_loop_visited fuel : forall s e s' e',
  while_loop fuel cond_fun body_fun s e = Returns s' e' ->
  visited cond_fun body_fun s s'.
Proof.
  induction fuel as [|fuel IH]; intros s e s' e' Hrun;
    cbn [while_loop] in Hrun; destruct (cond_fun s) eqn:Hc.
  - discriminate.
  - apply ret_Returns in Hrun as [<- _]. constructor.
  - apply bind_Returns in Hrun as (s1 & e1 & Hb & Hrun).
    eapply visited_step; eauto.
  - apply ret_Returns in Hrun as [<- _]. constructor.
Qed.

Lemma visited_inv (P : S -> Prop) :
  (forall s e s1 e1, P s -> cond_fun s = true -> body_fun s e = Returns s1 e1 -> P s1) ->
  forall s s', visited cond_fun body_fun s s' -> P s -> P s'.
Proof.
  intros Hstep s s' Hv. induction Hv as [s | s e s1 e1 s' Hc Hb Hv IH]; intros Hs.
  - exact Hs.
  - apply IH. eapply Hstep; eassumption.
Qed.

End Loop.

(** ** The slice bracket *)

Section Bracket.
Context {RNG : JaxRandom} {model : BaseAbstractModel} {num : Numerics}.

Lemma _shrink_interval_bracket key q l r lp c l0 ms l' r' :
  Fle l Fzero = true -> Fle Fzero r = true ->
  _shrink_interval key (Fin q) l r lp c l0 ms = (l', r') ->
  Fle l' Fzero = true /\ Fle Fzero r' = true.
Proof.
  intros Hl Hr. unfold _shrink_interval, Fgt.
  destruct (uniform01_range key) as [Ha _].
  destruct (Flt (Fin q) Fzero) eqn:Hneg, (Flt Fzero (Fin q)) eqn:Hpos.
  - apply Flt_Fin in Hneg, Hpos. lra.
  - apply Flt_Fin in Hneg.
    destruct ms; intros H; apply pair_equal_spec in H as [<- <-]; split; try exact Hr.
    + cbn [Fmul]. unfold Fzero. rewrite Fle_Fin, Qred_correct. nra.
    + apply Fle_Fin. lra.
  - apply Flt_Fin in Hpos.
    destruct ms; intros H; apply pair_equal_spec in H as [<- <-]; split; try exact Hl.
    + cbn [Fmul]. unfold Fzero. rewrite Fle_Fin, Qred_correct. nra.
    + apply Fle_Fin. lra.
  - destruct ms; intros H; apply pair_equal_spec in H as [<- <-]; split; assumption.
Qed.

Lemma _shrink_interval_finite key tau l r lp c l0 ms :
  l <= 0 -> 0 <= r ->
  exists l' r',
    _shrink_interval key (Fin tau) (Fin l) (Fin r) lp c l0 ms = (Fin l', Fin r')
    /\ l' <= 0 /\ 0 <= r'.
Proof.
  intros Hl Hr.
  destruct (_shrink_interval key (Fin tau) (Fin l) (Fin r) lp c l0 ms) as [l' r'] eqn:E.
  pose proof E as Hb.
  apply _shrink_interval_bracket in Hb; [|apply Fle_Fin; assumption ..].
  destruct Hb as [Hl' Hr'].
  unfold _shrink_interval, Fgt in E.
  assert (exists a b, l' = Fin a /\ r' = Fin b) as (a & b & -> & ->).
  { destruct (Flt (Fin tau) Fzero), (Flt Fzero (Fin tau)), ms;
      injection E as <- <-; cbn [Fmul]; eauto. }
  exists a, b. split; [reflexivity|]. split; apply Fle_Fin; assumption.
Qed.

Lemma random_uniform_finite key l r :
  exists tau, random_uniform key (Fin l) (Fin r) = Fin tau.
Proof.
  unfold random_uniform, Fsub. cbn [Fopp Fadd Fmul Fmax].
  match goal with |- context [if ?b then _ else _] => destruct b end; eauto.
Qed.

Lemma body_finite_bracket seed ms c carry e carry' e' :
  finite_bracket carry ->
  body seed ms c carry e = Returns carry' e' ->
  finite_bracket carry'.
Proof.
  intros (l & r & tau & Hl & Hr & Ht & Hl0 & Hr0). unfold body.
  rewrite Hl, Hr, Ht.
  destruct (_shrink_interval_finite (split_at (c_key carry) 3 2) tau l r
              (c_log_L carry) c (log_L0 seed) ms Hl0 Hr0)
    as (l' & r' & -> & Hl' & Hr').
  unfold _pick_point_in_interval.
  destruct (random_uniform_finite (split_at (c_key carry) 3 1) l' r') as (tau' & ->).
  intros Hrun. run_inv Hrun. destruct Hrun as [<- _].
  exists l', r', tau'. cbn. auto.
Qed.

Lemma init_carry_bracket seed key pf gs e c0 e0 :
  init_carry seed key pf gs e = Returns c0 e0 ->
  Fle (c_left c0) Fzero = true /\ Fle Fzero (c_right c0) = true
  /\ c_t c0 = random_uniform (split_at key 3 2) (c_left c0) (c_right c0).
Proof.
  unfold init_carry. intros Hrun.
  apply bind_Returns in Hrun as ([[[d n] l] r] & e1 & Hdir & Hrun).
  unfold _pick_point_in_interval in Hrun. run_inv Hrun. destruct Hrun as [<- _].
  cbn [c_left c_right c_t].
  enough (Fle l Fzero = true /\ Fle Fzero r = true) by intuition.
  destruct gs.
  - apply bind_Returns in Hdir as (g & eg & _ & Hdir). cbv zeta in Hdir.
    apply bind_Returns in Hdir as ([l1 r1] & eb & Hb & Hdir).
    apply lift_option_Returns in Hb as [Hb _].
    apply ret_Returns in Hdir as [Hdir _].
    injection Hdir as _ _ <- <-.
    apply _slice_bounds_bracket in Hb. split; [reflexivity | apply Hb].
  - destruct pf; [|discriminate].
    apply bind_Returns in Hdir as ([l1 r1] & eb & Hb & Hdir).
    apply lift_option_Returns in Hb as [Hb _].
    apply ret_Returns in Hdir as [Hdir _].
    injection Hdir as _ _ <- <-.
    apply _slice_bounds_bracket in Hb. exact Hb.
Qed.

Lemma init_carry_finite_bracket seed key pf gs e c0 e0 :
  init_carry seed key pf gs e = Returns c0 e0 ->
  isfinite (c_left c0) = true -> isfinite (c_right c0) = true ->
  finite_bracket c0.
Proof.
  intros Hrun Hfl Hfr.
  apply init_carry_bracket in Hrun as (Hl & Hr & Ht).
  destruct (c_left c0) as [| |l|] eqn:El; try discriminate.
  destruct (c_right c0) as [| |r|] eqn:Er; try discriminate.
  destruct (random_uniform_finite (split_at key 3 2) l r) as (tau & Htau).
  exists l, r, tau. rewrite Ht, Htau.
  apply Fle_Fin in Hl, Hr. auto.
Qed.

(** Without [midpoint_shrink] the loop body keeps the bracket around the
    origin whatever the rejected point is. *)
Lemma body_bracket_plain seed c carry e carry' e' :
  Fle (c_left carry) Fzero = true /\ Fle Fzero (c_right carry) = true ->
  body seed false c carry e = Returns carry' e' ->
  Fle (c_left carry') Fzero = true /\ Fle Fzero (c_right carry') = true.
Proof.
  intros [Hl Hr]. unfold body, _shrink_interval, _pick_point_in_interval, Fgt.
  intros Hrun. apply bind_Returns in Hrun as (lL & e1 & _ & Hrun).
  apply ret_Returns in Hrun as [<- _]. cbn [c_left c_right].
  split.
  - destruct (Flt (c_t carry) Fzero) eqn:E; [apply Flt_Fle, E | exact Hl].
  - destruct (Flt Fzero (c_t carry)) eqn:E; [apply Flt_Fle, E | exact Hr].
Qed.

(** The state returned by the loop of [_new_proposal] is among the states
    gone through from the initial one. *)
Lemma final_carry_visited seed ms c fuel key pf gs e carry e' :
  final_carry seed ms c fuel key pf gs e = Returns carry e' ->
  exists c0 e0,
    init_carry seed key pf gs e = Returns c0 e0
    /\ visited (cond seed c) (body seed ms c) c0 carry.
Proof.
  unfold final_carry. intros Hrun.
  apply bind_Returns in Hrun as (c0 & e0 & Hinit & Hloop).
  exists c0, e0. split; [exact Hinit|].
  eapply while_loop_visited, Hloop.
Qed.

Lemma finite_bracket_order carry :
  finite_bracket carry ->
  Fle (c_left carry) Fzero = true /\ Fle Fzero (c_right carry) = true.
Proof.
  intros (l & r & tau & -> & -> & _ & Hl & Hr). split; apply Fle_Fin; assumption.
Qed.
End Bracket.

(** C5 -- slice bracket invariant.  The bracket of a slice proposal satisfies
    [left <= 0 <= right]:
    (1) the bounds computed by [_slice_bounds] satisfy it, for every point
        (inside the unit cube or not) and every direction;
    (2) [_shrink_interval] preserves it for every rejected point [t], with and
        without [midpoint_shrink] (the shrink factor [uniform01 key] lies in
        [[0, 1)]); the position of [t] inside the bracket is not needed;
    (3) hence every state that the loop of [_new_proposal] goes through
        satisfies it, without [midpoint_shrink] always, and with
        [midpoint_shrink] from an initial bracket with finite ends;
    (4) the ends are finite for a point whose coordinate along some non-zero
        component of the direction lies in [[0, 1]]. *)
Theorem slice_bracket_invariant
  {RNG : JaxRandom} {model : BaseAbstractModel} {num : Numerics} :
  (forall point_U0 direction l r,
      _slice_bounds point_U0 direction = Some (l, r) ->
      Fle l Fzero = true /\ Fle Fzero r = true)
  /\
  (forall key q l r log_L_proposal log_L_constraint log_L0 midpoint_shrink,
      Fle l Fzero = true -> Fle Fzero r = true ->
      let shrunk :=
        _shrink_interval key (Fin q) l r log_L_proposal log_L_constraint log_L0
          midpoint_shrink in
      Fle (fst shrunk) Fzero = true /\ Fle Fzero (snd shrunk) = true)
  /\
  (forall seed_point midpoint_shrink log_L_constraint key perfect gradient_slice
          e c0 e0 carry,
      init_carry seed_point key perfect gradient_slice e = Returns c0 e0 ->
      midpoint_shrink = false
      \/ (isfinite (c_left c0) = true /\ isfinite (c_right c0) = true) ->
      visited (cond seed_point log_L_constraint)
              (body seed_point midpoint_shrink log_L_constraint) c0 carry ->
      Fle (c_left carry) Fzero = true /\ Fle Fzero (c_right carry) = true)
  /\
  (forall point_U0 direction i u d,
      nth_error point_U0 i = Some (Fin u) -> 0 <= u <= 1 ->
      nth_error direction i = Some (Fin d) -> ~ d == 0 ->
      exists l r, _slice_bounds point_U0 direction = Some (Fin l, Fin r)).
Proof.
  split; [|split; [|split]].
  - intros. eapply _slice_bounds_bracket; eassumption.
  - intros key q l r lp c l0 ms Hl Hr shrunk.
    destruct shrunk as [l' r'] eqn:E. cbn [fst snd].
    eapply _shrink_interval_bracket; eassumption.
  - intros seed ms c key pf gs e c0 e0 carry Hinit [-> | [Hfl Hfr]] Hv.
    + apply (visited_inv (cond seed c) (body seed false c)
               (fun s => Fle (c_left s) Fzero = true /\ Fle Fzero (c_right s) = true))
        with (s := c0); [|exact Hv|].
      * intros s e1 s1 e2 Hs _ Hb. eapply body_bracket_plain; eassumption.
      * apply init_carry_bracket in Hinit as (Hl & Hr & _). auto.
    + apply finite_bracket_order.
      eapply visited_inv; [|exact Hv|].
      * intros s e1 s1 e2 Hs _ Hb. eapply body_finite_bracket; eassumption.
      * eapply init_carry_finite_bracket; eassumption.
  - intros. eapply _slice_bounds_finite; eassumption.
Qed.

Lemma slice_bracket_invariant_witness :
  (Fle (Fin (-1 # 4)) Fzero = true /\ Fle Fzero (Fin (3 # 4)) = true)
  /\
  (Fle (fst (_shrink_interval (RNG := Example.rng) 5%N (Fin (1 # 4))
               (Fin (-1 # 4)) (Fin (3 # 4)) (Fin 0) (Fin (1 # 2)) (Fin 1) true))
       Fzero = true
   /\ Fle Fzero
        (snd (_shrink_interval (RNG := Example.rng) 5%N (Fin (1 # 4))
                (Fin (-1 # 4)) (Fin (3 # 4)) (Fin 0) (Fin (1 # 2)) (Fin 1) true))
      = true)
  /\
  (Fle (Fin (-1 # 16)) Fzero = true /\ Fle Fzero (Fin (3 # 4)) = true)
  /\
  (exists l r, _slice_bounds [Fin (1 # 4)] [Fone] = Some (Fin l, Fin r)).
Proof.
  destruct (@slice_bracket_invariant Example.rng Example.spike_model Example.float64)
    as (H1 & H2 & H3 & H4).
  split; [|split; [|split]]; [| | |apply (H4 _ _ 0%nat (1 # 4) 1);
                                    [reflexivity | split; discriminate
                                    | reflexivity | discriminate]].
  - apply (H1 [Fin (1 # 4)] [Fone]). vm_compute. reflexivity.
  - apply H2; vm_compute; reflexivity.
  - pose (seed := {| U0 := [Fin (1 # 4)]; log_L0 := Fin 1 |}).
    pose (c0 := @Build_Carry Example.rng 22%N [Fone] (Fin (-1 # 4)) (Fin (3 # 4))
                  (Fin (-1 # 4)) [Fin 0] (Fin 0) 0%Z).
    pose (c1 := @Build_Carry Example.rng 67%N [Fone] (Fin (-1 # 16)) (Fin (3 # 4))
                  (Fin (-1 # 16)) [Fin (3 # 16)] (Fin 0) 1%Z).
    apply (H3 seed true (Fin (1 # 2)) 7%N true false 0%nat c0 1%nat c1).
    + vm_compute. reflexivity.
    + right. split; reflexivity.
    + apply (visited_step _ _ c0 1%nat c1 2%nat c1).
      * vm_compute. reflexivity.
      * vm_compute. reflexivity.
      * apply visited_start.
Defined.

(** ** Construction and post-processing *)

Import UniDimSliceSampler.

(** C6 -- configuration errors.  Constructing a [UniDimSliceSampler] raises
    exactly when [num_slices < 1], [num_phantom_save < 0],
    [num_phantom_save >= num_slices] or the bracket mode is not "perfect";
    for every other configuration the construction returns the sampler with
    the given attributes. *)
Theorem init_raises_iff_invalid
  (n p : Z) (midpoint perfect_mode gradient : bool) :
  ((exists e, __init__ n p midpoint perfect_mode gradient = inl e)
   <-> (n < 1 \/ p < 0 \/ p >= n \/ perfect_mode = false)%Z)
  /\
  (~ (n < 1 \/ p < 0 \/ p >= n \/ perfect_mode = false)%Z
   <-> __init__ n p midpoint perfect_mode gradient
       = inr {| num_slices := n; num_phantom_save := p;
                midpoint_shrink := midpoint; perfect := perfect_mode;
                gradient_slice := gradient |}).
Proof.
  unfold __init__.
  destruct (Z.ltb_spec n 1); [split; split; intros; try (eexists; reflexivity);
                              try discriminate; lia|].
  destruct (Z.ltb_spec p 0); [split; split; intros; try (eexists; reflexivity);
                              try discriminate; lia|].
  destruct (Z.geb_spec p n); [split; split; intros; try (eexists; reflexivity);
                              try discriminate; lia|].
  destruct perfect_mode; cbn [negb].
  - split; split.
    + intros [e He]. discriminate.
    + intros [?|[?|[?|?]]]; try lia; discriminate.
    + reflexivity.
    + intros _ [?|[?|[?|?]]]; try lia; discriminate.
  - split; split; intros; try (eexists; reflexivity); try discriminate; tauto.
Qed.

(** A constructed sampler has a valid configuration. *)
Lemma init_valid n p midpoint perfect_mode gradient self :
  __init__ n p midpoint perfect_mode gradient = inr self ->
  (1 <= num_slices self /\ 0 <= num_phantom_save self
   /\ num_phantom_save self < num_slices self)%Z
  /\ perfect self = true.
Proof.
  unfold __init__.
  destruct (Z.ltb_spec n 1); [discriminate|].
  destruct (Z.ltb_spec p 0); [discriminate|].
  destruct (Z.geb_spec p n); [discriminate|].
  destruct perfect_mode; cbn [negb]; [|discriminate].
  intros Hself; injection Hself as <-. cbn. repeat split; lia.
Qed.

(** C10 -- post-processing leaves the sampler state alone: whatever the
    [perfect] flag and the state passed in, [post_process] returns the
    one-element tuple holding exactly the sample collection it was given. *)
Theorem post_process_returns_collection
  {StaticStandardSampleCollection : Type} (self : UniDimSliceSampler.t)
  (sample_collection : StaticStandardSampleCollection)
  (sampler_state : SamplerState StaticStandardSampleCollection) :
  post_process self sample_collection sampler_state = tuple1 sample_collection.
Proof. unfold post_process. destruct (perfect self); reflexivity. Qed.

(** C9 -- the shrink step ignores the likelihood values: two calls of
    [_shrink_interval] that agree on the key, the rejected point, the bracket
    and [midpoint_shrink] return the same bounds, whatever the three
    likelihood-valued arguments are; in particular the bounds are unchanged
    when the likelihoods are relabelled by any function. *)
Theorem shrink_ignores_likelihood {RNG : JaxRandom}
  (key : PRNGKey) (t l r : float_type) (midpoint : bool)
  (log_L_proposal log_L_constraint log_L0 : float_type)
  (log_L_proposal' log_L_constraint' log_L0' : float_type) :
  _shrink_interval key t l r log_L_proposal log_L_constraint log_L0 midpoint
  = _shrink_interval key t l r log_L_proposal' log_L_constraint' log_L0' midpoint.
Proof. reflexivity. Qed.

(** ** The cumulative scan and the slice of retained samples *)

Lemma last_cons {A : Type} (l : list A) : forall a d, last (a :: l) d = last l a.
Proof.
  induction l as [|b l IH]; intros a d; [reflexivity|].
  change (last (a :: b :: l) d) with (last (b :: l) d).
  rewrite (IH b d), (IH b a). reflexivity.
Qed.

Lemma cumulative_op_static_spec {V X : Type} (op : V -> X -> M V) :
  forall xs init e final out e',
    cumulative_op_static op init xs e = Returns (final, out) e' ->
    List.length out = List.length xs
    /\ final = last out init
    /\ forall i s,
        nth_error out i = Some s ->
        exists x e1 e2,
          nth_error xs i = Some x
          /\ op (nth i (init :: out) init) x e1 = Returns s e2.
Proof.
  induction xs as [|x xs IH]; intros init e final out e' Hrun;
    cbn [cumulative_op_static] in Hrun.
  - apply ret_Returns in Hrun as [Hrun _]. injection Hrun as <- <-.
    repeat split. intros [|i] s H; discriminate.
  - apply bind_Returns in Hrun as (v & e1 & Hop & Hrun).
    apply bind_Returns in Hrun as ([final' out'] & e2 & Hrest & Hrun).
    apply ret_Returns in Hrun as [Hrun _]. injection Hrun as <- <-.
    apply IH in Hrest as (Hlen & Hlast & Hsteps).
    split; [cbn [List.length]; congruence|].
    split.
    + rewrite Hlast, last_cons. reflexivity.
    + intros [|i] s Hs.
      * cbn in Hs. injection Hs as <-. exists x, e, e1. split; [reflexivity | exact Hop].
      * cbn [nth_error] in Hs.
        assert (Hi : (i < List.length out')%nat)
          by (apply nth_error_Some; congruence).
        apply Hsteps in Hs as (y & ea & eb & Hy & Hstep).
        exists y, ea, eb. split; [exact Hy|].
        destruct i as [|i]; cbn [nth] in Hstep |- *; [exact Hstep|].
        rewrite (nth_indep out' init v) by lia. exact Hstep.
Qed.

(** The slice [xs[-(p+1):-1]] of a list of [n > p >= 0] elements: its [p]
    elements are those at the positions [n-p-1], ..., [n-2]. *)
Lemma py_slice_retained {A : Type} (xs : list A) (p : Z) :
  (0 <= p < Z.of_nat (List.length xs))%Z ->
  py_slice xs (- (p + 1)) (-1)
  = firstn (Z.to_nat p) (skipn (List.length xs - 1 - Z.to_nat p) xs).
Proof.
  intros Hp. unfold py_slice, py_clip.
  destruct (Z.ltb_spec (- (p + 1)) 0); [|lia].
  destruct (Z.ltb_spec (-1) 0); [|lia].
  f_equal; [|f_equal]; lia.
Qed.

Lemma py_slice_length {A : Type} (xs : list A) (p : Z) :
  (0 <= p < Z.of_nat (List.length xs))%Z ->
  List.length (py_slice xs (- (p + 1)) (-1)) = Z.to_nat p.
Proof.
  intros Hp. rewrite py_slice_retained by exact Hp.
  rewrite length_firstn, length_skipn. lia.
Qed.

Lemma py_slice_nth_error {A : Type} (xs : list A) (p : Z) (j : nat) :
  (0 <= p < Z.of_nat (List.length xs))%Z ->
  (j < Z.to_nat p)%nat ->
  nth_error (py_slice xs (- (p + 1)) (-1)) j
  = nth_error xs (List.length xs - 1 - Z.to_nat p + j).
Proof.
  intros Hp Hj. rewrite py_slice_retained by exact Hp.
  rewrite nth_error_firstn, nth_error_skipn.
  destruct (Nat.ltb_spec j (Z.to_nat p)); [reflexivity | lia].
Qed.

(** ** One slice proposal *)

Section ProposalFacts.
Context {RNG : JaxRandom} {model : BaseAbstractModel} {num : Numerics}.

(** The counter of a proposal against the evaluations it performs: the
    counter misses exactly one evaluation, the first proposal's. *)
Lemma init_carry_counts seed key pf gs e c0 e0 :
  init_carry seed key pf gs e = Returns c0 e0 ->
  Z.of_nat e0 = (Z.of_nat e + c_num_likelihood_evaluations c0 + 1)%Z
  /\ (0 <= c_num_likelihood_evaluations c0)%Z.
Proof.
  unfold init_carry. intros Hrun.
  apply bind_Returns in Hrun as ([[[d n] l] r] & e1 & Hdir & Hrun).
  unfold _pick_point_in_interval in Hrun.
  apply bind_Returns in Hrun as (lL & e2 & Hfw & Hrun).
  apply ret_Returns in Hrun as [<- <-]. cbn [c_num_likelihood_evaluations].
  unfold model_forward in Hfw. injection Hfw as _ <-.
  destruct gs.
  - apply bind_Returns in Hdir as (g & eg & Hg & Hdir). cbv zeta in Hdir.
    apply bind_Returns in Hdir as ([l1 r1] & eb & Hb & Hdir).
    apply lift_option_Returns in Hb as [_ <-].
    apply ret_Returns in Hdir as [Hdir <-].
    unfold model_grad in Hg. injection Hg as _ <-.
    injection Hdir as _ <- _ _. lia.
  - destruct pf; [|discriminate].
    apply bind_Returns in Hdir as ([l1 r1] & eb & Hb & Hdir).
    apply lift_option_Returns in Hb as [_ <-].
    apply ret_Returns in Hdir as [Hdir <-].
    injection Hdir as _ <- _ _. lia.
Qed.

Lemma body_counts seed ms c carry e carry' e' :
  body seed ms c carry e = Returns carry' e' ->
  e' = S e
  /\ c_num_likelihood_evaluations carry'
     = (c_num_likelihood_evaluations carry + 1)%Z.
Proof.
  unfold body.
  destruct (_shrink_interval _ _ _ _ _ _ _ _) as [l r].
  destruct (_pick_point_in_interval _ _ _ _ _) as [pU t].
  intros Hrun. apply bind_Returns in Hrun as (lL & e1 & Hfw & Hrun).
  apply ret_Returns in Hrun as [<- <-].
  unfold model_forward in Hfw. injection Hfw as _ <-. split; reflexivity.
Qed.

Lemma final_carry_counts seed ms c fuel key pf gs e carry e' :
  final_carry seed ms c fuel key pf gs e = Returns carry e' ->
  Z.of_nat e' = (Z.of_nat e + c_num_likelihood_evaluations carry + 1)%Z
  /\ (0 <= c_num_likelihood_evaluations carry)%Z.
Proof.
  unfold final_carry. intros Hrun.
  apply bind_Returns in Hrun as (c0 & e0 & Hinit & Hloop).
  apply init_carry_counts in Hinit.
  eapply (while_loop_inv _ _
            (fun s n => Z.of_nat n = (Z.of_nat e + c_num_likelihood_evaluations s + 1)%Z
                        /\ (0 <= c_num_likelihood_evaluations s)%Z))
    in Hloop as [H _]; [exact H | | exact Hinit].
  intros s n s1 n1 [Hn Hpos] _ Hb. apply body_counts in Hb as [-> ->]. lia.
Qed.

(** When the loop of a proposal ends, the proposal is above the constraint,
    or on the plateau of the seed, or the bracket has collapsed. *)
Lemma final_carry_done seed ms c fuel key pf gs e carry e' :
  final_carry seed ms c fuel key pf gs e = Returns carry e' ->
  Fgt (c_log_L carry) c = true
  \/ (Feqb (log_L0 seed) c = true /\ Feqb (c_log_L carry) c = true)
  \/ close_to_zero_interval carry = true.
Proof.
  unfold final_carry. intros Hrun.
  apply bind_Returns in Hrun as (c0 & e0 & _ & Hloop).
  eapply (while_loop_inv _ _ (fun _ _ => True)) in Hloop as [_ Hc]; [|auto|exact I].
  unfold cond in Hc. apply negb_false_iff in Hc.
  apply orb_true_iff in Hc as [Hc | Hc];
    [apply orb_true_iff in Hc as [Hc | Hc] | apply andb_true_iff in Hc]; auto.
Qed.

Lemma propose_op_inv self fuel c sample key e s e' :
  propose_op self fuel c sample key e = Returns s e' ->
  exists carry,
    final_carry {| U0 := U_sample sample; log_L0 := log_L sample |}
      (midpoint_shrink self) c fuel key (perfect self) (gradient_slice self) e
    = Returns carry e'
    /\ s = {| U_sample := c_point_U carry;
              log_L_constraint := c;
              log_L := c_log_L carry;
              num_likelihood_evaluations :=
                (c_num_likelihood_evaluations carry
                 + num_likelihood_evaluations sample)%Z |}.
Proof.
  unfold propose_op, _new_proposal. intros Hrun.
  apply bind_Returns in Hrun as ([[pU lL] n] & e1 & Hnew & Hrun).
  apply ret_Returns in Hrun as [<- <-].
  apply bind_Returns in Hnew as (carry & e2 & Hfin & Hnew).
  apply ret_Returns in Hnew as [Hnew <-]. injection Hnew as <- <- <-.
  exists carry. split; [exact Hfin | reflexivity].
Qed.

Lemma propose_op_counts self fuel c sample key e s e' :
  propose_op self fuel c sample key e = Returns s e' ->
  (Z.of_nat e' - num_likelihood_evaluations s
   = Z.of_nat e - num_likelihood_evaluations sample + 1)%Z
  /\ (num_likelihood_evaluations sample <= num_likelihood_evaluations s)%Z.
Proof.
  intros Hrun. apply propose_op_inv in Hrun as (carry & Hfin & ->).
  apply final_carry_counts in Hfin. cbn [num_likelihood_evaluations]. lia.
Qed.

(** The scan of [get_sample_from_seed]: its counter misses one evaluation
    per slice, and never decreases. *)
Lemma scan_counts self fuel c : forall keys init e final out e',
  cumulative_op_static (propose_op self fuel c) init keys e = Returns (final, out) e' ->
  (Z.of_nat e' - num_likelihood_evaluations final
   = Z.of_nat e - num_likelihood_evaluations init + Z.of_nat (List.length keys))%Z
  /\ (num_likelihood_evaluations init <= num_likelihood_evaluations final)%Z.
Proof.
  induction keys as [|k keys IH]; intros init e final out e' Hrun;
    cbn [cumulative_op_static] in Hrun.
  - apply ret_Returns in Hrun as [Hrun <-]. injection Hrun as <- _.
    cbn [List.length]. lia.
  - apply bind_Returns in Hrun as (v & e1 & Hop & Hrun).
    apply bind_Returns in Hrun as ([final' out'] & e2 & Hrest & Hrun).
    apply ret_Returns in Hrun as [Hrun <-]. injection Hrun as <- _.
    apply propose_op_counts in Hop. apply IH in Hrest.
    cbn [List.length]. lia.
Qed.
End ProposalFacts.

(** ** [get_sample_from_seed] *)

Section GetSampleFacts.
Context {RNG : JaxRandom} {model : BaseAbstractModel} {num : Numerics}.
Context {StaticStandardSampleCollection : Type}.

Lemma get_sample_from_seed_inv self fuel key seed c
  (st : SamplerState StaticStandardSampleCollection) e final phantoms e' :
  get_sample_from_seed self fuel key seed c st e = Returns (final, phantoms) e' ->
  exists fs cum,
    chain self fuel key seed c e = Returns (fs, cum) e'
    /\ final = replace_num_likelihood_evaluations fs
                 (per_accepted_sample self (num_likelihood_evaluations fs))
    /\ phantoms
       = map (fun s => replace_num_likelihood_evaluations s
                         (per_phantom_sample self (num_likelihood_evaluations fs)))
           (py_slice cum (- (num_phantom_save self + 1)) (-1)).
Proof.
  unfold get_sample_from_seed. intros Hrun.
  apply bind_Returns in Hrun as ([fs cum] & e1 & Hchain & Hrun).
  apply ret_Returns in Hrun as [Hrun <-]. injection Hrun as <- <-.
  exists fs, cum. auto.
Qed.

Lemma chain_length self fuel key seed c e fs cum e' :
  chain self fuel key seed c e = Returns (fs, cum) e' ->
  List.length cum = Z.to_nat (num_slices self).
Proof.
  unfold chain. intros Hrun.
  apply cumulative_op_static_spec in Hrun as (Hlen & _).
  rewrite Hlen. unfold random_split. rewrite length_map, length_seq. reflexivity.
Qed.

Lemma chain_counts self fuel key seed c e fs cum e' :
  chain self fuel key seed c e = Returns (fs, cum) e' ->
  (Z.of_nat e' - Z.of_nat e
   = num_likelihood_evaluations fs + Z.of_nat (Z.to_nat (num_slices self)))%Z
  /\ (0 <= num_likelihood_evaluations fs)%Z.
Proof.
  unfold chain. intros Hrun. apply scan_counts in Hrun.
  unfold random_split in Hrun. rewrite length_map, length_seq in Hrun.
  cbn [init_sample num_likelihood_evaluations] in Hrun. lia.
Qed.

Lemma sum_evaluations_replaced (l : list Sample) (k : Z) :
  sum_evaluations (map (fun s => replace_num_likelihood_evaluations s k) l)
  = (k * Z.of_nat (List.length l))%Z.
Proof.
  induction l as [|s l IH]; cbn [map sum_evaluations fold_right List.length].
  - lia.
  - fold (sum_evaluations (map (fun s => replace_num_likelihood_evaluations s k) l)).
    rewrite IH. cbn [replace_num_likelihood_evaluations num_likelihood_evaluations]. lia.
Qed.

(** The counts reported by one invocation add up to the evaluations
    performed less one per slice: the evaluation of the first proposal of
    every slice is not counted. *)
Lemma reported_plus_slices_eq_performed n p ms pf gs self fuel key seed c
  (st : SamplerState StaticStandardSampleCollection) e final phantoms e' :
  __init__ n p ms pf gs = inr self ->
  get_sample_from_seed self fuel key seed c st e = Returns (final, phantoms) e' ->
  (num_likelihood_evaluations final + sum_evaluations phantoms + n
   = Z.of_nat e' - Z.of_nat e)%Z.
Proof.
  intros Hinit Hrun.
  pose proof (init_valid _ _ _ _ _ _ Hinit) as [(Hn & Hp & Hpn) _].
  assert (Hself : num_slices self = n /\ num_phantom_save self = p).
  { unfold __init__ in Hinit.
    repeat match type of Hinit with
           | (if ?b then _ else _) = _ => destruct b; [discriminate|]
           end.
    injection Hinit as <-. split; reflexivity. }
  destruct Hself as [Hsn Hsp].
  apply get_sample_from_seed_inv in Hrun as (fs & cum & Hchain & -> & ->).
  pose proof (chain_length _ _ _ _ _ _ _ _ _ Hchain) as Hlen.
  apply chain_counts in Hchain as [Hcount _].
  rewrite sum_evaluations_replaced, py_slice_length by lia.
  cbn [replace_num_likelihood_evaluations num_likelihood_evaluations].
  unfold per_accepted_sample. rewrite Z2Nat.id in Hcount |- * by lia.
  rewrite Hsn in Hcount. lia.
Qed.
End GetSampleFacts.

(** ** Properties of [get_sample_from_seed] *)

Lemma nth_error_last {A : Type} (l : list A) (d : A) :
  l <> [] -> nth_error l (List.length l - 1) = Some (last l d).
Proof.
  induction l as [|a l IH]; intros Hne; [congruence|].
  destruct l as [|b l]; [reflexivity|].
  change (last (a :: b :: l) d) with (last (b :: l) d).
  rewrite <- IH by discriminate. cbn [List.length].
  replace (S (S (List.length l)) - 1)%nat with (S (S (List.length l) - 1)) by lia.
  reflexivity.
Qed.

Lemma same_point_replaced (s : Sample) (k : Z) :
  same_point (replace_num_likelihood_evaluations s k) s.
Proof. repeat split. Qed.

Lemma init_attributes n p ms pf gs self :
  __init__ n p ms pf gs = inr self ->
  num_slices self = n /\ num_phantom_save self = p.
Proof.
  unfold __init__. intros Hinit.
  repeat match type of Hinit with
         | (if ?b then _ else _) = _ => destruct b; [discriminate|]
         end.
  injection Hinit as <-. split; reflexivity.
Qed.

Section GetSampleProperties.
Context {RNG : JaxRandom} {model : BaseAbstractModel} {num : Numerics}.
Context {StaticStandardSampleCollection : Type}.
Implicit Type st : SamplerState StaticStandardSampleCollection.

(** C3 -- apportionment of the evaluation count.  With [total] the counter
    accumulated over the chain of [num_slices] proposals, the terminal
    sample reports [total - floor(total / (p + 1)) * p] and every retained
    phantom sample reports [floor(total / (p + 1))], where
    [p = num_phantom_save]. *)
Theorem evaluation_count_apportionment
  n p ms pf gs self fuel key seed c st e final phantoms e' :
  __init__ n p ms pf gs = inr self ->
  get_sample_from_seed self fuel key seed c st e = Returns (final, phantoms) e' ->
  exists last_sample cumulative_samples,
    chain self fuel key seed c e = Returns (last_sample, cumulative_samples) e'
    /\ let total := num_likelihood_evaluations last_sample in
       num_likelihood_evaluations final = (total - (total / (p + 1)) * p)%Z
       /\ Forall (fun ph => num_likelihood_evaluations ph = (total / (p + 1))%Z)
            phantoms.
Proof.
  intros Hinit Hrun.
  pose proof (init_valid _ _ _ _ _ _ Hinit) as [(Hn & Hp & Hpn) _].
  destruct (init_attributes _ _ _ _ _ _ Hinit) as [Hsn Hsp].
  apply get_sample_from_seed_inv in Hrun as (fs & cum & Hchain & -> & ->).
  exists fs, cum. split; [exact Hchain|].
  apply chain_counts in Hchain as [_ Hpos].
  cbv zeta. unfold per_accepted_sample, per_phantom_sample.
  rewrite Hsp, Z.quot_div_nonneg by lia.
  split; [reflexivity|].
  apply Forall_forall. intros ph Hin.
  apply in_map_iff in Hin as (s & <- & _). reflexivity.
Qed.

(** C7 -- phantom retention.  An invocation with [num_slices = n] and
    [num_phantom_save = p] returns exactly [p] phantom samples; they are, in
    order and up to the evaluation count, the outputs of the proposals
    [n-p], ..., [n-1] of the cumulative scan (positions [n-p-1], ..., [n-2]
    of its output), all before the terminal sample, which is the output of
    proposal [n]. *)
Theorem phantom_retention
  n p ms pf gs self fuel key seed c st e final phantoms e' :
  __init__ n p ms pf gs = inr self ->
  get_sample_from_seed self fuel key seed c st e = Returns (final, phantoms) e' ->
  exists last_sample cumulative_samples,
    chain self fuel key seed c e = Returns (last_sample, cumulative_samples) e'
    /\ List.length cumulative_samples = Z.to_nat n
    /\ nth_error cumulative_samples (Z.to_nat n - 1) = Some last_sample
    /\ same_point final last_sample
    /\ List.length phantoms = Z.to_nat p
    /\ forall j, (j < Z.to_nat p)%nat ->
         (Z.to_nat n - 1 - Z.to_nat p + j < Z.to_nat n - 1)%nat
         /\ exists s ph,
             nth_error cumulative_samples (Z.to_nat n - 1 - Z.to_nat p + j) = Some s
             /\ nth_error phantoms j = Some ph
             /\ same_point ph s.
Proof.
  intros Hinit Hrun.
  pose proof (init_valid _ _ _ _ _ _ Hinit) as [(Hn & Hp & Hpn) _].
  destruct (init_attributes _ _ _ _ _ _ Hinit) as [Hsn Hsp].
  apply get_sample_from_seed_inv in Hrun as (fs & cum & Hchain & -> & ->).
  pose proof (chain_length _ _ _ _ _ _ _ _ _ Hchain) as Hlen.
  rewrite Hsn in Hlen. rewrite Hsp.
  exists fs, cum. split; [exact Hchain|].
  split; [exact Hlen|].
  split.
  { unfold chain in Hchain.
    apply cumulative_op_static_spec in Hchain as (_ & -> & _).
    rewrite <- Hlen. apply nth_error_last.
    intros ->. cbn [List.length] in Hlen. lia. }
  split; [apply same_point_replaced|].
  split; [rewrite length_map; apply py_slice_length; lia|].
  intros j Hj. split; [lia|].
  assert (Hidx : (Z.to_nat n - 1 - Z.to_nat p + j < List.length cum)%nat) by lia.
  apply nth_error_Some in Hidx.
  destruct (nth_error cum (Z.to_nat n - 1 - Z.to_nat p + j)) as [s|] eqn:Hs;
    [|congruence].
  exists s. eexists. split; [reflexivity|].
  rewrite nth_error_map, py_slice_nth_error, Hlen, Hs by lia.
  split; [reflexivity | apply same_point_replaced].
Qed.

(** C2, amended -- acceptance invariant.  Every sample emitted by the slice
    sampler (the terminal sample and each phantom) is, up to its evaluation
    count, the outcome of a slice proposal seeded at the previous state of
    the chain, and satisfies [log_L > log_L_constraint], unless it is on the
    plateau of its seed (seed and sample both at the constraint), or unless
    the bracket of its proposal collapsed to a width of at most twice the
    machine epsilon. *)
Theorem emitted_samples_accepted
  n p ms pf gs self fuel key seed c st e final phantoms e' :
  __init__ n p ms pf gs = inr self ->
  get_sample_from_seed self fuel key seed c st e = Returns (final, phantoms) e' ->
  exists last_sample cumulative_samples,
    chain self fuel key seed c e = Returns (last_sample, cumulative_samples) e'
    /\ forall s, In s (final :: phantoms) ->
         exists i s0,
           nth_error cumulative_samples i = Some s0
           /\ same_point s s0
           /\ slice_step_outcome self fuel c
                (nth i (init_sample seed c :: cumulative_samples) (init_sample seed c))
                s0.
Proof.
  intros Hinit Hrun.
  pose proof (init_valid _ _ _ _ _ _ Hinit) as [(Hn & Hp & Hpn) _].
  destruct (init_attributes _ _ _ _ _ _ Hinit) as [Hsn Hsp].
  apply get_sample_from_seed_inv in Hrun as (fs & cum & Hchain & -> & ->).
  pose proof (chain_length _ _ _ _ _ _ _ _ _ Hchain) as Hlen.
  exists fs, cum. split; [exact Hchain|].
  unfold chain in Hchain.
  apply cumulative_op_static_spec in Hchain as (_ & Hlast & Hsteps).
  assert (Hstep : forall i s0, nth_error cum i = Some s0 ->
            slice_step_outcome self fuel c
              (nth i (init_sample seed c :: cum) (init_sample seed c)) s0).
  { intros i s0 Hs0. apply Hsteps in Hs0 as (k & e1 & e2 & _ & Hop).
    apply propose_op_inv in Hop as (carry & Hfin & ->).
    exists k, e1, carry, e2. split; [exact Hfin|].
    cbn [U_sample log_L]. repeat split.
    exact (final_carry_done _ _ _ _ _ _ _ _ _ _ Hfin). }
  intros s [<- | Hin].
  - exists (List.length cum - 1)%nat, fs.
    assert (Hfs : nth_error cum (List.length cum - 1) = Some fs).
    { rewrite Hlast. apply nth_error_last. intros ->. cbn [List.length] in Hlen. lia. }
    split; [exact Hfs|]. split; [apply same_point_replaced | apply Hstep, Hfs].
  - apply in_map_iff in Hin as (s0 & <- & Hin).
    apply In_nth_error in Hin as (j & Hj).
    assert (Hjp : (j < Z.to_nat (num_phantom_save self))%nat).
    { rewrite <- (py_slice_length cum (num_phantom_save self)) by lia.
      apply nth_error_Some. congruence. }
    rewrite py_slice_nth_error in Hj by lia.
    eexists. exists s0. split; [exact Hj|].
    split; [apply same_point_replaced | apply Hstep, Hj].
Qed.
End GetSampleProperties.

Lemma evaluation_count_apportionment_witness :
  exists last_sample cumulative_samples,
    chain (RNG := Example.rng) (model := Example.total_model) (num := Example.float64)
      (Example.slice_sampler 3 2 false) 10 7%N Example.seed (Fin (1 # 2)) 0%nat
    = Returns (last_sample, cumulative_samples) 6%nat
    /\ let total := num_likelihood_evaluations last_sample in
       num_likelihood_evaluations (Example.sample_at (3 # 4) 1)
       = (total - (total / (2 + 1)) * 2)%Z
       /\ Forall (fun ph => num_likelihood_evaluations ph = (total / (2 + 1))%Z)
            [Example.sample_at (13 # 16) 1; Example.sample_at (3 # 4) 1].
Proof.
  apply (evaluation_count_apportionment
           (RNG := Example.rng) (model := Example.total_model) (num := Example.float64)
           (StaticStandardSampleCollection := unit)
           3 2 false true false (Example.slice_sampler 3 2 false)
           10 7%N Example.seed (Fin (1 # 2)) (tuple1 tt) 0%nat).
  - reflexivity.
  - vm_compute. reflexivity.
Defined.

Lemma phantom_retention_witness :
  exists last_sample cumulative_samples,
    chain (RNG := Example.rng) (model := Example.total_model) (num := Example.float64)
      (Example.slice_sampler 3 2 false) 10 7%N Example.seed (Fin (1 # 2)) 0%nat
    = Returns (last_sample, cumulative_samples) 6%nat
    /\ List.length cumulative_samples = 3%nat
    /\ nth_error cumulative_samples 2 = Some last_sample
    /\ same_point (Example.sample_at (3 # 4) 1) last_sample
    /\ List.length [Example.sample_at (13 # 16) 1; Example.sample_at (3 # 4) 1] = 2%nat
    /\ forall j, (j < 2)%nat ->
         (3 - 1 - 2 + j < 3 - 1)%nat
         /\ exists s ph,
             nth_error cumulative_samples (3 - 1 - 2 + j) = Some s
             /\ nth_error [Example.sample_at (13 # 16) 1; Example.sample_at (3 # 4) 1] j
                = Some ph
             /\ same_point ph s.
Proof.
  apply (phantom_retention
           (RNG := Example.rng) (model := Example.total_model) (num := Example.float64)
           (StaticStandardSampleCollection := unit)
           3 2 false true false (Example.slice_sampler 3 2 false)
           10 7%N Example.seed (Fin (1 # 2)) (tuple1 tt) 0%nat).
  - reflexivity.
  - vm_compute. reflexivity.
Defined.

Lemma emitted_samples_accepted_witness :
  exists last_sample cumulative_samples,
    chain (RNG := Example.rng) (model := Example.total_model) (num := Example.float64)
      (Example.slice_sampler 3 2 false) 10 7%N Example.seed (Fin (1 # 2)) 0%nat
    = Returns (last_sample, cumulative_samples) 6%nat
    /\ forall s,
         In s [Example.sample_at (3 # 4) 1;
               Example.sample_at (13 # 16) 1; Example.sample_at (3 # 4) 1] ->
         exists i s0,
           nth_error cumulative_samples i = Some s0
           /\ same_point s s0
           /\ slice_step_outcome (RNG := Example.rng) (model := Example.total_model)
                (num := Example.float64) (Example.slice_sampler 3 2 false) 10 (Fin (1 # 2))
                (nth i (init_sample Example.seed (Fin (1 # 2)) :: cumulative_samples)
                   (init_sample Example.seed (Fin (1 # 2))))
                s0.
Proof.
  apply (emitted_samples_accepted
           (RNG := Example.rng) (model := Example.total_model) (num := Example.float64)
           (StaticStandardSampleCollection := unit)
           3 2 false true false (Example.slice_sampler 3 2 false)
           10 7%N Example.seed (Fin (1 # 2)) (tuple1 tt) 0%nat).
  - reflexivity.
  - vm_compute. reflexivity.
Defined.

(** The claim of C2 as stated fails: started on the spike, above the
    constraint [1/2], a slice rejects every proposal until its bracket has
    collapsed to the width [2^-51], and the sample it emits, one binary64
    step away from the spike, has likelihood [0]: neither above the
    constraint nor on a plateau at the constraint.  The run is exact in
    binary64, and the point emitted is [1/4 - 2^-52]. *)
Lemma acceptance_counterexample :
  __init__ 1 0 false true false = inr (Example.slice_sampler 1 0 false)
  /\ forward (BaseAbstractModel := Example.edge_spike_model) (U0 Example.edge_seed)
     = log_L0 Example.edge_seed
  /\ exists phantoms e',
      get_sample_from_seed
        (RNG := Example.rng) (model := Example.edge_spike_model) (num := Example.float64)
        (Example.slice_sampler 1 0 false) 100 1%N Example.edge_seed (Fin (1 # 2))
        (tuple1 tt) 0%nat
      = Returns (Example.collapsed_sample, phantoms) e'
      /\ U_sample Example.collapsed_sample = [Fin (1125899906842623 # 4503599627370496)]
      /\ Fgt (log_L Example.collapsed_sample) (Fin (1 # 2)) = false
      /\ Feqb (log_L Example.collapsed_sample) (Fin (1 # 2)) = false
      /\ Feqb (log_L0 Example.edge_seed) (Fin (1 # 2)) = false.
Proof.
  split; [reflexivity|]. split; [reflexivity|].
  exists [], 51%nat. split; [vm_compute; reflexivity|].
  repeat split.
Qed.

(** C1 -- evaluation-count conservation fails on the code.  With one slice, no
    phantom sample and the constraint at minus infinity, the first proposal is
    accepted: one evaluation of [model.forward] is performed (the call counter
    goes from 0 to 1), and the sample returned reports none. *)
Theorem first_evaluation_not_counted :
  get_sample_from_seed
    (RNG := Example.rng) (model := Example.total_model) (num := Example.float64)
    (Example.slice_sampler 1 0 false) 10 7%N
    {| U0 := [Fin (1 # 2)]; log_L0 := Fin (1 # 2) |} NegInf (tuple1 tt) 0%nat
  = Returns ({| U_sample := [Fin (3 # 4)];
                log_L_constraint := NegInf;
                log_L := Fin (3 # 4);
                num_likelihood_evaluations := 0 |}, []) 1%nat.
Proof. vm_compute. reflexivity. Qed.

(** ** Rounding to binary64 *)

Lemma round_half_even_nearest x :
  Qabs (inject_Z (round_half_even x) - x) <= 1 # 2.
Proof.
  unfold round_half_even.
  pose proof (Qfloor_le x) as Hlo. pose proof (Qlt_floor x) as Hhi.
  rewrite inject_Z_plus in Hhi. change (inject_Z 1) with 1 in Hhi.
  apply Qabs_Qle_condition.
  destruct (Qcompare (x - inject_Z (Qfloor x)) (1 # 2)) eqn:E.
  - apply Qeq_alt in E.
    destruct (Z.even (Qfloor x)); [|rewrite inject_Z_plus; change (inject_Z 1) with 1];
      split; lra.
  - apply Qlt_alt in E. split; lra.
  - apply Qgt_alt in E. rewrite inject_Z_plus. change (inject_Z 1) with 1. split; lra.
Qed.

Lemma pow2_pos e : 0 < pow2 e.
Proof.
  destruct e as [|p|p]; cbn [pow2]; [reflexivity| |reflexivity].
  change 0 with (inject_Z 0). rewrite <- Zlt_Qlt. 
  rewrite Z.pow_pos_fold. apply Z.pow_pos_nonneg; lia.
Qed.

Lemma pow2_succ e : pow2 (e + 1) == 2 * pow2 e.
Proof.
  assert (Hp : forall p, pow2 (Z.pos p) == inject_Z (2 ^ Z.pos p)) by (intros; reflexivity).
  assert (Hn : forall p, pow2 (Z.neg p) * inject_Z (2 ^ Z.pos p) == 1).
  { intros p. cbn [pow2]. unfold Qeq, Qmult, inject_Z. cbn [Qnum Qden].
    rewrite Pos.mul_1_r, Pos2Z.inj_pow. lia. }
  destruct e as [|p|p].
  - reflexivity.
  - replace (Z.pos p + 1)%Z with (Z.pos (p + 1)) by lia.
    rewrite !Hp. rewrite Pos2Z.inj_add, Z.pow_add_r by lia.
    rewrite inject_Z_mult. change (inject_Z (2 ^ 1)) with 2. ring.
  - destruct (Pos.eq_dec p 1) as [-> | Hne].
    + reflexivity.
    + assert (Hq : (Z.neg p + 1 = Z.neg (p - 1))%Z) by lia.
      rewrite Hq.
      pose proof (Hn p) as H1. pose proof (Hn (p - 1)%positive) as H2.
      assert (E : inject_Z (2 ^ Z.pos p) == 2 * inject_Z (2 ^ Z.pos (p - 1))).
      { replace (Z.pos p) with (Z.pos (p - 1) + 1)%Z by lia.
        rewrite Z.pow_add_r by lia. rewrite inject_Z_mult.
        change (inject_Z (2 ^ 1)) with 2. ring. }
      rewrite E in H1.
      assert (Hpos : 0 < inject_Z (2 ^ Z.pos (p - 1))).
      { change 0 with (inject_Z 0). rewrite <- Zlt_Qlt. apply Z.pow_pos_nonneg; lia. }
      apply Qmult_inj_r with (inject_Z (2 ^ Z.pos (p - 1))); [lra|].
      rewrite H2. rewrite <- H1. ring.
Qed.

Lemma pow2_Qpower e : pow2 e == 2 ^ e.
Proof.
  destruct e as [|p|p]; cbn [pow2].
  - reflexivity.
  - rewrite Z.pow_pos_fold. rewrite Zpower_Qpower by lia. reflexivity.
  - change (2 ^ Z.neg p) with (/ (2 ^ Z.pos p)).
    rewrite <- (Zpower_Qpower 2 (Z.pos p)) by lia.
    rewrite <- Pos2Z.inj_pow. reflexivity.
Qed.

Lemma pow2_add x y : pow2 (x + y) == pow2 x * pow2 y.
Proof. rewrite !pow2_Qpower. apply Qpower_plus. discriminate. Qed.

Lemma pow2_le x y : (x <= y)%Z -> pow2 x <= pow2 y.
Proof.
  intros H. rewrite !pow2_Qpower. apply Qpower_le_compat_l; [exact H | lra].
Qed.

(** [Qlog2] is the binary exponent. *)
Lemma Qlog2_spec a : 0 < a -> pow2 (Qlog2 a) <= a /\ a < pow2 (Qlog2 a + 1).
Proof.
  intros Ha. unfold Qlog2.
  destruct a as [n d]. cbn [Qnum Qden].
  assert (Hn : (0 < n)%Z).
  { unfold Qlt in Ha. cbn [Qnum Qden] in Ha. lia. }
  set (ln := Z.log2 n). set (ld := Z.log2 (Z.pos d)).
  pose proof (Z.log2_spec n Hn) as [Hn1 Hn2]. fold ln in Hn1, Hn2.
  pose proof (Z.log2_spec (Z.pos d) ltac:(lia)) as [Hd1 Hd2]. fold ld in Hd1, Hd2.
  pose proof (Z.log2_nonneg n) as Hln. fold ln in Hln.
  pose proof (Z.log2_nonneg (Z.pos d)) as Hld. fold ld in Hld.
  assert (Hpn : forall k, (0 <= k)%Z -> pow2 k == inject_Z (2 ^ k)).
  { intros k Hk. rewrite pow2_Qpower, Zpower_Qpower by exact Hk. reflexivity. }
  assert (Eq : n # d == inject_Z n / inject_Z (Z.pos d)) by apply Qmake_Qdiv.
  assert (Hdpos : 0 < inject_Z (Z.pos d)) by (change 0 with (inject_Z 0); rewrite <- Zlt_Qlt; lia).
  (* the quotient lies strictly between 2^(ln-ld-1) and 2^(ln-ld+1) *)
  assert (Hup : n # d < pow2 (ln - ld + 1)).
  { rewrite Eq. apply Qlt_shift_div_r; [exact Hdpos|].
    apply Qlt_le_trans with (inject_Z (2 ^ Z.succ ln)).
    - rewrite <- Zlt_Qlt. exact Hn2.
    - rewrite <- Hpn by lia.
      replace (Z.succ ln) with ((ln - ld + 1) + ld)%Z by lia.
      rewrite pow2_add. apply Qmult_le_l; [apply pow2_pos|].
      rewrite Hpn by lia. rewrite <- Zle_Qle. exact Hd1. }
  assert (Hlow : pow2 (ln - ld - 1) <= n # d).
  { rewrite Eq. apply Qle_shift_div_l; [exact Hdpos|].
    apply Qle_trans with (inject_Z (2 ^ ln)).
    - rewrite <- Hpn by lia.
      replace ln with ((ln - ld - 1) + Z.succ ld)%Z at 2 by lia.
      rewrite pow2_add. apply Qmult_le_l; [apply pow2_pos|].
      rewrite Hpn by lia. rewrite <- Zle_Qle. lia.
    - rewrite <- Zle_Qle. exact Hn1. }
  destruct (Qle_bool (pow2 (ln - ld)) (n # d)) eqn:E.
  - apply Qle_bool_iff in E. split; [exact E | exact Hup].
  - split; [exact Hlow|].
    replace (ln - ld - 1 + 1)%Z with (ln - ld)%Z by lia.
    apply Qnot_le_lt. intros H. apply Qle_bool_iff in H. congruence.
Qed.

Lemma round_half_even_bounds x (N : Z) :
  0 <= x -> x < inject_Z N ->
  (0 <= round_half_even x <= N)%Z.
Proof.
  intros H0 HN. unfold round_half_even.
  assert (Hf0 : (0 <= Qfloor x)%Z).
  { change 0%Z with (Qfloor 0). apply Qfloor_resp_le. exact H0. }
  assert (HfN : (Qfloor x < N)%Z).
  { rewrite Zlt_Qlt. apply Qle_lt_trans with x; [apply Qfloor_le | exact HN]. }
  destruct (Qcompare _ _); [destruct (Z.even _)| |]; lia.
Qed.

Lemma Fin_inj a b : Fin a = Fin b -> a = b.
Proof. intros H. injection H. auto. Qed.

(** A finite result of [round64] is a multiple of the unit in the last place
    of its argument, with a significand of at most 53 bits, and is within
    half that unit of the argument. *)
Lemma round64_nearest q r :
  round64 q = Fin r ->
  let e := Z.max (Qlog2 (Qabs q)) (-1022) in
  (exists n : Z, (Z.abs n <= 2 ^ 53)%Z /\ r == inject_Z n * pow2 (e - 52))
  /\ Qabs (r - q) <= pow2 (e - 53).
Proof.
  intros Hr e. unfold round64 in Hr.
  assert (Hhalf : pow2 (e - 52) == 2 * pow2 (e - 53)).
  { replace (e - 52)%Z with (e - 53 + 1)%Z by lia. apply pow2_succ. }
  pose proof (pow2_pos (e - 53)) as Hpos.
  pose proof (pow2_pos (e - 52)) as Hulp.
  destruct (Qcompare q 0) eqn:Hs.
  { apply Qeq_alt in Hs. injection Hr as <-. split.
    - exists 0%Z. split; [cbn; lia|]. ring.
    - rewrite Hs. setoid_replace (0 - 0) with 0 by ring. cbn [Qabs Z.abs]. lra. }
  all: fold e in Hr;
    destruct (1024 <=? Qlog2 (Qabs q))%Z; [discriminate|];
    destruct ((e =? 1023)%Z && _)%bool; [discriminate|];
    apply Fin_inj in Hr;
    set (x := Qabs q / pow2 (e - 52)) in *;
    set (n := round_half_even x) in *.
  all: assert (Hapos : 0 < Qabs q)
    by (first [apply Qlt_alt in Hs; rewrite Qabs_neg by lra; lra
              | apply Qgt_alt in Hs; rewrite Qabs_pos by lra; lra]).
  all: destruct (Qlog2_spec _ Hapos) as [_ Hup].
  all: assert (Hx : Qabs q == x * pow2 (e - 52)) by (unfold x; field; lra).
  all: assert (Hx0 : 0 <= x)
    by (unfold x; apply Qle_shift_div_l; [exact Hulp | lra]).
  all: assert (HxN : x < inject_Z (2 ^ 53)).
  1, 3: unfold x; apply Qlt_shift_div_r; [exact Hulp|];
    apply Qlt_le_trans with (pow2 (Qlog2 (Qabs q) + 1)); [exact Hup|];
    apply Qle_trans with (pow2 (53 + (e - 52))); [apply pow2_le; lia|];
    rewrite pow2_add; apply Qle_refl.
  all: pose proof (round_half_even_bounds x _ Hx0 HxN) as Hn; fold n in Hn.
  all: pose proof (round_half_even_nearest x) as Hnear; fold n in Hnear;
    apply Qabs_Qle_condition in Hnear.
  - apply Qlt_alt in Hs.
    assert (Er : r == - (inject_Z n * pow2 (e - 52)))
      by (rewrite <- Hr; apply Qred_correct).
    assert (Eq : q == - (x * pow2 (e - 52))) by (rewrite <- Hx, Qabs_neg by lra; ring).
    split.
    + exists (- n)%Z. split; [lia|]. rewrite Er, inject_Z_opp. ring.
    + apply Qabs_Qle_condition. rewrite Er, Eq, Hhalf. split; nra.
  - apply Qgt_alt in Hs.
    assert (Er : r == inject_Z n * pow2 (e - 52))
      by (rewrite <- Hr; apply Qred_correct).
    assert (Eq : q == x * pow2 (e - 52)) by (rewrite <- Hx, Qabs_pos by lra; ring).
    split.
    + exists n. split; [lia | exact Er].
    + apply Qabs_Qle_condition. rewrite Er, Eq, Hhalf. split; nra.
Qed.

(** ** The multi-ellipsoidal rejection sampler *)

Lemma relaxations_succ bound m :
  relaxations bound (S m)
  = (relaxations bound m
     + if Fgt (Fin (inject_Z (Z.of_nat (S m)))) bound then 1 else 0)%nat.
Proof.
  unfold relaxations. rewrite seq_S, filter_app, length_app.
  cbn [filter Nat.add]. destruct (Fgt _ bound); reflexivity.
Qed.

Lemma exceeds_subsequent (bound : float_type) (m m' : Z) :
  (m <= m')%Z ->
  Fgt (Fin (inject_Z m)) bound = true ->
  Fgt (Fin (inject_Z m')) bound = true.
Proof.
  intros Hle. unfold Fgt. destruct bound as [| |b|]; try discriminate; auto.
  rewrite !Flt_Fin. intros Hb. rewrite Zle_Qle in Hle. lra.
Qed.

(** The double nearest [0.1], and the bound that the code computes from it:
    [1. / 0.1] is [10.0], though the double is above one tenth. *)
Lemma tenth_value : tenth = Fin (3602879701896397 # 36028797018963968).
Proof. vm_compute. reflexivity. Qed.

Lemma one_over_tenth : MultiellipsoidalSampler.one_over tenth = Fin 10.
Proof. vm_compute. reflexivity. Qed.

(** The constraint of the next attempt, as the loop body computes it from the
    constraint of this one. *)
Lemma relaxed_step bound c m :
  (if Fgt (Fin (inject_Z (Z.of_nat m + 1))) bound
   then F64 (Fsub (relaxed c (relaxations bound m)) tenth)
   else relaxed c (relaxations bound m))
  = relaxed c (relaxations bound (S m)).
Proof.
  rewrite relaxations_succ.
  replace (Z.of_nat m + 1)%Z with (Z.of_nat (S m)) by lia.
  destruct (Fgt _ bound).
  - rewrite Nat.add_1_r. reflexivity.
  - rewrite Nat.add_0_r. reflexivity.
Qed.

Section Rejection.
Import MultiellipsoidalSampler.
Context {RNG : JaxRandom} {model : BaseAbstractModel} {ell : EllipsoidUnion}.
Context {LivePoints : Type}.
Variable self : MultiellipsoidalSampler.t.
Variable preprocess_data : MultEllipsoidState.

(** An iteration of the loop never raises: it evaluates the model once at the
    point it holds, tests it against the constraint of this attempt, and
    draws the next point. *)
Lemma body_returns_state carry_state e :
  let bound := one_over (efficiency_threshold self) in
  let evals := (num_likelihood_evals carry_state + 1)%Z in
  let constraint :=
    if Fgt (Fin (inject_Z evals)) bound
    then F64 (Fsub (cs_log_L_constraint carry_state) tenth)
    else cs_log_L_constraint carry_state in
  let accepted := Fgt (forward (U carry_state)) constraint in
  body self preprocess_data carry_state e
  = Returns {| done := accepted;
               key := split_at (key carry_state) 2 0;
               U := if accepted then U carry_state
                    else sample_multi_ellipsoid (split_at (key carry_state) 2 1)
                           preprocess_data;
               cs_log_L := forward (U carry_state);
               cs_log_L_constraint := constraint;
               num_likelihood_evals := evals |} (S e).
Proof. reflexivity. Qed.

(** The state after an attempt that was not accepted, from the state before
    it; then the attempt [S i] is the next one. *)
Lemma body_attempt s e i c key0 :
  num_likelihood_evals s = Z.of_nat i ->
  key s = attempt_key key0 (S i) ->
  U s = attempt_point preprocess_data key0 (S i) ->
  cs_log_L_constraint s = relaxed c (relaxations (one_over (efficiency_threshold self)) i) ->
  exists s1,
    body self preprocess_data s e = Returns s1 (S e)
    /\ done s1 = accepts self preprocess_data key0 c (S i)
    /\ num_likelihood_evals s1 = Z.of_nat (S i)
    /\ key s1 = attempt_key key0 (S (S i))
    /\ U s1 = (if done s1 then attempt_point preprocess_data key0 (S i)
               else attempt_point preprocess_data key0 (S (S i)))
    /\ cs_log_L s1 = forward (attempt_point preprocess_data key0 (S i))
    /\ cs_log_L_constraint s1
       = relaxed c (relaxations (one_over (efficiency_threshold self)) (S i)).
Proof.
  intros Hn Hk HU Hc. eexists. split; [apply body_returns_state|].
  cbn [done num_likelihood_evals key U cs_log_L cs_log_L_constraint].
  rewrite Hn, Hk, HU, Hc, relaxed_step.
  repeat split; try reflexivity. lia.
Qed.

Lemma body_inv c key0 e0 s e s1 e1 :
  rejection_inv self preprocess_data key0 c e0 s e ->
  done s = false ->
  body self preprocess_data s e = Returns s1 e1 ->
  rejection_inv self preprocess_data key0 c e0 s1 e1.
Proof.
  intros (i & Hn & -> & Hk & Hc & Hbefore & Hopen & _) Hd Hb.
  destruct (Hopen Hd) as [HU Hlast].
  destruct (body_attempt s (e0 + i) i c key0 Hn Hk HU Hc)
    as (s' & Hb' & Hd1 & Hn1 & Hk1 & HU1 & HL1 & Hc1).
  rewrite Hb in Hb'. injection Hb' as <- ->.
  exists (S i). split; [exact Hn1|]. split; [lia|]. split; [exact Hk1|].
  split; [exact Hc1|]. split; [|split].
  - intros m Hm. destruct (Nat.eq_dec m i) as [-> | Hne].
    + apply Hlast. lia.
    + apply Hbefore. lia.
  - intros Hd'. rewrite Hd' in HU1. split; [exact HU1|].
    intros _. rewrite <- Hd1. exact Hd'.
  - intros Hd'. rewrite Hd' in HU1. split; [lia|]. split; [exact HU1|].
    split; [exact HL1|]. rewrite <- Hd1. exact Hd'.
Qed.

Lemma init_carry_state_inv key0 c e :
  rejection_inv self preprocess_data key0 c e
    (init_carry_state preprocess_data key0 c) e.
Proof.
  exists 0%nat. cbn [init_carry_state num_likelihood_evals key cs_log_L_constraint done U].
  split; [reflexivity|]. split; [lia|]. split; [reflexivity|]. split; [reflexivity|].
  split; [intros m Hm; lia|]. split; [|discriminate].
  intros _. split; [reflexivity | intros H; lia].
Qed.

Lemma final_carry_state_inv fuel key0 c e s e' :
  final_carry_state self preprocess_data fuel key0 c e = Returns s e' ->
  rejection_inv self preprocess_data key0 c e s e' /\ done s = true.
Proof.
  unfold final_carry_state. intros Hrun.
  apply (while_loop_inv _ _ (rejection_inv self preprocess_data key0 c e))
    in Hrun as [Hinv Hdone].
  - split; [exact Hinv | apply negb_false_iff, Hdone].
  - intros s0 n s1 n1 Hs0 Hcond Hb.
    apply negb_true_iff in Hcond. eapply body_inv; eassumption.
  - apply init_carry_state_inv.
Qed.

(** The loop returns at the first attempt that is accepted, when it may run
    that long. *)
Lemma rejection_loop_returns key0 c n : forall fuel s e i,
  done s = false ->
  num_likelihood_evals s = Z.of_nat i ->
  key s = attempt_key key0 (S i) ->
  U s = attempt_point preprocess_data key0 (S i) ->
  cs_log_L_constraint s = relaxed c (relaxations (one_over (efficiency_threshold self)) i) ->
  (i < n <= i + fuel)%nat ->
  accepts self preprocess_data key0 c n = true ->
  (forall m, (i < m < n)%nat -> accepts self preprocess_data key0 c m = false) ->
  while_loop fuel (fun s => negb (done s)) (body self preprocess_data) s e
  = Returns {| done := true;
               key := attempt_key key0 (S n);
               U := attempt_point preprocess_data key0 n;
               cs_log_L := forward (attempt_point preprocess_data key0 n);
               cs_log_L_constraint :=
                 relaxed c (relaxations (one_over (efficiency_threshold self)) n);
               num_likelihood_evals := Z.of_nat n |} (e + (n - i)).
Proof.
  induction fuel as [|fuel IH]; intros s e i Hd Hn Hk HU Hc Hrange Hacc Hrej; [lia|].
  cbn [while_loop]. rewrite Hd. cbn [negb].
  destruct (body_attempt s e i c key0 Hn Hk HU Hc)
    as (s1 & Hb & Hd1 & Hn1 & Hk1 & HU1 & HL1 & Hc1).
  unfold bind. rewrite Hb.
  destruct (Nat.eq_dec n (S i)) as [-> | Hne].
  - rewrite Hacc in Hd1. rewrite Hd1 in HU1.
    replace (e + (S i - i))%nat with (S e) by lia.
    destruct s1 as [d1 k1 U1 L1 c1 n1].
    cbn [done key U cs_log_L cs_log_L_constraint num_likelihood_evals] in *.
    subst. destruct fuel; reflexivity.
  - rewrite (Hrej (S i)) in Hd1 by lia. rewrite Hd1 in HU1.
    rewrite (IH s1 (S e) (S i) Hd1 Hn1 Hk1 HU1 Hc1); [f_equal; lia | lia | exact Hacc |].
    intros m Hm. apply Hrej. lia.
Qed.
End Rejection.

Section RejectionProperties.
Import MultiellipsoidalSampler.
Context {RNG : JaxRandom} {model : BaseAbstractModel} {ell : EllipsoidUnion}.
Context {LivePoints : Type}.

(** C4 -- backoff policy.  The constraint that the [m]-th attempt of
    [get_sample] is tested against is the original one after one binary64
    subtraction of [0.1] for every attempt, up to the [m]-th, whose number
    exceeded [1 / efficiency_threshold]; once an attempt number exceeds the
    bound, so does every later one.  A run that returns has stopped at the
    first attempt accepted against its relaxed constraint, and its sample
    carries that relaxed constraint, not the original one; and whenever some
    attempt within the iteration cap is accepted against its relaxed
    constraint, the run does return, at the first such attempt. *)
Theorem backoff_policy self preprocess_data fuel key0 c (live_points : LivePoints) e :
  let bound := one_over (efficiency_threshold self) in
  (forall sample e',
      get_sample self preprocess_data fuel key0 c live_points e = Returns sample e' ->
      exists attempts : nat,
        (1 <= attempts)%nat
        /\ num_likelihood_evaluations sample = Z.of_nat attempts
        /\ log_L_constraint sample = relaxed c (relaxations bound attempts)
        /\ point_U sample = attempt_point preprocess_data key0 attempts
        /\ log_L sample = forward (point_U sample)
        /\ Fgt (log_L sample) (log_L_constraint sample) = true
        /\ (forall m, (1 <= m < attempts)%nat ->
              Fgt (forward (attempt_point preprocess_data key0 m))
                (relaxed c (relaxations bound m)) = false))
  /\ (forall attempts : nat,
        (1 <= attempts <= fuel)%nat ->
        Fgt (forward (attempt_point preprocess_data key0 attempts))
          (relaxed c (relaxations bound attempts)) = true ->
        (forall m, (1 <= m < attempts)%nat ->
            Fgt (forward (attempt_point preprocess_data key0 m))
              (relaxed c (relaxations bound m)) = false) ->
        get_sample self preprocess_data fuel key0 c live_points e
        = Returns {| point_U := attempt_point preprocess_data key0 attempts;
                     log_L_constraint := relaxed c (relaxations bound attempts);
                     log_L := forward (attempt_point preprocess_data key0 attempts);
                     num_likelihood_evaluations := Z.of_nat attempts;
                     num_slices := 0;
                     iid := true |} (e + attempts))
  /\ (forall m,
         relaxations bound (S m)
         = (relaxations bound m
            + if Fgt (Fin (inject_Z (Z.of_nat (S m)))) bound then 1 else 0)%nat)
  /\ (forall m m' : Z,
         (m <= m')%Z ->
         Fgt (Fin (inject_Z m)) bound = true ->
         Fgt (Fin (inject_Z m')) bound = true)
  /\ (forall k, relaxed c (S k) = F64 (Fsub (relaxed c k) tenth)).
Proof.
  intros bound. split; [|split; [|split; [|split]]].
  - unfold get_sample. intros sample e' Hrun.
    apply bind_Returns in Hrun as (s & e1 & Hfin & Hrun).
    apply ret_Returns in Hrun as [<- <-].
    apply final_carry_state_inv in Hfin
      as [(m & Hm & _ & _ & Hc & Hbefore & _ & Hacc) Hdone].
    destruct (Hacc Hdone) as (Hm1 & HU & HL & Ha).
    exists m. cbn [num_likelihood_evaluations log_L_constraint log_L point_U].
    rewrite HU, HL, Hc. repeat split; try assumption.
  - intros n Hn Hacc Hrej.
    unfold get_sample, final_carry_state, bind.
    assert (Hbefore : forall m, (0 < m < n)%nat ->
                        accepts self preprocess_data key0 c m = false)
      by (intros m Hm; apply Hrej; lia).
    rewrite (rejection_loop_returns self preprocess_data key0 c n fuel
               (init_carry_state preprocess_data key0 c) e 0%nat
               eq_refl eq_refl eq_refl eq_refl eq_refl ltac:(lia) Hacc Hbefore).
    unfold ret. cbn [U cs_log_L cs_log_L_constraint num_likelihood_evals].
    f_equal. lia.
  - apply relaxations_succ.
  - apply exceeds_subsequent.
  - reflexivity.
Qed.

(** The rejection sampler counts every evaluation it performs. *)
Lemma get_sample_counts self preprocess_data fuel key0 c (live_points : LivePoints)
  e sample e' :
  get_sample self preprocess_data fuel key0 c live_points e = Returns sample e' ->
  Z.of_nat e' = (Z.of_nat e + num_likelihood_evaluations sample)%Z.
Proof.
  unfold get_sample. intros Hrun.
  apply bind_Returns in Hrun as (s & e1 & Hfin & Hrun).
  apply ret_Returns in Hrun as [<- <-].
  apply final_carry_state_inv in Hfin as [(m & Hm & -> & _) _].
  cbn [num_likelihood_evaluations]. lia.
Qed.
End RejectionProperties.

Lemma backoff_policy_witness :
  let self :=
    {| MultiellipsoidalSampler.depth := 0;
       MultiellipsoidalSampler.efficiency_threshold := Fin (1 # 2) |} in
  let sample :=
    {| MultiellipsoidalSampler.point_U := [Fin (1 # 2)];
       MultiellipsoidalSampler.log_L_constraint :=
         Fin (2251799813685247 # 4503599627370496);
       MultiellipsoidalSampler.log_L := Fin (1 # 2);
       MultiellipsoidalSampler.num_likelihood_evaluations := 12;
       MultiellipsoidalSampler.num_slices := 0;
       MultiellipsoidalSampler.iid := true |} in
  MultiellipsoidalSampler.get_sample
    (RNG := Example.rng) (model := Example.total_model) (ell := Example.interval)
    self tt 20 7%N (Fin (3 # 2)) tt 0%nat
  = Returns sample 12%nat
  /\ exists attempts : nat,
      (1 <= attempts)%nat
      /\ MultiellipsoidalSampler.num_likelihood_evaluations sample = Z.of_nat attempts
      /\ MultiellipsoidalSampler.log_L_constraint sample
         = relaxed (Fin (3 # 2))
             (relaxations (MultiellipsoidalSampler.one_over (Fin (1 # 2))) attempts)
      /\ Fgt (MultiellipsoidalSampler.log_L sample)
           (MultiellipsoidalSampler.log_L_constraint sample) = true.
Proof.
  intros self sample.
  destruct (backoff_policy
              (RNG := Example.rng) (model := Example.total_model)
              (ell := Example.interval) (LivePoints := unit)
              self tt 20 7%N (Fin (3 # 2)) tt 0%nat) as (Hruns & Hreturns & _).
  split.
  - rewrite (Hreturns 12%nat).
    + vm_compute. reflexivity.
    + lia.
    + vm_compute. reflexivity.
    + intros m Hm.
      do 12 (destruct m as [|m]; [try lia; vm_compute; reflexivity|]). lia.
  - destruct (Hruns sample 12%nat) as (n & Hn1 & Hn & Hc & _ & _ & Hgt & _).
    + vm_compute. reflexivity.
    + exists n. auto.
Defined.

(** * Further properties of the samplers *)

(** ** More on the order of floating-point values *)

Lemma Fle_trans a b c : Fle a b = true -> Fle b c = true -> Fle a c = true.
Proof.
  destruct a as [| |p|], b as [| |q|], c as [| |r|];
    try discriminate; try reflexivity.
  rewrite !Fle_Fin. intros. lra.
Qed.

Lemma Fmin_le_nonneg a b :
  Fle Fzero a = true -> Fle Fzero b = true ->
  Fle (Fmin a b) a = true /\ Fle (Fmin a b) b = true.
Proof.
  intros Ha Hb.
  destruct a as [| |p|]; try discriminate Ha;
  destruct b as [| |q|]; try discriminate Hb; cbn [Fmin].
  - destruct (Fle (Fin p) (Fin q)) eqn:E.
    + split; [apply Fle_Fin; lra | exact E].
    + split; [|apply Fle_Fin; lra].
      apply Fle_Fin. destruct (Qlt_le_dec q p) as [H | H]; [lra|].
      apply Fle_Fin in H. congruence.
  - change (Fle (Fin p) PosInf) with true. cbn. split; [apply Fle_Fin; lra | reflexivity].
  - change (Fle PosInf (Fin q)) with false. cbn. split; [reflexivity | apply Fle_Fin; lra].
  - split; reflexivity.
Qed.

Lemma Fmax_ge_nonpos a b :
  Fle a Fzero = true -> Fle b Fzero = true ->
  Fle a (Fmax a b) = true /\ Fle b (Fmax a b) = true.
Proof.
  intros Ha Hb.
  destruct a as [| |p|]; try discriminate Ha;
  destruct b as [| |q|]; try discriminate Hb; cbn [Fmax].
  - split; reflexivity.
  - change (Fle NegInf (Fin q)) with true. cbn. split; [reflexivity | apply Fle_Fin; lra].
  - change (Fle (Fin p) NegInf) with false. cbn. split; [apply Fle_Fin; lra | reflexivity].
  - destruct (Fle (Fin p) (Fin q)) eqn:E.
    + split; [exact E | apply Fle_Fin; lra].
    + split; [apply Fle_Fin; lra|].
      apply Fle_Fin. destruct (Qlt_le_dec q p) as [H | H]; [lra|].
      apply Fle_Fin in H. congruence.
Qed.

Lemma fold_left_Fmin_le r : forall x,
  Fle Fzero x = true -> Forall (fun y => Fle Fzero y = true) r ->
  Fle (fold_left Fmin r x) x = true
  /\ forall y, In y r -> Fle (fold_left Fmin r x) y = true.
Proof.
  induction r as [|z r IH]; intros x Hx Hr; cbn [fold_left].
  - split; [|intros y []]. destruct x; try discriminate; try reflexivity.
    apply Fle_Fin. lra.
  - inversion Hr; subst.
    destruct (Fmin_le_nonneg x z Hx H1) as [Hmx Hmz].
    destruct (IH (Fmin x z) (Fmin_nonneg _ _ Hx H1) H2) as [Hf Hin].
    split; [eapply Fle_trans; eassumption|].
    intros y [<- | Hy]; [eapply Fle_trans; eassumption | apply Hin, Hy].
Qed.

Lemma fold_left_Fmax_ge r : forall x,
  Fle x Fzero = true -> Forall (fun y => Fle y Fzero = true) r ->
  Fle x (fold_left Fmax r x) = true
  /\ forall y, In y r -> Fle y (fold_left Fmax r x) = true.
Proof.
  induction r as [|z r IH]; intros x Hx Hr; cbn [fold_left].
  - split; [|intros y []]. destruct x; try discriminate; try reflexivity.
    apply Fle_Fin. lra.
  - inversion Hr; subst.
    destruct (Fmax_ge_nonpos x z Hx H1) as [Hmx Hmz].
    destruct (IH (Fmax x z) (Fmax_nonpos _ _ Hx H1) H2) as [Hf Hin].
    split; [eapply Fle_trans; eassumption|].
    intros y [<- | Hy]; [eapply Fle_trans; eassumption | apply Hin, Hy].
Qed.

Lemma jnp_min_masked_le ts m q :
  jnp_min (map (fun x => if Fge x Fzero then x else PosInf) ts) = Some m ->
  In (Fin q) ts -> 0 <= q -> Fle m (Fin q) = true.
Proof.
  set (mask := fun x => if Fge x Fzero then x else PosInf).
  intros Hm Hin Hq.
  assert (Hmask : forall x, Fle Fzero (mask x) = true).
  { intros x. unfold mask, Fge. destruct (Fle Fzero x) eqn:E; [exact E | reflexivity]. }
  assert (Hq' : mask (Fin q) = Fin q).
  { unfold mask, Fge, Fzero. rewrite (proj2 (Fle_Fin 0 q) Hq). reflexivity. }
  destruct ts as [|x r]; [destruct Hin|]. cbn [map jnp_min] in Hm.
  injection Hm as <-.
  destruct (fold_left_Fmin_le (map mask r) (mask x) (Hmask x)) as [Hx Hr].
  { apply Forall_forall. intros y Hy. apply in_map_iff in Hy as (z & <- & _). apply Hmask. }
  destruct Hin as [-> | Hin].
  - rewrite Hq' in Hx |- *. exact Hx.
  - rewrite <- Hq'. apply Hr, in_map, Hin.
Qed.

Lemma jnp_max_masked_ge ts m q :
  jnp_max (map (fun x => if Fle x Fzero then x else NegInf) ts) = Some m ->
  In (Fin q) ts -> q <= 0 -> Fle (Fin q) m = true.
Proof.
  set (mask := fun x => if Fle x Fzero then x else NegInf).
  intros Hm Hin Hq.
  assert (Hmask : forall x, Fle (mask x) Fzero = true).
  { intros x. unfold mask. destruct (Fle x Fzero) eqn:E; [exact E | reflexivity]. }
  assert (Hq' : mask (Fin q) = Fin q).
  { unfold mask, Fzero. rewrite (proj2 (Fle_Fin q 0) Hq). reflexivity. }
  destruct ts as [|x r]; [destruct Hin|]. cbn [map jnp_max] in Hm.
  injection Hm as <-.
  destruct (fold_left_Fmax_ge (map mask r) (mask x) (Hmask x)) as [Hx Hr].
  { apply Forall_forall. intros y Hy. apply in_map_iff in Hy as (z & <- & _). apply Hmask. }
  destruct Hin as [-> | Hin].
  - rewrite Hq' in Hx |- *. exact Hx.
  - rewrite <- Hq'. apply Hr, in_map, Hin.
Qed.

(** The ends of the bracket against the two face crossings of a coordinate
    with a non-zero direction component: every crossing on the right of the
    origin bounds the right end, every crossing on the left bounds the left
    end. *)
Lemma _slice_bounds_crossings point_U0 direction l r i u d :
  _slice_bounds point_U0 direction = Some (l, r) ->
  nth_error point_U0 i = Some (Fin u) ->
  nth_error direction i = Some (Fin d) -> ~ d == 0 ->
  exists x0 x1,
    x0 * d == - u /\ x1 * d == 1 - u
    /\ (0 <= x0 -> Fle r (Fin x0) = true)
    /\ (0 <= x1 -> Fle r (Fin x1) = true)
    /\ (x0 <= 0 -> Fle (Fin x0) l = true)
    /\ (x1 <= 0 -> Fle (Fin x1) l = true).
Proof.
  intros Hb Hu Hd Hd0.
  destruct (Fdiv_finite (Qred (1 + Qred (- u))) d Hd0) as (x1 & Hx1 & Hx1d).
  destruct (Fdiv_finite (Qred (- u)) d Hd0) as (x0 & Hx0 & Hx0d).
  rewrite !Qred_correct in Hx1d. rewrite !Qred_correct in Hx0d.
  assert (Hin1 : In (Fin x1) (map2 (fun u d => Fdiv (Fsub Fone u) d) point_U0 direction)).
  { eapply nth_error_In. rewrite (nth_error_map2 _ _ _ _ _ _ Hu Hd). f_equal. exact Hx1. }
  assert (Hin0 : In (Fin x0) (map2 (fun u d => Fdiv (Fopp u) d) point_U0 direction)).
  { eapply nth_error_In. rewrite (nth_error_map2 _ _ _ _ _ _ Hu Hd). f_equal. exact Hx0. }
  unfold _slice_bounds in Hb.
  destruct (jnp_min (map _ (map2 (fun u d => Fdiv (Fsub Fone u) d) point_U0 direction)))
    as [t1_right|] eqn:E1; [|discriminate].
  destruct (jnp_max (map _ (map2 (fun u d => Fdiv (Fsub Fone u) d) point_U0 direction)))
    as [t1_left|] eqn:E2; [|discriminate].
  destruct (jnp_min (map _ (map2 (fun u d => Fdiv (Fopp u) d) point_U0 direction)))
    as [t0_right|] eqn:E3; [|discriminate].
  destruct (jnp_max (map _ (map2 (fun u d => Fdiv (Fopp u) d) point_U0 direction)))
    as [t0_left|] eqn:E4; [|discriminate].
  injection Hb as <- <-.
  pose proof (jnp_min_masked_nonneg _ _ E1) as N1.
  pose proof (jnp_max_masked_nonpos _ _ E2) as N2.
  pose proof (jnp_min_masked_nonneg _ _ E3) as N3.
  pose proof (jnp_max_masked_nonpos _ _ E4) as N4.
  destruct (Fmin_le_nonneg _ _ N3 N1) as [R0 R1].
  destruct (Fmax_ge_nonpos _ _ N4 N2) as [L0 L1].
  exists x0, x1. split; [lra|]. split; [lra|].
  repeat split; intros Hsign.
  - eapply Fle_trans; [exact R0|]. eapply jnp_min_masked_le; eassumption.
  - eapply Fle_trans; [exact R1|]. eapply jnp_min_masked_le; eassumption.
  - eapply Fle_trans; [|exact L0]. eapply jnp_max_masked_ge; eassumption.
  - eapply Fle_trans; [|exact L1]. eapply jnp_max_masked_ge; eassumption.
Qed.

Lemma nth_error_map2_inv {A B C : Type} (f : A -> B -> C) :
  forall xs ys i z,
    nth_error (map2 f xs ys) i = Some z ->
    exists x y, nth_error xs i = Some x /\ nth_error ys i = Some y /\ z = f x y.
Proof.
  induction xs as [|a xs IH]; intros [|b ys] [|i] z Hz; cbn in *; try discriminate.
  - injection Hz as <-. eauto.
  - apply IH, Hz.
Qed.

Section Geometry.
Context {RNG : JaxRandom}.

Lemma random_uniform_between key l r :
  l <= r ->
  exists tau,
    random_uniform key (Fin l) (Fin r) = Fin tau
    /\ l <= tau <= r /\ (l < r -> tau < r)
    /\ tau == l + uniform01 key * (r - l).
Proof.
  intros Hlr. destruct (uniform01_range key) as [H0 H1].
  unfold random_uniform, Fsub. cbn [Fopp Fadd Fmul Fmax].
  set (x := Qred (Qred (uniform01 key * Qred (r + Qred (- l))) + l)).
  assert (Hx : x == l + uniform01 key * (r - l)).
  { unfold x. rewrite !Qred_correct. ring. }
  assert (Hle : Fle (Fin l) (Fin x) = true) by (apply Fle_Fin; nra).
  rewrite Hle. exists x. split; [reflexivity|].
  split; [nra|]. split; [intros; nra | exact Hx].
Qed.

Lemma _shrink_interval_nested key tau l r lp c l0 ms :
  l <= tau <= r -> l <= 0 <= r ->
  exists l' r',
    _shrink_interval key (Fin tau) (Fin l) (Fin r) lp c l0 ms = (Fin l', Fin r')
    /\ l <= l' <= 0 /\ 0 <= r' <= r
    /\ (tau < 0 -> tau <= l' /\ r' = r)
    /\ (0 < tau -> r' <= tau /\ l' = l)
    /\ (tau == 0 -> l' = l /\ r' = r)
    /\ (ms = false -> tau < 0 -> l' = tau)
    /\ (ms = false -> 0 < tau -> r' = tau).
Proof.
  intros Ht Hlr. destruct (uniform01_range key) as [H0 H1].
  unfold _shrink_interval, Fgt.
  destruct (Flt (Fin tau) Fzero) eqn:Hneg, (Flt Fzero (Fin tau)) eqn:Hpos.
  - apply Flt_Fin in Hneg, Hpos. lra.
  - apply Flt_Fin in Hneg. destruct ms; cbn [Fmul].
    + eexists. exists r. split; [reflexivity|].
      pose proof (Qred_correct (uniform01 key * tau)) as E.
      revert E. generalize (Qred (uniform01 key * tau)). intros x E.
      repeat split; intros; try discriminate; try nra; exfalso; lra.
    + exists tau, r. split; [reflexivity|]. repeat split; try lra; try reflexivity.
  - apply Flt_Fin in Hpos. destruct ms; cbn [Fmul].
    + exists l. eexists. split; [reflexivity|].
      pose proof (Qred_correct (uniform01 key * tau)) as E.
      revert E. generalize (Qred (uniform01 key * tau)). intros x E.
      repeat split; intros; try discriminate; try nra; exfalso; lra.
    + exists l, tau. split; [reflexivity|]. repeat split; try lra; try reflexivity.
  - assert (Hz : tau == 0).
    { destruct (Qlt_le_dec tau 0) as [H | H];
        [apply Flt_Fin in H; unfold Fzero in Hneg; congruence|].
      destruct (Qlt_le_dec 0 tau) as [H' | H'];
        [apply Flt_Fin in H'; unfold Fzero in Hpos; congruence | lra]. }
    exists l, r. split; [destruct ms; reflexivity|]. repeat split; try lra.
Qed.
End Geometry.

(** ** [jnp.argmax] *)

Lemma Fle_refl a : a <> NaN -> Fle a a = true.
Proof. destruct a; try congruence; try reflexivity. intros _. apply Fle_Fin. lra. Qed.

Lemma Flt_false_Fle a b : a <> NaN -> b <> NaN -> Flt a b = false -> Fle b a = true.
Proof.
  destruct a as [| |p|], b as [| |q|]; try congruence; try reflexivity;
    try discriminate.
  intros _ _ H. apply Fle_Fin.
  destruct (Qlt_le_dec p q) as [Hlt | Hle]; [|exact Hle].
  apply Flt_Fin in Hlt. congruence.
Qed.

Lemma argmax_from_bound xs : forall best_i best i,
  (best_i < i)%nat ->
  (argmax_from best_i best i xs < i + List.length xs)%nat.
Proof.
  induction xs as [|x r IH]; intros best_i best i Hi; cbn [argmax_from List.length].
  - lia.
  - destruct (improves x best).
    + specialize (IH i x (S i) ltac:(lia)). lia.
    + specialize (IH best_i best (S i) ltac:(lia)). lia.
Qed.

Lemma jnp_argmax_bound xs j : jnp_argmax xs = Some j -> (j < List.length xs)%nat.
Proof.
  destruct xs as [|x r]; cbn [jnp_argmax]; [discriminate|].
  intros H; injection H as <-.
  pose proof (argmax_from_bound r 0 x 1 ltac:(lia)). cbn [List.length]. lia.
Qed.

Lemma argmax_from_max xs : forall pre best_i best,
  Forall (fun y => y <> NaN) (pre ++ xs) ->
  nth_error (pre ++ xs) best_i = Some best ->
  (forall y, In y pre -> Fle y best = true) ->
  exists v,
    nth_error (pre ++ xs) (argmax_from best_i best (List.length pre) xs) = Some v
    /\ forall y, In y (pre ++ xs) -> Fle y v = true.
Proof.
  induction xs as [|x r IH]; intros pre best_i best Hnan Hbest Hpre;
    cbn [argmax_from].
  - exists best. split; [exact Hbest|]. rewrite app_nil_r. exact Hpre.
  - assert (Hx : x <> NaN).
    { apply (proj1 (Forall_forall _ _) Hnan). apply in_or_app. right. left. reflexivity. }
    assert (Hb : best <> NaN).
    { apply (proj1 (Forall_forall _ _) Hnan). eapply nth_error_In, Hbest. }
    assert (E : pre ++ x :: r = (pre ++ [x]) ++ r) by (rewrite <- app_assoc; reflexivity).
    assert (Himp : improves x best = Flt best x).
    { destruct best, x; try congruence; reflexivity. }
    rewrite Himp. destruct (Flt best x) eqn:Hlt.
    + specialize (IH (pre ++ [x]) (List.length pre) x).
      rewrite <- E, last_length in IH. apply IH; [exact Hnan | |].
      * rewrite nth_error_app2 by lia. rewrite Nat.sub_diag. reflexivity.
      * intros y Hy. apply in_app_or in Hy as [Hy | [<- | []]].
        -- eapply Fle_trans; [apply Hpre, Hy | apply Flt_Fle, Hlt].
        -- apply Fle_refl, Hx.
    + specialize (IH (pre ++ [x]) best_i best).
      rewrite <- E, last_length in IH. apply IH; [exact Hnan | exact Hbest |].
      intros y Hy. apply in_app_or in Hy as [Hy | [<- | []]].
      * apply Hpre, Hy.
      * apply Flt_false_Fle; assumption.
Qed.

Lemma jnp_argmax_max xs j :
  Forall (fun y => y <> NaN) xs ->
  jnp_argmax xs = Some j ->
  exists v, nth_error xs j = Some v /\ forall y, In y xs -> Fle y v = true.
Proof.
  destruct xs as [|x r]; cbn [jnp_argmax]; [discriminate|].
  intros Hnan H; injection H as <-.
  apply (argmax_from_max r [x] 0%nat x Hnan eq_refl).
  intros y [<- | []]. apply Fle_refl.
  apply (proj1 (Forall_forall _ _) Hnan). left. reflexivity.
Qed.

(** ** The walk of a slice proposal *)

Section SliceWalk.
Context {RNG : JaxRandom} {model : BaseAbstractModel} {num : Numerics}.

Lemma _sample_direction_length key n :
  List.length (_sample_direction key n) = n.
Proof.
  unfold _sample_direction. destruct (Nat.eqb_spec n 1) as [-> | Hn]; [reflexivity|].
  unfold random_normal. rewrite !length_map, length_seq. reflexivity.
Qed.

Lemma init_carry_inv seed key pf gs e c0 e0 :
  init_carry seed key pf gs e = Returns c0 e0 ->
  (exists lb,
      _slice_bounds (U0 seed) (c_direction c0) = Some (lb, c_right c0)
      /\ Fle lb (c_left c0) = true
      /\ (gs = false -> lb = c_left c0))
  /\ c_t c0 = random_uniform (split_at key 3 2) (c_left c0) (c_right c0)
  /\ on_slice seed c0 c0
  /\ (gs = false ->
      pf = true
      /\ c_direction c0 = _sample_direction (split_at key 3 1) (List.length (U0 seed))
      /\ c_num_likelihood_evaluations c0 = 0%Z /\ e0 = S e)
  /\ (gs = true ->
      c_left c0 = Fzero /\ c_num_likelihood_evaluations c0 = 1%Z /\ e0 = S (S e)).
Proof.
  unfold init_carry. intros Hrun.
  apply bind_Returns in Hrun as ([[[d n] l] r] & e1 & Hdir & Hrun).
  unfold _pick_point_in_interval in Hrun.
  apply bind_Returns in Hrun as (lL & e2 & Hfw & Hrun).
  apply ret_Returns in Hrun as [<- <-].
  unfold model_forward in Hfw. injection Hfw as <- <-.
  unfold on_slice. cbn [c_left c_right c_t c_direction c_point_U c_log_L
                         c_num_likelihood_evaluations].
  destruct gs.
  - apply bind_Returns in Hdir as (g & eg & Hg & Hdir). cbv zeta in Hdir.
    unfold model_grad in Hg. injection Hg as _ <-.
    apply bind_Returns in Hdir as ([l1 r1] & eb & Hb & Hdir).
    apply lift_option_Returns in Hb as [Hb <-].
    apply ret_Returns in Hdir as [Hdir <-].
    injection Hdir as <- <- <- <-.
    pose proof (_slice_bounds_bracket _ _ _ _ Hb) as [Hl1 _].
    repeat split; try discriminate.
    exists l1. repeat split; [exact Hb | exact Hl1 | discriminate].
  - destruct pf; [|discriminate].
    apply bind_Returns in Hdir as ([l1 r1] & eb & Hb & Hdir).
    apply lift_option_Returns in Hb as [Hb <-].
    apply ret_Returns in Hdir as [Hdir <-].
    injection Hdir as <- <- <- <-.
    pose proof (_slice_bounds_bracket _ _ _ _ Hb) as [Hl1 _].
    repeat split; try discriminate.
    exists l1. repeat split; [exact Hb|].
    apply Fle_refl. intros ->. discriminate Hl1.
Qed.

Lemma body_step seed ms c carry e carry' e' :
  body seed ms c carry e = Returns carry' e' ->
  (c_left carry', c_right carry')
  = _shrink_interval (split_at (c_key carry) 3 2) (c_t carry) (c_left carry)
      (c_right carry) (c_log_L carry) c (log_L0 seed) ms
  /\ c_t carry'
     = random_uniform (split_at (c_key carry) 3 1) (c_left carry') (c_right carry')
  /\ c_direction carry' = c_direction carry
  /\ c_point_U carry'
     = map2 (fun u d => Fadd u (Fmul (c_t carry') d)) (U0 seed) (c_direction carry')
  /\ c_log_L carry' = forward (c_point_U carry').
Proof.
  unfold body.
  destruct (_shrink_interval _ _ _ _ _ _ _ _) as [l r].
  unfold _pick_point_in_interval.
  intros Hrun. apply bind_Returns in Hrun as (lL & e1 & Hfw & Hrun).
  apply ret_Returns in Hrun as [<- _].
  unfold model_forward in Hfw. injection Hfw as <- _.
  cbn. repeat split.
Qed.

Lemma visited_on_slice seed ms c c0 carry :
  on_slice seed c0 c0 ->
  visited (cond seed c) (body seed ms c) c0 carry ->
  on_slice seed c0 carry.
Proof.
  intros H0 Hv.
  apply (visited_inv (cond seed c) (body seed ms c) (on_slice seed c0))
    with (s := c0); [|exact Hv|exact H0].
  intros s e s1 e1 (Hd & _ & _) _ Hb.
  apply body_step in Hb as (_ & _ & Hd1 & Hp1 & HL1).
  split; [congruence|]. split; [exact Hp1 | exact HL1].
Qed.

Lemma visited_within_bracket seed ms c c0 carry :
  within_bracket c0 c0 ->
  visited (cond seed c) (body seed ms c) c0 carry ->
  within_bracket c0 carry.
Proof.
  intros H0 Hv.
  apply (visited_inv (cond seed c) (body seed ms c) (within_bracket c0))
    with (s := c0); [|exact Hv|exact H0].
  intros s e s1 e1 (l0 & r0 & l & r & tau & Hl0 & Hr0 & Hl & Hr & Ht & Hnl & Hnr & Hin)
    _ Hb.
  apply body_step in Hb as (Hshr & Ht1 & _).
  rewrite Hl, Hr, Ht in Hshr.
  destruct (_shrink_interval_nested (split_at (c_key s) 3 2) tau l r (c_log_L s) c
              (log_L0 seed) ms Hin ltac:(lra))
    as (l' & r' & Hs & Hl' & Hr' & _).
  rewrite Hs in Hshr. injection Hshr as Hl1 Hr1.
  rewrite Hl1, Hr1 in Ht1.
  destruct (random_uniform_between (split_at (c_key s) 3 1) l' r' ltac:(lra))
    as (tau' & Htau' & Hin' & _).
  exists l0, r0, l', r', tau'. rewrite Ht1, Htau'.
  repeat split; try assumption; lra.
Qed.

Lemma init_within_bracket seed key pf gs e c0 e0 :
  init_carry seed key pf gs e = Returns c0 e0 ->
  isfinite (c_left c0) = true -> isfinite (c_right c0) = true ->
  within_bracket c0 c0.
Proof.
  intros Hinit Hfl Hfr.
  pose proof (init_carry_bracket _ _ _ _ _ _ _ Hinit) as (Hl & Hr & Ht).
  destruct (c_left c0) as [| |l|] eqn:El; try discriminate.
  destruct (c_right c0) as [| |r|] eqn:Er; try discriminate.
  apply Fle_Fin in Hl, Hr.
  destruct (random_uniform_between (split_at key 3 2) l r ltac:(lra))
    as (tau & Htau & Hin & _).
  exists l, r, l, r, tau. rewrite Ht, Htau.
  repeat split; try assumption; try reflexivity; lra.
Qed.

End SliceWalk.

(** ** The geometry of a slice *)

(** X2 -- the bracket in one dimension.  For a one-dimensional seed strictly
    inside the unit interval, the direction is the scalar one and the bracket
    of [_slice_bounds] is the whole unit interval seen from the seed:
    [[-u, 1 - u]]. *)
Theorem one_dimensional_bracket
  {RNG : JaxRandom} {num : Numerics} (n_key : PRNGKey) (u : Q) :
  0 < u -> u < 1 ->
  exists l r,
    _slice_bounds [Fin u] (_sample_direction n_key 1) = Some (Fin l, Fin r)
    /\ l == - u /\ r == 1 - u.
Proof.
  intros H0 H1.
  change (_sample_direction n_key 1) with [Fone].
  unfold _slice_bounds. cbn [map2 map jnp_min jnp_max fold_left].
  destruct (Fdiv_finite (Qred (1 + Qred (- u))) 1 ltac:(discriminate))
    as (x1 & Hx1 & Hx1d).
  destruct (Fdiv_finite (Qred (- u)) 1 ltac:(discriminate)) as (x0 & Hx0 & Hx0d).
  rewrite !Qred_correct in Hx1d. rewrite !Qred_correct in Hx0d.
  change (Fsub Fone (Fin u)) with (Fin (Qred (1 + Qred (- u)))).
  change (Fopp (Fin u)) with (Fin (Qred (- u))).
  unfold Fone. rewrite !Hx1, !Hx0. unfold Fge, Fzero.
  rewrite (proj2 (Fle_Fin 0 x1)) by lra.
  rewrite (proj2 (Fle_Fin x0 0)) by lra.
  destruct (Fle (Fin x1) (Fin 0)) eqn:E1; [apply Fle_Fin in E1; lra|].
  destruct (Fle (Fin 0) (Fin x0)) eqn:E0; [apply Fle_Fin in E0; lra|].
  cbn. exists x0, x1. split; [reflexivity|]. split; lra.
Qed.

Lemma one_dimensional_bracket_witness :
  exists l r,
    _slice_bounds [Fin (1 # 4)]
      (_sample_direction (RNG := Example.rng) (num := Example.float64) 7%N 1)
    = Some (Fin l, Fin r)
    /\ l == - (1 # 4) /\ r == 1 - (1 # 4).
Proof.
  apply (one_dimensional_bracket (RNG := Example.rng) (num := Example.float64) 7%N (1 # 4));
    reflexivity.
Defined.

(** X3 -- a seed on a face of the unit cube.  When a coordinate of the seed
    is exactly [0] or [1] and the direction has a non-zero component along it,
    the crossing of that face at [t = 0] bounds the bracket on both sides:
    the bracket of [_slice_bounds] is the single point [0]. *)
Theorem seed_on_face_collapses_bracket
  (point_U0 direction : list float_type) (i : nat) (u d : Q) :
  nth_error point_U0 i = Some (Fin u) -> u == 0 \/ u == 1 ->
  nth_error direction i = Some (Fin d) -> ~ d == 0 ->
  exists l r,
    _slice_bounds point_U0 direction = Some (Fin l, Fin r) /\ l == 0 /\ r == 0.
Proof.
  intros Hu Hface Hd Hd0.
  destruct (_slice_bounds_finite point_U0 direction i u d Hu ltac:(lra) Hd Hd0)
    as (l & r & Hb).
  exists l, r. split; [exact Hb|].
  pose proof (_slice_bounds_bracket _ _ _ _ Hb) as [Hl Hr].
  apply Fle_Fin in Hl, Hr.
  destruct (_slice_bounds_crossings _ _ _ _ _ _ _ Hb Hu Hd Hd0)
    as (x0 & x1 & H0 & H1 & R0 & R1 & L0 & L1).
  destruct Hface as [Hz | Hz].
  - assert (Hx : x0 == 0).
    { apply (Qmult_inj_r x0 0 d Hd0). lra. }
    pose proof (R0 ltac:(lra)) as A. pose proof (L0 ltac:(lra)) as B.
    apply Fle_Fin in A, B. lra.
  - assert (Hx : x1 == 0).
    { apply (Qmult_inj_r x1 0 d Hd0). lra. }
    pose proof (R1 ltac:(lra)) as A. pose proof (L1 ltac:(lra)) as B.
    apply Fle_Fin in A, B. lra.
Qed.

Lemma seed_on_face_collapses_bracket_witness :
  exists l r,
    _slice_bounds [Fin (1 # 2); Fin 0] [Fin (3 # 5); Fin (4 # 5)] = Some (Fin l, Fin r)
    /\ l == 0 /\ r == 0.
Proof.
  apply (seed_on_face_collapses_bracket _ _ 1%nat 0 (4 # 5)).
  - reflexivity.
  - left. reflexivity.
  - reflexivity.
  - discriminate.
Defined.

(** X4 -- the shrink step never widens the bracket and cuts at the rejected
    point.  For a bracket [l <= 0 <= r] with finite ends and a rejected point
    [t] inside it, the new bracket has finite ends, lies inside the old one
    and still contains the origin; the side of [t] is cut at [t] or beyond
    (exactly at [t] without [midpoint_shrink]), the other side is untouched,
    and a rejected [t = 0] changes nothing. *)
Theorem shrink_never_widens {RNG : JaxRandom}
  (key : PRNGKey) (tau l r : Q) (log_L_proposal log_L_constraint log_L0 : float_type)
  (midpoint : bool) :
  l <= tau <= r -> l <= 0 <= r ->
  exists l' r',
    _shrink_interval key (Fin tau) (Fin l) (Fin r) log_L_proposal log_L_constraint
      log_L0 midpoint
    = (Fin l', Fin r')
    /\ l <= l' <= 0 /\ 0 <= r' <= r
    /\ (tau < 0 -> tau <= l' /\ r' = r)
    /\ (0 < tau -> r' <= tau /\ l' = l)
    /\ (tau == 0 -> l' = l /\ r' = r)
    /\ (midpoint = false -> tau < 0 -> l' = tau)
    /\ (midpoint = false -> 0 < tau -> r' = tau).
Proof. intros Ht Hlr. apply _shrink_interval_nested; assumption. Qed.

Lemma shrink_never_widens_witness :
  exists l' r',
    _shrink_interval (RNG := Example.rng) 5%N (Fin (1 # 4)) (Fin (-1 # 4)) (Fin (3 # 4))
      (Fin 0) (Fin (1 # 2)) (Fin 1) true
    = (Fin l', Fin r')
    /\ -1 # 4 <= l' <= 0 /\ 0 <= r' <= 3 # 4
    /\ (1 # 4 < 0 -> 1 # 4 <= l' /\ r' = 3 # 4)
    /\ (0 < 1 # 4 -> r' <= 1 # 4 /\ l' = -1 # 4)
    /\ (1 # 4 == 0 -> l' = -1 # 4 /\ r' = 3 # 4)
    /\ (true = false -> 1 # 4 < 0 -> l' = 1 # 4)
    /\ (true = false -> 0 < 1 # 4 -> r' = 1 # 4).
Proof.
  apply (shrink_never_widens (RNG := Example.rng)); split; discriminate.
Defined.

(** ** Proposals of a slice *)

Lemma map2_length {A B C : Type} (f : A -> B -> C) :
  forall xs ys, List.length (map2 f xs ys) = Nat.min (List.length xs) (List.length ys).
Proof.
  induction xs as [|x xs IH]; intros [|y ys]; cbn [map2 List.length]; try reflexivity.
  rewrite IH. reflexivity.
Qed.

Lemma _slice_bounds_some point_U0 direction :
  point_U0 <> [] -> direction <> [] ->
  exists b, _slice_bounds point_U0 direction = Some b.
Proof.
  intros Hu Hd. destruct point_U0 as [|u us]; [congruence|].
  destruct direction as [|d ds]; [congruence|].
  unfold _slice_bounds. cbn [map2 map jnp_min jnp_max]. eauto.
Qed.

Section ProposalWalk.
Context {RNG : JaxRandom} {model : BaseAbstractModel} {num : Numerics}.

Lemma body_returns seed ms c carry e :
  exists carry', body seed ms c carry e = Returns carry' (S e).
Proof.
  unfold body.
  destruct (_shrink_interval _ _ _ _ _ _ _ _) as [l r].
  destruct (_pick_point_in_interval _ _ _ _ _) as [pU t].
  eexists. reflexivity.
Qed.

Lemma loop_never_raises seed ms c fuel : forall carry e x,
  while_loop fuel (cond seed c) (body seed ms c) carry e <> Raises x.
Proof.
  induction fuel as [|fuel IH]; intros carry e x; cbn [while_loop];
    destruct (cond seed c carry); try discriminate.
  destruct (body_returns seed ms c carry e) as (carry' & Hb).
  unfold bind. rewrite Hb. apply IH.
Qed.

Lemma init_carry_returns seed key e :
  U0 seed <> [] ->
  exists c0, init_carry seed key true false e = Returns c0 (S e).
Proof.
  intros Hne. unfold init_carry.
  assert (Hd : _sample_direction (split_at key 3 1) (List.length (U0 seed)) <> []).
  { intros E. apply (f_equal (@List.length _)) in E.
    rewrite _sample_direction_length in E. destruct (U0 seed); [congruence | discriminate]. }
  destruct (_slice_bounds_some _ _ Hne Hd) as ([l r] & Hb).
  unfold bind. rewrite Hb. cbn [lift_option ret].
  destruct (_pick_point_in_interval _ _ _ _ _) as [pU t]. cbn.
  eexists. reflexivity.
Qed.

(** X6 -- the errors of [_new_proposal].  Without the perfect mode and without
    a gradient slice it raises [NotImplementedError]; on a zero-dimensional
    seed it raises the [ValueError] of the empty reduction, in perfect mode
    and with a gradient slice alike; in perfect mode without gradient slice,
    on a seed of at least one dimension, it never raises. *)
Theorem new_proposal_errors :
  (forall seed midpoint c fuel key e,
      _new_proposal seed midpoint c fuel key false false e
      = Raises (NotImplementedError "TODO: implement doubling step out"))
  /\
  (forall seed midpoint c fuel key perfect_mode gradient e,
      U0 seed = [] -> perfect_mode = true \/ gradient = true ->
      _new_proposal seed midpoint c fuel key perfect_mode gradient e = Raises zero_size)
  /\
  (forall seed midpoint c fuel key e x,
      U0 seed <> [] ->
      _new_proposal seed midpoint c fuel key true false e <> Raises x).
Proof.
  split; [|split].
  - reflexivity.
  - intros seed ms c fuel key pf gs e Hempty Hmode.
    unfold _new_proposal, final_carry, init_carry, bind. rewrite Hempty.
    destruct gs; [reflexivity|].
    destruct Hmode as [-> | H]; [reflexivity | discriminate].
  - intros seed ms c fuel key e x Hne.
    unfold _new_proposal, final_carry.
    destruct (init_carry_returns seed key e Hne) as (c0 & Hinit).
    unfold bind. rewrite Hinit.
    pose proof (loop_never_raises seed ms c fuel c0 (S e)) as Hloop.
    destruct (while_loop fuel (cond seed c) (body seed ms c) c0 (S e)) as [carry e1|y|];
      [discriminate | | discriminate].
    exfalso. apply (Hloop y). reflexivity.
Qed.
End ProposalWalk.

Lemma new_proposal_errors_witness :
  _new_proposal (RNG := Example.rng) (model := Example.spike_model)
    (num := Example.float64) {| U0 := []; log_L0 := Fin 0 |} false (Fin 0) 5 7%N
    true false 0%nat
  = Raises zero_size
  /\ (forall x,
        _new_proposal (RNG := Example.rng) (model := Example.spike_model)
          (num := Example.float64) Example.spike_seed false (Fin (1 # 2)) 5 7%N
          true false 0%nat
        <> Raises x).
Proof.
  destruct (@new_proposal_errors Example.rng Example.spike_model Example.float64)
    as (_ & Hempty & Hnever).
  split.
  - apply Hempty; [reflexivity | left; reflexivity].
  - intros x. apply Hnever. discriminate.
Defined.

(** ** Samples of a chain *)

Lemma scan_outputs {V X : Type} (op : V -> X -> M V) (Q : V -> Prop) :
  (forall v x e v' e', op v x e = Returns v' e' -> Q v') ->
  forall xs init e final out e',
    cumulative_op_static op init xs e = Returns (final, out) e' ->
    Forall Q out /\ (xs <> [] -> Q final).
Proof.
  intros Hstep xs init e final out e' Hrun.
  pose proof (cumulative_op_static_spec op xs init e final out e' Hrun)
    as (Hlen & Hlast & Hsteps).
  assert (Hout : Forall Q out).
  { apply Forall_forall. intros s Hs. apply In_nth_error in Hs as (i & Hi).
    apply Hsteps in Hi as (x & e1 & e2 & _ & Hop). eapply Hstep, Hop. }
  split; [exact Hout|]. intros Hne. rewrite Hlast.
  destruct out as [|s out]; [destruct xs; [congruence | discriminate]|].
  rewrite last_cons.
  assert (Hin : In (last out s) (s :: out)).
  { destruct out as [|s' out]; [left; reflexivity|].
    right. apply (@nth_error_In _ _ (List.length (s' :: out) - 1)).
    apply nth_error_last. discriminate. }
  apply (proj1 (Forall_forall _ _) Hout _ Hin).
Qed.

Lemma py_slice_incl {A : Type} (xs : list A) (start stop : Z) (x : A) :
  In x (py_slice xs start stop) -> In x xs.
Proof.
  unfold py_slice. intros Hin.
  set (lo := Z.to_nat (py_clip (Z.of_nat (List.length xs)) start)) in *.
  set (n := Z.to_nat (py_clip (Z.of_nat (List.length xs)) stop
                      - py_clip (Z.of_nat (List.length xs)) start)) in *.
  rewrite <- (firstn_skipn lo xs). apply in_or_app. right.
  rewrite <- (firstn_skipn n (skipn lo xs)). apply in_or_app. left. exact Hin.
Qed.

Section ChainSamples.
Context {RNG : JaxRandom} {model : BaseAbstractModel} {num : Numerics}.
Context {StaticStandardSampleCollection : Type}.
Implicit Type st : SamplerState StaticStandardSampleCollection.

Lemma emitted_from_scan self fuel key seed c st e final phantoms e' (Q : Sample -> Prop) :
  (1 <= num_slices self)%Z ->
  (forall s k, Q s -> Q (replace_num_likelihood_evaluations s k)) ->
  (forall last_sample cumulative_samples,
      chain self fuel key seed c e = Returns (last_sample, cumulative_samples) e' ->
      Forall Q cumulative_samples /\ Q last_sample) ->
  get_sample_from_seed self fuel key seed c st e = Returns (final, phantoms) e' ->
  Forall Q (final :: phantoms).
Proof.
  intros Hn Hrep Hchain Hrun.
  apply get_sample_from_seed_inv in Hrun as (fs & cum & Hc & -> & ->).
  destruct (Hchain _ _ Hc) as [Hcum Hfs].
  constructor; [apply Hrep, Hfs|].
  apply Forall_forall. intros s Hs. apply in_map_iff in Hs as (s0 & <- & Hs0).
  apply Hrep. apply (proj1 (Forall_forall _ _) Hcum). eapply py_slice_incl, Hs0.
Qed.

Lemma propose_op_on_slice self fuel c sample key e s e' :
  propose_op self fuel c sample key e = Returns s e' ->
  log_L s = forward (U_sample s) /\ log_L_constraint s = c
  /\ exists c0 e0 carry,
      init_carry {| U0 := U_sample sample; log_L0 := log_L sample |} key
        (perfect self) (gradient_slice self) e = Returns c0 e0
      /\ visited (cond {| U0 := U_sample sample; log_L0 := log_L sample |} c)
           (body {| U0 := U_sample sample; log_L0 := log_L sample |}
              (midpoint_shrink self) c) c0 carry
      /\ U_sample s = c_point_U carry
      /\ cond {| U0 := U_sample sample; log_L0 := log_L sample |} c carry = false
      /\ num_likelihood_evaluations s
         = (c_num_likelihood_evaluations carry + num_likelihood_evaluations sample)%Z.
Proof.
  intros Hrun. apply propose_op_inv in Hrun as (carry & Hfin & ->).
  cbn [log_L U_sample log_L_constraint num_likelihood_evaluations].
  pose proof (final_carry_visited _ _ _ _ _ _ _ _ _ _ Hfin) as (c0 & e0 & Hinit & Hv).
  pose proof (init_carry_inv _ _ _ _ _ _ _ Hinit) as (_ & _ & Hs0 & _).
  pose proof (visited_on_slice _ _ _ _ _ Hs0 Hv) as (_ & _ & HL).
  split; [exact HL|]. split; [reflexivity|].
  exists c0, e0, carry. repeat split; try assumption.
  unfold final_carry in Hfin.
  apply bind_Returns in Hfin as (c0' & e0' & _ & Hloop).
  eapply (while_loop_inv _ _ (fun _ _ => True)) in Hloop as [_ Hc]; [exact Hc | auto | exact I].
Qed.

(** X7 -- the likelihood of an emitted sample is the model's.  Every sample
    that [get_sample_from_seed] returns (the terminal sample and each
    phantom) carries the likelihood of the model at its own point, and the
    constraint the sampler was called with. *)
Theorem emitted_likelihood_is_model_value
  n p ms pf gs self fuel key seed c st e final phantoms e' :
  __init__ n p ms pf gs = inr self ->
  get_sample_from_seed self fuel key seed c st e = Returns (final, phantoms) e' ->
  Forall (fun s => log_L s = forward (U_sample s) /\ log_L_constraint s = c)
    (final :: phantoms).
Proof.
  intros Hinit Hrun.
  pose proof (init_valid _ _ _ _ _ _ Hinit) as [(Hn & Hp & Hpn) _].
  eapply emitted_from_scan; [exact Hn | | | exact Hrun].
  - intros s k Hs. exact Hs.
  - intros fs cum Hchain. unfold chain in Hchain.
    eapply scan_outputs in Hchain as [Hout Hfs].
    + split; [exact Hout|]. apply Hfs.
      unfold random_split. intros E. apply (f_equal (@List.length _)) in E.
      rewrite length_map, length_seq in E. cbn in E. lia.
    + intros v x e1 v' e2 Hop. apply propose_op_on_slice in Hop as (HL & Hc & _). auto.
Qed.

End ChainSamples.

Lemma emitted_likelihood_is_model_value_witness :
  Forall (fun s => log_L s = forward (BaseAbstractModel := Example.total_model) (U_sample s)
                   /\ log_L_constraint s = Fin (1 # 2))
    [Example.sample_at (3 # 4) 1;
     Example.sample_at (13 # 16) 1; Example.sample_at (3 # 4) 1].
Proof.
  apply (emitted_likelihood_is_model_value
           (RNG := Example.rng) (model := Example.total_model) (num := Example.float64)
           (StaticStandardSampleCollection := unit)
           3 2 false true false (Example.slice_sampler 3 2 false)
           10 7%N Example.seed (Fin (1 # 2)) (tuple1 tt) 0%nat _ _ 6%nat).
  - reflexivity.
  - vm_compute. reflexivity.
Defined.

(** ** A chain without constraint *)

Section Unconstrained.
Context {RNG : JaxRandom} {model : BaseAbstractModel} {num : Numerics}.
Context {StaticStandardSampleCollection : Type}.
Implicit Type st : SamplerState StaticStandardSampleCollection.

Lemma while_loop_done {S : Type} (cond_fun : S -> bool) (body_fun : S -> M S) fuel s e :
  cond_fun s = false -> while_loop fuel cond_fun body_fun s e = Returns s e.
Proof. intros Hc. destruct fuel; cbn [while_loop]; rewrite Hc; reflexivity. Qed.

Lemma propose_op_unconstrained self fuel sample key e :
  perfect self = true -> gradient_slice self = false ->
  U_sample sample <> [] ->
  (forall U, Fgt (forward U) NegInf = true) ->
  exists s,
    propose_op self fuel NegInf sample key e = Returns s (S e)
    /\ U_sample s <> []
    /\ num_likelihood_evaluations s = num_likelihood_evaluations sample.
Proof.
  intros Hpf Hgs Hne Hmodel.
  set (seed := {| U0 := U_sample sample; log_L0 := log_L sample |}).
  destruct (init_carry_returns seed key e Hne) as (c0 & Hinit).
  pose proof (init_carry_inv _ _ _ _ _ _ _ Hinit) as (_ & _ & (_ & Hp & HL) & Hng & _).
  destruct (Hng eq_refl) as (_ & Hd & Hcount & _).
  assert (Hc : cond seed NegInf c0 = false).
  { unfold cond. rewrite HL, Hmodel, orb_true_r. reflexivity. }
  assert (Hfin : final_carry seed (midpoint_shrink self) NegInf fuel key true false e
                 = Returns c0 (S e)).
  { unfold final_carry, bind. rewrite Hinit. apply while_loop_done, Hc. }
  unfold propose_op, _new_proposal. rewrite Hpf, Hgs.
  change {| U0 := U_sample sample; log_L0 := log_L sample |} with seed.
  unfold bind. rewrite Hfin. cbn [ret].
  eexists. split; [reflexivity|]. cbn [U_sample num_likelihood_evaluations].
  split; [|rewrite Hcount; lia].
  intros E. apply (f_equal (@List.length _)) in E.
  rewrite Hp, Hd, map2_length, _sample_direction_length, Nat.min_id in E.
  cbn [U0 seed] in E. destruct (U_sample sample); [congruence | discriminate].
Qed.

Lemma scan_unconstrained self fuel :
  perfect self = true -> gradient_slice self = false ->
  (forall U, Fgt (forward U) NegInf = true) ->
  forall keys init e,
    U_sample init <> [] ->
    exists final out,
      cumulative_op_static (propose_op self fuel NegInf) init keys e
      = Returns (final, out) (e + List.length keys)
      /\ num_likelihood_evaluations final = num_likelihood_evaluations init.
Proof.
  intros Hpf Hgs Hmodel. induction keys as [|k keys IH]; intros init e Hne;
    cbn [cumulative_op_static List.length].
  - exists init, []. rewrite Nat.add_0_r. split; reflexivity.
  - destruct (propose_op_unconstrained self fuel init k e Hpf Hgs Hne Hmodel)
      as (s & Hop & Hs & Hcount).
    destruct (IH s (S e) Hs) as (final & out & Hrest & Hfin).
    exists final, (s :: out). unfold bind. rewrite Hop, Hrest. cbn [ret].
    replace (e + S (List.length keys))%nat with (S e + List.length keys)%nat by lia.
    split; [reflexivity | congruence].
Qed.

(** X9 -- a chain without constraint accepts every first proposal.  With the
    constraint at minus infinity and a model whose likelihood is never NaN or
    minus infinity, [get_sample_from_seed] (without gradient slice, on a seed
    of at least one dimension) returns under any iteration cap, even zero: it
    evaluates the model once per slice, and every sample it returns reports
    zero evaluations. *)
Theorem unconstrained_chain_accepts_at_once
  n p ms pf gs self fuel key seed st e :
  __init__ n p ms pf gs = inr self ->
  gradient_slice self = false ->
  U0 seed <> [] ->
  (forall U, Fgt (forward U) NegInf = true) ->
  exists final phantoms,
    get_sample_from_seed self fuel key seed NegInf st e
    = Returns (final, phantoms) (e + Z.to_nat n)
    /\ Forall (fun s => num_likelihood_evaluations s = 0%Z) (final :: phantoms).
Proof.
  intros Hinit Hgs Hne Hmodel.
  pose proof (init_valid _ _ _ _ _ _ Hinit) as [(Hn & Hp & Hpn) Hpf].
  destruct (init_attributes _ _ _ _ _ _ Hinit) as [Hsn Hsp].
  destruct (scan_unconstrained self fuel Hpf Hgs Hmodel
              (random_split key (Z.to_nat (num_slices self)))
              (init_sample seed NegInf) e Hne)
    as (fs & cum & Hchain & Hcount).
  unfold random_split in Hchain at 2. rewrite length_map, length_seq in Hchain.
  cbn [init_sample num_likelihood_evaluations] in Hcount.
  rewrite <- Hsn. unfold get_sample_from_seed, chain, bind. rewrite Hchain. cbn [ret].
  eexists. eexists. split; [reflexivity|].
  rewrite Hcount. unfold per_accepted_sample, per_phantom_sample.
  rewrite Z.quot_0_l by lia.
  constructor; [cbn; lia|].
  apply Forall_forall. intros s Hs. apply in_map_iff in Hs as (s0 & <- & _). reflexivity.
Qed.
End Unconstrained.

Lemma unconstrained_chain_accepts_at_once_witness :
  exists final phantoms,
    get_sample_from_seed
      (RNG := Example.rng) (model := MoreExamples.flat_model) (num := Example.float64)
      (Example.slice_sampler 3 2 false) 0 7%N Example.seed NegInf (tuple1 tt) 0%nat
    = Returns (final, phantoms) (0 + Z.to_nat 3)
    /\ Forall (fun s => num_likelihood_evaluations s = 0%Z) (final :: phantoms).
Proof.
  apply (unconstrained_chain_accepts_at_once
           (RNG := Example.rng) (model := MoreExamples.flat_model) (num := Example.float64)
           (StaticStandardSampleCollection := unit)
           3 2 false true false (Example.slice_sampler 3 2 false)).
  - reflexivity.
  - reflexivity.
  - discriminate.
  - intros U. reflexivity.
Defined.

(** ** More on the rejection sampler *)

Lemma filter_none {A : Type} (f : A -> bool) (l : list A) :
  (forall x, In x l -> f x = false) -> filter f l = [].
Proof.
  induction l as [|a l IH]; intros H; cbn [filter]; [reflexivity|].
  rewrite (H a (or_introl eq_refl)). apply IH. intros x Hx. apply H. right. exact Hx.
Qed.

Lemma relaxations_none bound m :
  Fgt (Fin (inject_Z (Z.of_nat m))) bound = false -> relaxations bound m = 0%nat.
Proof.
  intros Hm. unfold relaxations. rewrite filter_none; [reflexivity|].
  intros k Hk. apply in_seq in Hk.
  destruct (Fgt (Fin (inject_Z (Z.of_nat k))) bound) eqn:E; [|reflexivity].
  apply (exceeds_subsequent bound (Z.of_nat k) (Z.of_nat m)) in E; [congruence | lia].
Qed.

(** A zero threshold gives an infinite bound, which no attempt number exceeds. *)
Lemma one_over_zero x :
  Feqb x Fzero = true -> MultiellipsoidalSampler.one_over x = PosInf.
Proof.
  unfold Feqb, Fzero, MultiellipsoidalSampler.one_over.
  destruct x as [| |q|]; cbn [Fcompare]; try discriminate.
  unfold Fone. cbn [Fdiv]. destruct (q ?= 0); try discriminate. reflexivity.
Qed.

Section RejectionSample.
Import MultiellipsoidalSampler.
Context {RNG : JaxRandom} {model : BaseAbstractModel} {ell : EllipsoidUnion}.
Context {LivePoints : Type}.

(** X10 -- the sample of the rejection sampler is the point it evaluated.
    When [get_sample] returns, the likelihood of the sample is the model's at
    the sample's point, its evaluation count is the number of model
    evaluations performed, at least one, and it is marked independent with no
    slices. *)
Theorem rejection_sample_is_evaluated_point
  self preprocess_data fuel key0 c (live_points : LivePoints) e sample e' :
  get_sample self preprocess_data fuel key0 c live_points e = Returns sample e' ->
  log_L sample = forward (point_U sample)
  /\ Z.of_nat e' = (Z.of_nat e + num_likelihood_evaluations sample)%Z
  /\ (1 <= num_likelihood_evaluations sample)%Z
  /\ num_slices sample = 0%Z /\ iid sample = true.
Proof.
  unfold get_sample. intros Hrun.
  apply bind_Returns in Hrun as (s & e1 & Hfin & Hrun).
  apply ret_Returns in Hrun as [<- <-].
  apply final_carry_state_inv in Hfin as [(m & Hm & -> & _ & _ & _ & _ & Hacc) Hdone].
  destruct (Hacc Hdone) as (Hm1 & HU & HL & _).
  cbn [log_L point_U num_likelihood_evaluations num_slices iid].
  rewrite HU, HL, Hm. repeat split; lia.
Qed.

(** X11 -- the constraint is kept within the allowance.  When the sample
    that [get_sample] returns was accepted before the number of attempts
    exceeded [1 / efficiency_threshold], it carries the original constraint
    unchanged and its likelihood is above it.  With a zero efficiency
    threshold the bound is infinite: the constraint is never relaxed, and
    every sample returned is above the original constraint. *)
Theorem constraint_kept_within_allowance
  self preprocess_data fuel key0 c (live_points : LivePoints) e sample e' :
  get_sample self preprocess_data fuel key0 c live_points e = Returns sample e' ->
  (Fgt (Fin (inject_Z (num_likelihood_evaluations sample)))
     (one_over (efficiency_threshold self)) = false ->
   log_L_constraint sample = c /\ Fgt (log_L sample) c = true)
  /\ (Feqb (efficiency_threshold self) Fzero = true ->
      log_L_constraint sample = c /\ Fgt (log_L sample) c = true).
Proof.
  unfold get_sample. intros Hrun.
  apply bind_Returns in Hrun as (s & e1 & Hfin & Hrun).
  apply ret_Returns in Hrun as [<- <-].
  apply final_carry_state_inv in Hfin as [(m & Hm & _ & _ & Hc & _ & _ & Hacc) Hdone].
  destruct (Hacc Hdone) as (_ & _ & HL & Ha).
  cbn [log_L_constraint log_L num_likelihood_evaluations].
  assert (Hwithin : Fgt (Fin (inject_Z (Z.of_nat m)))
                      (one_over (efficiency_threshold self)) = false ->
                    cs_log_L_constraint s = c /\ Fgt (cs_log_L s) c = true).
  { intros Hw. apply relaxations_none in Hw.
    unfold accepts in Ha. rewrite Hw in Hc, Ha. rewrite Hc, HL. auto. }
  rewrite Hm. split; [exact Hwithin|].
  intros Hz. apply Hwithin. rewrite (one_over_zero _ Hz). reflexivity.
Qed.
End RejectionSample.

Lemma rejection_sample_is_evaluated_point_witness :
  let sample :=
    {| MultiellipsoidalSampler.point_U := [Fin (1 # 2)];
       MultiellipsoidalSampler.log_L_constraint := Fin (1 # 4);
       MultiellipsoidalSampler.log_L := Fin (1 # 2);
       MultiellipsoidalSampler.num_likelihood_evaluations := 1;
       MultiellipsoidalSampler.num_slices := 0;
       MultiellipsoidalSampler.iid := true |} in
  MultiellipsoidalSampler.log_L sample
  = forward (BaseAbstractModel := Example.total_model)
      (MultiellipsoidalSampler.point_U sample)
  /\ Z.of_nat 1 = (Z.of_nat 0 + MultiellipsoidalSampler.num_likelihood_evaluations sample)%Z
  /\ (1 <= MultiellipsoidalSampler.num_likelihood_evaluations sample)%Z
  /\ MultiellipsoidalSampler.num_slices sample = 0%Z
  /\ MultiellipsoidalSampler.iid sample = true.
Proof.
  apply (rejection_sample_is_evaluated_point
           (RNG := Example.rng) (model := Example.total_model) (ell := Example.interval)
           (LivePoints := unit)
           {| MultiellipsoidalSampler.depth := 0;
              MultiellipsoidalSampler.efficiency_threshold := Fzero |}
           tt 10 7%N (Fin (1 # 4)) tt 0%nat).
  vm_compute. reflexivity.
Defined.

Lemma constraint_kept_within_allowance_witness :
  let sample :=
    {| MultiellipsoidalSampler.point_U := [Fin (1 # 2)];
       MultiellipsoidalSampler.log_L_constraint := Fin (1 # 4);
       MultiellipsoidalSampler.log_L := Fin (1 # 2);
       MultiellipsoidalSampler.num_likelihood_evaluations := 1;
       MultiellipsoidalSampler.num_slices := 0;
       MultiellipsoidalSampler.iid := true |} in
  MultiellipsoidalSampler.log_L_constraint sample = Fin (1 # 4)
  /\ Fgt (MultiellipsoidalSampler.log_L sample) (Fin (1 # 4)) = true.
Proof.
  intros sample.
  assert (Hrun :
            MultiellipsoidalSampler.get_sample
              (RNG := Example.rng) (model := Example.total_model)
              (ell := Example.interval)
              {| MultiellipsoidalSampler.depth := 0;
                 MultiellipsoidalSampler.efficiency_threshold := Fzero |}
              tt 10 7%N (Fin (1 # 4)) tt 0%nat
            = Returns sample 1%nat) by (vm_compute; reflexivity).
  exact (proj2 (constraint_kept_within_allowance _ _ _ _ _ _ _ _ _ Hrun) eq_refl).
Defined.

(** ** Seed-point selection *)

Lemma jnp_take_in_range {A : Type} (xs : list A) (i : nat) :
  (i < List.length xs)%nat -> jnp_take xs i = nth_error xs i.
Proof.
  intros Hi. unfold jnp_take. replace (Nat.min i (List.length xs - 1)) with i by lia.
  reflexivity.
Qed.

Section SeedSelectionProperties.
Import UniSlice SeedSelection.
Context {RNG : JaxRandom} {gumbel : JaxGumbel}.

Lemma unnorm_select_log_prob_length log_L c :
  List.length (unnorm_select_log_prob log_L c) = List.length log_L.
Proof. unfold unnorm_select_log_prob. rewrite !length_map. reflexivity. Qed.

Lemma random_gumbel_length key n : List.length (random_gumbel key n) = n.
Proof. unfold random_gumbel. rewrite length_map, length_seq. reflexivity. Qed.

Lemma scores_length key log_L c :
  List.length
    (map2 Fadd (random_gumbel key (List.length (unnorm_select_log_prob log_L c)))
       (unnorm_select_log_prob log_L c))
  = List.length log_L.
Proof.
  rewrite map2_length, random_gumbel_length, unnorm_select_log_prob_length. lia.
Qed.

(** The seed, when there is one, is the entry of the collection at the
    position of the largest score. *)
Lemma get_seed_point_index key sc c :
  List.length (U_samples sc) = List.length (sc_log_L sc) ->
  match get_seed_point key (UniDimSliceSampler.tuple1 sc) c with
  | inl err => sc_log_L sc = [] /\ err = argmax_of_empty_sequence
  | inr seed =>
      exists j,
        jnp_argmax
          (map2 Fadd
             (random_gumbel key (List.length (unnorm_select_log_prob (sc_log_L sc) c)))
             (unnorm_select_log_prob (sc_log_L sc) c)) = Some j
        /\ nth_error (U_samples sc) j = Some (U0 seed)
        /\ nth_error (sc_log_L sc) j = Some (log_L0 seed)
  end.
Proof.
  intros Hlen. unfold get_seed_point.
  pose proof (scores_length key (sc_log_L sc) c) as Hscores.
  destruct (jnp_argmax _) as [j|] eqn:Hj.
  - pose proof (jnp_argmax_bound _ _ Hj) as Hb. rewrite Hscores in Hb.
    rewrite !jnp_take_in_range by lia.
    destruct (nth_error (U_samples sc) j) as [u|] eqn:Hu.
    2:{ apply nth_error_None in Hu. lia. }
    destruct (nth_error (sc_log_L sc) j) as [l|] eqn:Hl.
    2:{ apply nth_error_None in Hl. lia. }
    exists j. cbn [U0 log_L0]. auto.
  - split; [|reflexivity].
    destruct (map2 _ _ _) as [|x r] eqn:E; [|discriminate Hj].
    cbn [List.length] in Hscores.
    destruct (sc_log_L sc); [reflexivity | discriminate].
Qed.

Lemma unnorm_select_log_prob_nth log_L c k l :
  nth_error log_L k = Some l ->
  nth_error (unnorm_select_log_prob log_L c) k
  = Some (if existsb (fun b : bool => b) (map (fun l => Fgt l c) log_L)
          then (if Fgt l c then Fzero else NegInf) else Fzero).
Proof.
  intros Hk. unfold unnorm_select_log_prob.
  rewrite !nth_error_map, Hk. reflexivity.
Qed.

Lemma random_gumbel_nth key n k :
  (k < n)%nat -> nth_error (random_gumbel key n) k = Some (gumbel_at key n k).
Proof.
  intros Hk. unfold random_gumbel. rewrite nth_error_map.
  rewrite nth_error_seq. 
  destruct (Nat.ltb_spec k n); [reflexivity | lia].
Qed.

Lemma any_satisfied_true log_L c l :
  In l log_L -> Fgt l c = true ->
  existsb (fun b : bool => b) (map (fun l => Fgt l c) log_L) = true.
Proof.
  intros Hin Hgt. apply existsb_exists. exists true. split; [|reflexivity].
  rewrite <- Hgt. apply (in_map (fun l => Fgt l c)). exact Hin.
Qed.

Lemma score_nth key log_L c k l :
  nth_error log_L k = Some l ->
  nth_error
    (map2 Fadd (random_gumbel key (List.length (unnorm_select_log_prob log_L c)))
       (unnorm_select_log_prob log_L c)) k
  = Some (Fadd (gumbel_at key (List.length log_L) k)
            (if existsb (fun b : bool => b) (map (fun l => Fgt l c) log_L)
             then (if Fgt l c then Fzero else NegInf) else Fzero)).
Proof.
  intros Hk. rewrite unnorm_select_log_prob_length.
  apply nth_error_map2.
  - apply random_gumbel_nth. apply nth_error_Some. congruence.
  - apply unnorm_select_log_prob_nth, Hk.
Qed.


(** X12 -- the seed is an entry of the collection.  On a collection with as
    many points as likelihoods, [get_seed_point] fails only when the
    collection is empty ([jnp.argmax] of a zero-size array); otherwise the
    point and the likelihood of the seed are those of one and the same
    entry. *)
Theorem seed_is_collection_entry key sc c :
  List.length (U_samples sc) = List.length (sc_log_L sc) ->
  match get_seed_point key (UniDimSliceSampler.tuple1 sc) c with
  | inl err => sc_log_L sc = [] /\ err = argmax_of_empty_sequence
  | inr seed =>
      exists j,
        nth_error (U_samples sc) j = Some (U0 seed)
        /\ nth_error (sc_log_L sc) j = Some (log_L0 seed)
  end.
Proof.
  intros Hlen. pose proof (get_seed_point_index key sc c Hlen) as H.
  destruct (get_seed_point _ _ _) as [err | seed]; [exact H|].
  destruct H as (j & _ & Hu & Hl). exists j. auto.
Qed.

(** X13 -- a seed above the constraint is chosen whenever there is one.  If
    the Gumbel draws are finite and some entry of the collection has its
    likelihood above the constraint, the seed returned by [get_seed_point]
    has its likelihood above the constraint. *)
Theorem seed_satisfies_constraint key sc c :
  List.length (U_samples sc) = List.length (sc_log_L sc) ->
  (forall i, exists q, gumbel_at key (List.length (sc_log_L sc)) i = Fin q) ->
  (exists l, In l (sc_log_L sc) /\ Fgt l c = true) ->
  exists seed,
    get_seed_point key (UniDimSliceSampler.tuple1 sc) c = inr seed
    /\ Fgt (log_L0 seed) c = true.
Proof.
  intros Hlen Hg (l & Hin & Hgt).
  pose proof (get_seed_point_index key sc c Hlen) as H.
  destruct (get_seed_point _ _ _) as [err | seed].
  { destruct H as [Hnil _]. rewrite Hnil in Hin. destruct Hin. }
  exists seed. split; [reflexivity|].
  destruct H as (j & Hj & _ & Hl).
  pose proof (any_satisfied_true _ _ _ Hin Hgt) as Hany.
  apply jnp_argmax_max in Hj.
  - destruct Hj as (v & Hv & Hmax).
    rewrite (score_nth key _ c j _ Hl), Hany in Hv.
    apply In_nth_error in Hin as (k & Hk).
    pose proof (score_nth key _ c k _ Hk) as Hsk. rewrite Hany, Hgt in Hsk.
    apply nth_error_In, Hmax in Hsk.
    destruct (Hg k) as (qk & Hqk). destruct (Hg j) as (qj & Hqj).
    rewrite Hqk in Hsk. rewrite Hqj in Hv.
    destruct (Fgt (log_L0 seed) c); [reflexivity|].
    injection Hv as <-. discriminate Hsk.
  - apply Forall_forall. intros y Hy.
    apply In_nth_error in Hy as (k & Hk).
    destruct (nth_error_map2_inv _ _ _ _ _ Hk) as (a & b & Ha & Hb & ->).
    assert (Hklt : (k < List.length (sc_log_L sc))%nat).
    { rewrite <- (unnorm_select_log_prob_length _ c). apply nth_error_Some. congruence. }
    rewrite unnorm_select_log_prob_length, random_gumbel_nth in Ha by exact Hklt.
    injection Ha as <-.
    destruct (nth_error (sc_log_L sc) k) as [lk|] eqn:Hlk.
    2:{ apply nth_error_None in Hlk. lia. }
    rewrite (unnorm_select_log_prob_nth _ c k lk Hlk) in Hb. injection Hb as <-.
    destruct (Hg k) as (qk & ->).
    destruct (existsb _ _); [destruct (Fgt lk c)|]; discriminate.
Qed.

End SeedSelectionProperties.

Lemma seed_is_collection_entry_witness :
  exists j,
    nth_error (SeedSelection.U_samples MoreExamples.collection) j = Some [Fin (3 # 4)]
    /\ nth_error (SeedSelection.sc_log_L MoreExamples.collection) j = Some (Fin (3 # 4)).
Proof.
  exact (seed_is_collection_entry (gumbel := MoreExamples.gumbel)
           5%N MoreExamples.collection (Fin (1 # 2)) eq_refl).
Defined.

Lemma seed_satisfies_constraint_witness :
  exists seed,
    SeedSelection.get_seed_point (gumbel := MoreExamples.gumbel) 5%N
      (UniDimSliceSampler.tuple1 MoreExamples.collection) (Fin (1 # 2)) = inr seed
    /\ Fgt (UniSlice.log_L0 seed) (Fin (1 # 2)) = true.
Proof.
  apply (seed_satisfies_constraint (gumbel := MoreExamples.gumbel)
           5%N MoreExamples.collection (Fin (1 # 2)) eq_refl).
  - intros i. eexists. reflexivity.
  - exists (Fin (3 # 4)). split; [right; left; reflexivity | reflexivity].
Defined.

(** ** Priors *)

Section PriorProperties.
Import Priors.
Context {TFP : Tfp}.

Lemma dist_type (prior : Prior.t) d :
  Prior.dist prior = inr d ->
  Prior._type prior = "dist"%string /\ Prior._dist prior = Some d.
Proof.
  unfold Prior.dist. destruct (String.eqb (Prior._type prior) "dist") eqn:E; cbn [negb].
  - apply String.eqb_eq in E. rewrite E.
    destruct (Prior._dist prior); cbn; [|discriminate].
    intros H; injection H as ->. auto.
  - discriminate.
Qed.

(** X14 -- a prior is either a distribution or a value.  For a prior built by
    [__init__], exactly one of the accessors [dist] and [value] returns and
    the other raises [ValueError]; on a distribution the methods are those of
    the distribution (the wrapper [Distribution] of it, for a
    [tfpd.Distribution]), so that no [NotImplementedError] or
    [AttributeError] comes from the prior itself. *)
Theorem prior_accessors_exclusive (dist_or_value : Prior.dist_or_value_t)
  (name : option string) :
  let prior := Prior.__init__ dist_or_value name in
  (exists d,
      Prior.dist prior = inr d
      /\ Prior.value prior = inl (ValueError "Wrong type, got dist")
      /\ d = match dist_or_value with
             | Prior.a_tfp_distribution t => Distribution t
             | Prior.a_distribution d' => d'
             | Prior.a_value _ => d
             end
      /\ Prior._base_shape prior = BaseAbstractDistribution.base_shape d
      /\ Prior._shape prior = BaseAbstractDistribution.shape d
      /\ Prior._dtype prior = BaseAbstractDistribution.dtype d
      /\ (forall U, Prior._forward prior U = BaseAbstractDistribution.forward d U)
      /\ (forall X, Prior._inverse prior X = BaseAbstractDistribution.inverse d X)
      /\ (forall X, Prior._log_prob prior X = BaseAbstractDistribution.log_prob d X))
  \/ (exists v,
         dist_or_value = Prior.a_value v
         /\ Prior.value prior = inr v
         /\ Prior.dist prior = inl (ValueError "Wrong type, got value")).
Proof.
  destruct dist_or_value as [t | d | v]; cbn zeta.
  - left. exists (Distribution t). repeat split.
  - left. exists d. repeat split.
  - right. exists v. repeat split.
Qed.

(** X15 -- a prior on a value is degenerate, as a [SingularPrior] is.  For a
    prior built by [__init__] on an array, [_forward] returns the array
    whatever its argument; the base shape is [(0,)] and [_inverse] returns an
    array of that shape, with no element; [_log_prob] is zero; and
    [parametrised] raises [ValueError].  A [SingularPrior] of the same value
    has the same base shape, [_forward] and [_inverse]. *)
Theorem value_prior_is_degenerate {FW : Framework} (v : Array.t) (name : option string)
  (d : BaseAbstractDistribution.t) :
  let prior := Prior.__init__ (Prior.a_value v) name in
  let singular := SingularPrior.__init__ v d name in
  (forall U, Prior._forward prior U = inr v)
  /\ Prior._shape prior = inr (Array.shape v)
  /\ Prior._dtype prior = inr (Array.dtype v)
  /\ (forall X, Prior._log_prob prior X = inr Array.zero)
  /\ (forall X, exists a,
         Prior._inverse prior X = inr a
         /\ Prior._base_shape prior = inr (Array.shape a)
         /\ List.length (Array.data a) = Array.size (Array.shape a)
         /\ Array.size (Array.shape a) = 0%nat)
  /\ parametrised prior
     = inl (ValueError "Cannot parametrise a prior without distribution.")
  /\ SingularPrior._base_shape singular = Prior._base_shape prior
  /\ (forall U, SingularPrior._forward singular U = Prior._forward prior U)
  /\ (forall X, SingularPrior._inverse singular X = Prior._inverse prior X).
Proof.
  cbn zeta. repeat split.
  intros X. exists Array.empty. repeat split.
Qed.

(** X16 -- [parametrised] keeps the distribution and drops the base
    representation.  When [parametrised] returns a singular prior, the prior
    is on a distribution, which is the one of the singular prior; name,
    shape, element type and [_log_prob] are unchanged; the value of the
    singular prior is the image by [forward] of the sigmoid of the haiku
    parameter named after the prior; and its base shape is [(0,)]. *)
Theorem parametrised_keeps_distribution {FW : Framework} (prior : Prior.t)
  (singular : SingularPrior.t) :
  parametrised prior = inr singular ->
  Prior.dist prior = inr (SingularPrior.dist singular)
  /\ SingularPrior.name singular = Prior.name prior
  /\ SingularPrior._shape singular = Prior._shape prior
  /\ SingularPrior._dtype singular = Prior._dtype prior
  /\ (forall X, SingularPrior._log_prob singular X = Prior._log_prob prior X)
  /\ (exists shape0 p,
         base_shape prior = inr shape0
         /\ get_parameter (param_name (Prior.name prior)) shape0 float_dtype
              (Array.zeros shape0) = inr p
         /\ forward prior (sigmoid p) = inr (SingularPrior.value singular))
  /\ SingularPrior._base_shape singular = inr [0%nat].
Proof.
  unfold parametrised, prior_to_parametrised_singular.
  destruct (String.eqb (Prior._type prior) "value") eqn:Ev; [discriminate|].
  destruct (base_shape prior) as [e | shape0] eqn:Hs; cbn [and_then]; [discriminate|].
  destruct (get_parameter _ _ _ _) as [e | p] eqn:Hp; cbn [and_then]; [discriminate|].
  destruct (forward prior (sigmoid p)) as [e | param] eqn:Hf; cbn [and_then];
    [discriminate|].
  destruct (Prior.dist prior) as [e | d] eqn:Hd; cbn [and_then]; [discriminate|].
  intros H; injection H as <-.
  destruct (dist_type _ _ Hd) as [Ht Hdist].
  unfold SingularPrior._shape, SingularPrior._dtype, SingularPrior._log_prob,
    SingularPrior._base_shape, Prior._shape, Prior._dtype, Prior._log_prob.
  rewrite Hd, Ht. cbn.
  repeat split. exists shape0, p. auto.
Qed.

End PriorProperties.

Lemma parametrised_keeps_distribution_witness :
  Priors.Prior.dist PriorExamples.prior = inr PriorExamples.unit_interval
  /\ Priors.SingularPrior._base_shape
       (Priors.SingularPrior.__init__
          {| Priors.Array.shape := [1%nat]; Priors.Array.dtype := Priors.float_dtype;
             Priors.Array.data := [Fin (1 # 2)] |}
          PriorExamples.unit_interval (Some "x"%string))
     = inr [0%nat].
Proof.
  pose proof (parametrised_keeps_distribution (FW := PriorExamples.framework)
                PriorExamples.prior _ eq_refl) as H.
  split; [exact (proj1 H) | exact (proj2 (proj2 (proj2 (proj2 (proj2 (proj2 H))))))].
Defined.

(** ** Slices along the gradient *)

(** X17 -- a gradient slice is one-sided.  In gradient mode the bracket
    starts at the seed, whatever [perfect] is: when its right end is finite,
    every state of the loop of [_new_proposal] keeps the left end at zero and
    proposes the seed moved by a non-negative [t] along the direction. *)
Theorem gradient_slice_is_one_sided
  {RNG : JaxRandom} {model : BaseAbstractModel} {num : Numerics}
  seed midpoint c key perfect_mode e c0 e0 carry :
  init_carry seed key perfect_mode true e = Returns c0 e0 ->
  isfinite (c_right c0) = true ->
  visited (cond seed c) (body seed midpoint c) c0 carry ->
  init_carry seed key (negb perfect_mode) true e = Returns c0 e0
  /\ exists l tau,
      c_left carry = Fin l /\ l == 0
      /\ c_t carry = Fin tau /\ 0 <= tau
      /\ c_point_U carry
         = map2 (fun u d => Fadd u (Fmul (Fin tau) d)) (U0 seed) (c_direction c0).
Proof.
  intros Hinit Hfr Hv. split; [exact Hinit|].
  pose proof (init_carry_inv _ _ _ _ _ _ _ Hinit) as (_ & _ & Hs0 & _ & Hg).
  destruct (Hg eq_refl) as (Hl0 & _).
  assert (Hfl : isfinite (c_left c0) = true) by (rewrite Hl0; reflexivity).
  pose proof (init_within_bracket _ _ _ _ _ _ _ Hinit Hfl Hfr) as Hw0.
  pose proof (visited_within_bracket _ _ _ _ _ Hw0 Hv)
    as (l0 & r0 & l & r & tau & Hl0' & Hr0 & Hl & Hr & Ht & Hnl & Hnr & Hin).
  pose proof (visited_on_slice _ _ _ _ _ Hs0 Hv) as (Hd & Hp & _).
  rewrite Hl0 in Hl0'. unfold Fzero in Hl0'.
  assert (E : l0 = 0) by congruence.
  subst l0.
  exists l, tau. rewrite Hp, Ht, Hd.
  repeat split; try assumption; lra.
Qed.

Lemma gradient_slice_is_one_sided_witness :
  let c0 := @Build_Carry Example.rng 22%N [Fone] (Fin 0) (Fin (1 # 4))
              (Fin 0) [Fin (3 # 4)] (Fin (3 # 4)) 1%Z in
  let c1 := @Build_Carry Example.rng 67%N [Fone] (Fin 0) (Fin (1 # 4))
              (Fin 0) [Fin (3 # 4)] (Fin (3 # 4)) 2%Z in
  init_carry (RNG := Example.rng) (model := Example.total_model)
    (num := Example.float64) Example.seed 7%N true true 0%nat = Returns c0 2%nat
  /\ exists l tau,
      c_left c1 = Fin l /\ l == 0
      /\ c_t c1 = Fin tau /\ 0 <= tau
      /\ c_point_U c1
         = map2 (fun u d => Fadd u (Fmul (Fin tau) d)) (U0 Example.seed)
             (c_direction c0).
Proof.
  intros c0 c1.
  apply (gradient_slice_is_one_sided
           (RNG := Example.rng) (model := Example.total_model) (num := Example.float64)
           Example.seed true (Fin (9 # 10)) 7%N false 0%nat c0 2%nat c1).
  - vm_compute. reflexivity.
  - reflexivity.
  - apply (visited_step _ _ c0 2%nat c1 3%nat c1).
    + vm_compute. reflexivity.
    + vm_compute. reflexivity.
    + apply visited_start.
Defined.

(** ** A constraint too large to relax *)

Section Absorption.
Import MultiellipsoidalSampler.
Context {RNG : JaxRandom} {model : BaseAbstractModel} {ell : EllipsoidUnion}.
Context {LivePoints : Type}.

Lemma relaxed_absorbed c k : F64 (Fsub c tenth) = c -> relaxed c k = c.
Proof.
  intros Hc. induction k as [|k IH]; [reflexivity|].
  change (relaxed c (S k)) with (F64 (Fsub (relaxed c k) tenth)).
  rewrite IH. exact Hc.
Qed.

Lemma rejection_loop_never_raises self preprocess_data fuel : forall s e x,
  while_loop fuel (fun s => negb (done s)) (body self preprocess_data) s e <> Raises x.
Proof.
  induction fuel as [|fuel IH]; intros s e x; cbn [while_loop];
    destruct (negb (done s)); try discriminate.
  unfold bind. rewrite body_returns_state. apply IH.
Qed.

(** X18 -- the back-off is absorbed by a large constraint.  When the binary64
    subtraction of [0.1] leaves the constraint unchanged, as it does from
    [2^53] on, every attempt is tested against the original constraint: if no
    point drawn has its likelihood above it, [get_sample] exhausts every
    iteration cap without returning. *)
Theorem absorbed_backoff_never_returns
  self preprocess_data fuel key0 c (live_points : LivePoints) e :
  F64 (Fsub c tenth) = c ->
  (forall m, Fgt (forward (attempt_point preprocess_data key0 m)) c = false) ->
  get_sample self preprocess_data fuel key0 c live_points e = OutOfFuel.
Proof.
  intros Habs Hbelow.
  unfold get_sample, bind.
  destruct (final_carry_state self preprocess_data fuel key0 c e) as [s e1 | x |] eqn:Hfin;
    [| |reflexivity]; exfalso.
  - apply final_carry_state_inv in Hfin as [(m & _ & _ & _ & _ & _ & _ & Hacc) Hdone].
    destruct (Hacc Hdone) as (_ & _ & _ & Ha).
    unfold accepts in Ha. rewrite (relaxed_absorbed _ _ Habs), Hbelow in Ha.
    discriminate.
  - exact (rejection_loop_never_raises _ _ _ _ _ _ Hfin).
Qed.
End Absorption.

Lemma absorbed_backoff_never_returns_witness :
  MultiellipsoidalSampler.get_sample
    (RNG := Example.rng) (model := Example.total_model) (ell := Example.interval)
    {| MultiellipsoidalSampler.depth := 0;
       MultiellipsoidalSampler.efficiency_threshold := Fin (1 # 2) |}
    tt 20 7%N (Fin 9007199254740992) tt 0%nat
  = OutOfFuel.
Proof.
  apply (absorbed_backoff_never_returns
           (RNG := Example.rng) (model := Example.total_model) (ell := Example.interval)
           (LivePoints := unit)).
  - vm_compute. reflexivity.
  - intros m. vm_compute. reflexivity.
Defined.
